(** * Quokka: process supervision and fault-detection orchestration

    A shallow embedding of [core/quokka.py]: the [ExternalProcess] plugin
    base class (spawned process, poll-based [wait], [stop], [is_running],
    [set_environ]), the [ModuleImporter] and the [Quokka] orchestrator
    ([run_plugin], [attach_monitors], [attach_loggers], [detect_faults]).

    Python methods become functions in a small state-and-exception monad;
    the interpreter's environment (the clock, [os.environ], the child
    process behind a [subprocess.Popen] object, the importable modules) is
    explicit data that every theorem quantifies over.  Where the behaviour
    of the standard library depends on the interpreter, it is that of
    CPython 3 (3.9 or later) on Linux. *)

From Stdlib Require Import ZArith QArith Qminmax Qround Lqa String Ascii List Lia.
From stdpp Require Import gmap strings list fin_maps pretty.

Local Open Scope string_scope.
Local Open Scope list_scope.

(** ** Python exceptions and outcomes of a call *)

Module Py.

(** The exception classes that the module raises, catches or lets through.
    [KeyboardInterrupt] stands for the classes that derive from
    [BaseException] only: [except Exception] does not catch them. *)
Inductive exn : Type :=
| AttributeError (msg : string)
| ImportError (msg : string)
| UnboundLocalError (msg : string)
| TypeError (msg : string)
| ValueError (msg : string)
| OSError (msg : string)
| RuntimeError (msg : string)
| PluginException (msg : string)
| QuokkaException (msg : string)
| KeyboardInterrupt.

(** [isinstance(e, Exception)] *)
Definition is_Exception (e : exn) : bool :=
  match e with
  | KeyboardInterrupt => false
  | _ => true
  end.

(** [isinstance(e, PluginException)] *)
Definition is_PluginException (e : exn) : bool :=
  match e with
  | PluginException _ => true
  | _ => false
  end.

(** [str(e)]: the message the exception was built with. *)
Definition exn_str (e : exn) : string :=
  match e with
  | AttributeError m | ImportError m | UnboundLocalError m | TypeError m
  | ValueError m | OSError m | RuntimeError m | PluginException m
  | QuokkaException m => m
  | KeyboardInterrupt => ""
  end.

(** What a call does, seen from its caller: it returns a value, raises, or
    blocks for ever inside a call that never comes back.  [Starved] is the
    embedding's own: the iteration budget of a [while True] loop ran out. *)
Inductive outcome (St A : Type) : Type :=
| Returns (a : A) (s : St)
| Raises (e : exn) (s : St)
| Blocks (s : St)
| Starved.
Global Arguments Returns {St A} a s.
Global Arguments Raises {St A} e s.
Global Arguments Blocks {St A} s.
Global Arguments Starved {St A}.

Definition M (St A : Type) : Type := St -> outcome St A.

Definition ret {St A} (a : A) : M St A := fun s => Returns a s.

Definition bind {St A B} (m : M St A) (k : A -> M St B) : M St B :=
  fun s =>
    match m s with
    | Returns a s' => k a s'
    | Raises e s' => Raises e s'
    | Blocks s' => Blocks s'
    | Starved => Starved
    end.

Definition raise {St A} (e : exn) : M St A := fun s => Raises e s.

Definition get {St} : M St St := fun s => Returns s s.

Definition modify {St} (f : St -> St) : M St unit := fun s => Returns tt (f s).

(** [try: body / except C as e: handler(e)], where [catches] decides
    [isinstance(e, C)]. *)
Definition try_except {St A} (body : M St A) (catches : exn -> bool)
    (handler : exn -> M St A) : M St A :=
  fun s =>
    match body s with
    | Raises e s' => if catches e then handler e s' else Raises e s'
    | o => o
    end.

(** [for x in xs: body(x)] *)
Fixpoint for_each {St A} (xs : list A) (body : A -> M St unit) : M St unit :=
  match xs with
  | [] => ret tt
  | x :: xs' => bind (body x) (fun _ => for_each xs' body)
  end.

End Py.

Export Py.

Declare Scope py_scope.
Delimit Scope py_scope with py.
Notation "'do' x <- c ; k" := (bind c (fun x => k))
  (at level 10, x name, c at level 100, k at level 200) : py_scope.
Notation "c ;; k" := (bind c (fun _ => k))
  (at level 100, k at level 200, right associativity) : py_scope.
Local Open Scope py_scope.

(** ** Python values and their [str] and [repr]

    The values a configuration or an environment context is made of, as
    CPython 3 has them.  A string is text of the code points below 256: a
    character of a Rocq string stands for the code point of its number, so
    that text with a code point above 255 is outside the model.
    Floating-point numbers are left out, and so are the limits that the
    configuration of the interpreter sets on the size of a value
    ([sys.set_int_max_str_digits] for the digits of an integer that is
    converted to text, [sys.setrecursionlimit] for the depth of nesting). *)

Module PyVal.

#[local] Set Warnings "-register-all".

Inductive t : Type :=
| PNone
| PBool (b : bool)
| PInt (z : Z)
| PStr (s : string)
| PList (xs : list t)
| PDict (items : list (t * t)).   (* in iteration order *)

(** [sep.join(parts)] *)
Fixpoint join (sep : string) (parts : list string) : string :=
  match parts with
  | [] => ""
  | [x] => x
  | x :: rest => x +:+ sep +:+ join sep rest
  end.

Definition squote : ascii := ascii_of_nat 39.
Definition dquote : ascii := ascii_of_nat 34.
Definition backslash : ascii := ascii_of_nat 92.

Fixpoint contains (c : ascii) (s : string) : bool :=
  match s with
  | EmptyString => false
  | String d rest => if Ascii.eqb c d then true else contains c rest
  end.

Definition hex_digit (n : nat) : ascii :=
  match String.get n "0123456789abcdef" with
  | Some c => c
  | None => "0"%char
  end.

(** [str.isprintable] on the code points below 256.  Not printable are the
    control characters (0 to 31 and 127 to 159), the no-break space (160) and
    the soft hyphen (173). *)
Definition printable (n : nat) : bool :=
  ((32 <=? n)%nat && (n <? 127)%nat) || ((161 <=? n)%nat && negb (Nat.eqb n 173)).

(** One character of a string literal delimited by [quote]: the backslash
    and the delimiter are escaped, tab, newline and carriage return have
    their letters, any other character that is not printable is written
    [\xNN], and a printable one stands for itself. *)
Definition escape (quote c : ascii) : string :=
  let n := nat_of_ascii c in
  if Ascii.eqb c backslash then String backslash (String backslash "")
  else if Ascii.eqb c quote then String backslash (String quote "")
  else if Nat.eqb n 10 then String backslash "n"
  else if Nat.eqb n 13 then String backslash "r"
  else if Nat.eqb n 9 then String backslash "t"
  else if negb (printable n) then
    String backslash
      (String "x" (String (hex_digit (n / 16)) (String (hex_digit (n mod 16)) "")))
  else String c "".

Fixpoint escape_all (quote : ascii) (s : string) : string :=
  match s with
  | EmptyString => ""
  | String c rest => escape quote c +:+ escape_all quote rest
  end.

(** [repr(s)] of a string: single quotes, unless the text has a single
    quote and no double quote. *)
Definition repr_str (s : string) : string :=
  let quote := if contains squote s && negb (contains dquote s) then dquote else squote in
  String quote (escape_all quote s +:+ String quote "").

(** [repr(v)] *)
Fixpoint repr (v : t) : string :=
  match v with
  | PNone => "None"
  | PBool true => "True"
  | PBool false => "False"
  | PInt z => pretty z
  | PStr s => repr_str s
  | PList xs => "[" +:+ join ", " (List.map repr xs) +:+ "]"
  | PDict items =>
      "{" +:+ join ", " (List.map (fun kv => repr (fst kv) +:+ ": " +:+ repr (snd kv)) items) +:+ "}"
  end.

(** [str(v)]: the text itself for a string, [repr(v)] otherwise. *)
Definition str (v : t) : string :=
  match v with
  | PStr s => s
  | _ => repr v
  end.

(** [type(v).__name__] *)
Definition type_name (v : t) : string :=
  match v with
  | PNone => "NoneType"
  | PBool _ => "bool"
  | PInt _ => "int"
  | PStr _ => "str"
  | PList _ => "list"
  | PDict _ => "dict"
  end.

(** ['%s' % v] where [v] is a string or [None]. *)
Definition str_opt (v : option string) : string :=
  match v with
  | Some s => s
  | None => "None"
  end.

End PyVal.

Export PyVal(PNone, PBool, PInt, PStr, PList, PDict).

(** ** [subprocess.Popen] and the child process behind it

    The standard library's [Popen] object, as far as the module uses it:
    [poll], [wait], [terminate], [kill] and the [returncode] attribute.  The
    child's own behaviour is data: when it exits if it is left alone, and
    what each of the two signals does to it. *)

Module Popen.

(** What sending a signal does. *)
Inductive signal_effect : Type :=
| Dies (status : Z)    (* the child exits with this status *)
| Ignored              (* the child survives the signal *)
| Fails (e : exn).     (* the call itself raises *)

Record t : Type := mk {
  fate : option (Q * Z);        (* exit time and status; None: never exits *)
  on_terminate : signal_effect; (* SIGTERM *)
  on_kill : signal_effect;      (* SIGKILL *)
  returncode : option Z         (* the attribute: None until reaped *)
}.

Definition set_returncode (c : Z) (p : t) : t :=
  mk (fate p) (on_terminate p) (on_kill p) (Some c).

Definition set_fate (f : option (Q * Z)) (p : t) : t :=
  mk f (on_terminate p) (on_kill p) (returncode p).

(** The status of the child if it has exited by time [now]. *)
Definition exited_by (now : Q) (p : t) : option Z :=
  match fate p with
  | Some (at_time, status) => if Qle_bool at_time now then Some status else None
  | None => None
  end.

(** [p.poll()] at time [now]: never blocks; sets and returns [returncode]. *)
Definition poll (now : Q) (p : t) : option Z * t :=
  match returncode p with
  | Some c => (Some c, p)
  | None =>
      match exited_by now p with
      | Some c => (Some c, set_returncode c p)
      | None => (None, p)
      end
  end.

(** [p.wait()] at time [now]: blocks until the child has exited; [None]
    when it never does.  Otherwise the status, the time at which the call
    comes back and the object with [returncode] set. *)
Definition wait (now : Q) (p : t) : option (Z * Q * t) :=
  match returncode p with
  | Some c => Some (c, now, p)
  | None =>
      match fate p with
      | Some (at_time, status) =>
          Some (status, Qmax now at_time, set_returncode status p)
      | None => None
      end
  end.

(** [p.terminate()] and [p.kill()] at time [now]: a signal that kills
    reaches only a child that is still alive. *)
Definition send_signal (eff : signal_effect) (now : Q) (p : t) : exn + t :=
  match eff with
  | Fails e => inl e
  | Ignored => inr p
  | Dies status =>
      match returncode p, exited_by now p with
      | None, None => inr (set_fate (Some (now, status)) p)
      | _, _ => inr p
      end
  end.

End Popen.

(** ** [ExternalProcess] *)

Module ExternalProcess.

(** The calls that leave the object, in the order they are made. *)
Inductive event : Type :=
| Poll                      (* self.process.poll() *)
| Sleep (seconds : Q)       (* time.sleep(seconds) *)
| Terminate                 (* self.process.terminate() *)
| Kill                      (* self.process.kill() *)
| Wait                      (* self.process.wait() *)
| LogError (e : exn).       (* logging.error(e) *)

(** The object ([self.process], [None] until [open] has run) together with
    the clock ([time.time()]) and the trace of calls made so far. *)
Record state : Type := mk {
  process : option Popen.t;
  clock : Q;
  trace : list event
}.

Definition emit (ev : event) : M state unit :=
  modify (fun s => mk (process s) (clock s) (trace s ++ [ev])).

Definition set_process (p : Popen.t) : M state unit :=
  modify (fun s => mk (Some p) (clock s) (trace s)).

Definition set_clock (now : Q) : M state unit :=
  modify (fun s => mk (process s) now (trace s)).

(** [self.process.<name>]: an attribute of [None] does not exist. *)
Definition the_process (name : string) : M state Popen.t :=
  fun s =>
    match process s with
    | Some p => Returns p s
    | None =>
        Raises (AttributeError ("'NoneType' object has no attribute '" +:+ name +:+ "'")) s
    end.

(** [time.time()] *)
Definition time_time : M state Q := fun s => Returns (clock s) s.

(** [time.sleep(seconds)]: a negative length is refused. *)
Definition time_sleep (seconds : Q) : M state unit :=
  if Qle_bool 0%Q seconds then
    emit (Sleep seconds) ;;
    do now <- time_time;
    set_clock (Qred (now + seconds))
  else raise (ValueError "sleep length must be non-negative").

Definition process_poll : M state (option Z) :=
  do p <- the_process "poll";
  emit Poll ;;
  do now <- time_time;
  let (r, p') := Popen.poll now p in
  set_process p' ;;
  ret r.

Definition process_wait : M state Z :=
  do p <- the_process "wait";
  emit Wait ;;
  do now <- time_time;
  match Popen.wait now p with
  | Some (c, back, p') => set_process p' ;; set_clock back ;; ret c
  | None => fun s => Blocks s
  end.

Definition process_signal (name : string) (ev : event)
    (eff : Popen.t -> Popen.signal_effect) : M state unit :=
  do p <- the_process name;
  emit ev ;;
  do now <- time_time;
  match Popen.send_signal (eff p) now p with
  | inl e => raise e
  | inr p' => set_process p'
  end.

Definition process_terminate : M state unit :=
  process_signal "terminate" Terminate Popen.on_terminate.

Definition process_kill : M state unit :=
  process_signal "kill" Kill Popen.on_kill.

(** [def stop(self)] *)
Definition stop : M state unit :=
  do s <- get;
  match process s with
  | Some _ =>
      try_except
        (process_terminate ;; process_kill)
        is_Exception
        (fun e => emit (LogError e))
  | None => ret tt
  end.

(** The truth value of the [timeout] argument: [None] and zero are false. *)
Definition truthy (timeout : option Q) : bool :=
  match timeout with
  | Some t => negb (Qeq_bool t 0%Q)
  | None => false
  end.

(** [min(timeout / 1000.0, .25)] *)
Definition interval_of (timeout : Q) : Q := Qmin (timeout / 1000)%Q (1 # 4)%Q.

(** The [while True] loop of [wait].  [Some result] is the loop's
    [return result]; [None] is its [break]. *)
Fixpoint wait_loop (fuel : nat) (end_time interval : Q) : M state (option Z) :=
  match fuel with
  | O => fun _ => Starved
  | S fuel' =>
      do result <- process_poll;
      match result with
      | Some r => ret (Some r)
      | None =>
          do now <- time_time;
          if Qle_bool end_time now then ret None
          else time_sleep interval ;; wait_loop fuel' end_time interval
      end
  end.

(** [def wait(self, timeout=600)].  The value is what the call returns:
    [Some code] for [return result], [None] when control falls off the end
    of the body (Python's [None]). *)
Definition wait (fuel : nat) (timeout : option Q) : M state (option Z) :=
  match timeout with
  | Some t =>
      if truthy timeout then
        do now <- time_time;
        let end_time := (now + t)%Q in
        let interval := interval_of t in
        do polled <- wait_loop fuel end_time interval;
        match polled with
        | Some result => ret (Some result)
        | None => stop ;; process_wait ;; ret None
        end
      else process_wait ;; ret None
  | None => process_wait ;; ret None
  end.

(** The default of the [timeout] parameter. *)
Definition default_timeout : option Q := Some 600%Q.

(** [def is_running(self)] *)
Definition is_running : M state bool :=
  do s <- get;
  match process s with
  | None => ret false
  | Some _ =>
      do r <- process_poll;
      match r with
      | Some _ => ret false
      | None => ret true
      end
  end.

End ExternalProcess.

(** ** [ExternalProcess.set_environ] and [os.environ] *)

Module Environ.

(** The mapping a caller holds after the call: [os.environ] itself, or a
    mapping of its own with the given content (what a copy would be). *)
Inductive ref : Type :=
| OsEnviron
| Private (content : gmap string string).

(** The process-wide environment. *)
Record state : Type := mk {
  os_environ : gmap string string
}.

Definition deref (r : ref) (s : state) : gmap string string :=
  match r with
  | OsEnviron => os_environ s
  | Private content => content
  end.

(** The character of code point 0. *)
Definition nul : ascii := ascii_of_nat 0.

(** [os.environ[key] = value] on CPython 3 (3.9 or later) for Linux, whose
    body is [key = self.encodekey(key)], [value = self.encodevalue(value)],
    [putenv(key, value)], [self._data[key] = value].  Encoding refuses what
    is not a string, the name first, with a [TypeError].  [putenv] refuses
    text that holds the character 0 and then a name that holds an equals
    sign, with a [ValueError], and the [setenv] of the C library that it
    calls refuses an empty name, which gives an [OSError].  Nothing is stored
    when a step raises. *)
Definition environ_setitem (key value : PyVal.t) : M state unit :=
  match key with
  | PStr k =>
      match value with
      | PStr v =>
          if PyVal.contains nul k || PyVal.contains nul v
          then raise (ValueError "embedded null byte")
          else if PyVal.contains "=" k
          then raise (ValueError "illegal environment variable name")
          else if String.eqb k ""
          then raise (OSError "[Errno 22] Invalid argument")
          else modify (fun s => mk (<[k := v]> (os_environ s)))
      | _ => raise (TypeError ("str expected, not " +:+ PyVal.type_name value))
      end
  | _ => raise (TypeError ("str expected, not " +:+ PyVal.type_name key))
  end.

(** [','.join('{!s}={!r}'.format(k, v) for (k, v) in val.items())] *)
Definition serialize (items : list (PyVal.t * PyVal.t)) : string :=
  PyVal.join "," (List.map (fun kv => PyVal.str (fst kv) +:+ "=" +:+ PyVal.repr (snd kv)) items).

(** What the loop body assigns for one context value: the [isinstance(val,
    dict)] branch serializes, the other passes [val] on as it is. *)
Definition assigned (val : PyVal.t) : PyVal.t :=
  match val with
  | PDict items => PStr (serialize items)
  | _ => val
  end.

(** [def set_environ(context=None)], a static method: [context] is [None]
    or the items of a mapping, in iteration order.  [env = os.environ]
    binds [env] to the process-wide mapping itself, so each [env[key] = ...]
    is an assignment to [os.environ], and [return env] hands that same
    object back. *)
Definition set_environ (context : option (list (PyVal.t * PyVal.t))) : M state ref :=
  let env := OsEnviron in
  match context with
  | None => ret env
  | Some items =>
      for_each items (fun kv => environ_setitem (fst kv) (assigned (snd kv))) ;;
      ret env
  end.

End Environ.

(** ** [ModuleImporter] and [Quokka] *)

Module Quokka.

(** *** What an import can find

    The plugin, monitor, listener and logger classes live in other modules
    of the package and are reached by name only.  A class is described by
    what the orchestrator can observe of it. *)
Record py_class : Type := mk_class {
  class_module : string;             (* cls.__module__ *)
  class_name_of : string;            (* cls.__name__ *)
  MONITOR_NAME : option string;      (* the class attribute, when it has one *)
  init_raises : option exn;          (* what calling the class raises, if anything *)
  start_raises : nat -> option exn;  (* what start() raises after n earlier calls *)
  spawns : option Popen.t;           (* a plugin's process once start() has run *)
  observes : option PyVal.t          (* a monitor's fault data, if it sees a fault *)
}.

(** [__import__(module_path, fromlist=[...])] *)
Inductive module_lookup : Type :=
| NoModule                                   (* ImportError *)
| ModuleRaises (e : exn)                     (* the module's own code raises *)
| Loaded (attrs : string -> option py_class).

(** [str(cls)] *)
Definition class_str (c : py_class) : string :=
  "<class '" +:+ class_module c +:+ "." +:+ class_name_of c +:+ "'>".

(** *** The run configuration *)
Record listener_spec : Type := mk_listener_spec {
  listener_class : option string;              (* listener.get("class") *)
  listener_kargs : option (list PyVal.t)       (* listener.get("kargs") *)
}.

Record monitor_spec : Type := mk_monitor_spec {
  monitor_class : option string;                    (* monitor.get("class") *)
  monitor_kargs : option (list PyVal.t);            (* monitor.get("kargs") *)
  monitor_listeners : option (list listener_spec)   (* monitor.get("listeners") *)
}.

Record logger_spec : Type := mk_logger_spec {
  logger_class : option string;                      (* logger.get("class") *)
  logger_kargs : option (list (string * PyVal.t))    (* logger.get("kargs") *)
}.

Record config : Type := mk_config {
  plugin_class : string;
  quokka : PyVal.t;
  conf_monitors : list monitor_spec;
  conf_loggers : list logger_spec
}.

(** *** Objects *)
Record listener_obj : Type := mk_listener {
  listener_of : py_class;
  listener_args : list PyVal.t
}.

Record monitor_obj : Type := mk_monitor {
  monitor_of : py_class;
  watched : option Popen.t;          (* the process handle it was built with *)
  monitor_args : list PyVal.t;
  listeners : list listener_obj;
  daemon : bool;
  starts : nat;                      (* how often start() has been called *)
  fault : option PyVal.t             (* the fault data, once a fault is seen *)
}.

Record logger_obj : Type := mk_logger {
  logger_of : py_class;
  logger_kwargs : list (string * PyVal.t);
  bucket : list PyVal.t;             (* records delivered so far *)
  faults : list (list PyVal.t)       (* the bucket at each add_fault() *)
}.

Record plugin_obj : Type := mk_plugin {
  plugin_of : py_class;
  plugin_conf : PyVal.t;
  plugin_process : option Popen.t;   (* plugin.process *)
  plugin_starts : nat
}.

Inductive level : Type := DEBUG | INFO | WARNING.

(** The calls that leave the orchestrator, in the order they are made. *)
Inductive event : Type :=
| Log (lvl : level) (msg : string)
| PluginInit
| PluginStart
| ProcessWait
| MonitorInit (m : nat)
| ListenerInit
| AddListener (m : nat)
| MonitorStart (m : nat)
| LoggerInit (l : nat)
| DetectedFault (m : nat)
| GetData (m : nat)
| AddToBucket (l : nat) (record : PyVal.t)
| AddFault (l : nat).

(** The [Quokka] object with the objects it refers to.  [monitors] and
    [loggers] hold references: one monitor object can be listed twice. *)
Record state : Type := mk {
  conf : config;                      (* self.conf *)
  monitors : list nat;                (* self.monitors *)
  loggers : list nat;                 (* self.loggers *)
  plugin : option plugin_obj;         (* self.plugin *)
  monitor_objs : gmap nat monitor_obj;
  logger_objs : gmap nat logger_obj;
  next_id : nat;                      (* the next fresh object reference *)
  clock : Q;
  calls : list event
}.

(** [Quokka(conf)] *)
Definition init (c : config) : state := mk c [] [] None ∅ ∅ 0 0%Q [].

Definition set_monitors (x : list nat) (s : state) : state :=
  mk (conf s) x (loggers s) (plugin s) (monitor_objs s) (logger_objs s) (next_id s) (clock s) (calls s).
Definition set_loggers (x : list nat) (s : state) : state :=
  mk (conf s) (monitors s) x (plugin s) (monitor_objs s) (logger_objs s) (next_id s) (clock s) (calls s).
Definition set_plugin (x : option plugin_obj) (s : state) : state :=
  mk (conf s) (monitors s) (loggers s) x (monitor_objs s) (logger_objs s) (next_id s) (clock s) (calls s).
Definition set_monitor_objs (x : gmap nat monitor_obj) (s : state) : state :=
  mk (conf s) (monitors s) (loggers s) (plugin s) x (logger_objs s) (next_id s) (clock s) (calls s).
Definition set_logger_objs (x : gmap nat logger_obj) (s : state) : state :=
  mk (conf s) (monitors s) (loggers s) (plugin s) (monitor_objs s) x (next_id s) (clock s) (calls s).
Definition set_next_id (x : nat) (s : state) : state :=
  mk (conf s) (monitors s) (loggers s) (plugin s) (monitor_objs s) (logger_objs s) x (clock s) (calls s).
Definition set_clock (x : Q) (s : state) : state :=
  mk (conf s) (monitors s) (loggers s) (plugin s) (monitor_objs s) (logger_objs s) (next_id s) x (calls s).
Definition set_calls (x : list event) (s : state) : state :=
  mk (conf s) (monitors s) (loggers s) (plugin s) (monitor_objs s) (logger_objs s) (next_id s) (clock s) x.

Definition emit (ev : event) : M state unit :=
  modify (fun s => set_calls (calls s ++ [ev]) s).

Definition logging (lvl : level) (msg : string) : M state unit := emit (Log lvl msg).

(** A fresh object reference. *)
Definition allocate : M state nat :=
  fun s => Returns (next_id s) (set_next_id (S (next_id s)) s).

(** *** Monitor and logger objects

    The monitor, listener and logger classes live in [core.monitors],
    [core.listeners] and [core.loggers], not in [quokka.py]; their methods
    follow the contracts the specification gives for them. *)

Definition with_listener (l : listener_obj) (m : monitor_obj) : monitor_obj :=
  mk_monitor (monitor_of m) (watched m) (monitor_args m) (listeners m ++ [l])
    (daemon m) (starts m) (fault m).
Definition with_daemon (b : bool) (m : monitor_obj) : monitor_obj :=
  mk_monitor (monitor_of m) (watched m) (monitor_args m) (listeners m) b (starts m) (fault m).
Definition with_start (m : monitor_obj) : monitor_obj :=
  mk_monitor (monitor_of m) (watched m) (monitor_args m) (listeners m) (daemon m)
    (S (starts m)) (fault m).
Definition with_record (d : PyVal.t) (l : logger_obj) : logger_obj :=
  mk_logger (logger_of l) (logger_kwargs l) (bucket l ++ [d]) (faults l).
Definition with_commit (l : logger_obj) : logger_obj :=
  mk_logger (logger_of l) (logger_kwargs l) (bucket l) (faults l ++ [bucket l]).

Definition update_monitor (r : nat) (f : monitor_obj -> monitor_obj) : M state unit :=
  modify (fun s => set_monitor_objs (alter f r (monitor_objs s)) s).
Definition update_logger (r : nat) (f : logger_obj -> logger_obj) : M state unit :=
  modify (fun s => set_logger_objs (alter f r (logger_objs s)) s).

(** Modelled from the spec: the monitor classes of [core.monitors] are
    missing.  [monitor.detected_fault()] answers with the monitor's boolean
    fault flag. *)
Definition detected_fault (r : nat) : M state bool :=
  emit (DetectedFault r) ;;
  do s <- get;
  ret (match monitor_objs s !! r with
       | Some m => bool_decide (is_Some (fault m))
       | None => false
       end).

(** Modelled from the spec: the monitor classes of [core.monitors] are
    missing.  [monitor.get_data()] hands out the monitor's fault record. *)
Definition get_data (r : nat) : M state PyVal.t :=
  emit (GetData r) ;;
  do s <- get;
  ret (match monitor_objs s !! r with
       | Some m => default PNone (fault m)
       | None => PNone
       end).

(** Modelled from the spec: the logger classes of [core.loggers] are
    missing.  [logger.add_to_bucket(record)] adds the record to the bucket
    that the logger accumulates over the run. *)
Definition add_to_bucket (r : nat) (record : PyVal.t) : M state unit :=
  emit (AddToBucket r record) ;; update_logger r (with_record record).

(** Modelled from the spec: the logger classes of [core.loggers] are
    missing.  [logger.add_fault()] is the explicit commit of the bucket. *)
Definition add_fault (r : nat) : M state unit :=
  emit (AddFault r) ;; update_logger r with_commit.

(** Modelled from the spec: the monitor classes of [core.monitors] are
    missing.  [monitor_instance.add_listener(listener_instance)] adds the
    listener to those the monitor holds. *)
Definition add_listener (r : nat) (l : listener_obj) : M state unit :=
  emit (AddListener r) ;; update_monitor r (with_listener l).

(** [monitor_instance.daemon = True] *)
Definition set_daemon (r : nat) (b : bool) : M state unit :=
  update_monitor r (with_daemon b).

(** Modelled from the spec: the monitor classes of [core.monitors] are
    missing.  [monitor_instance.start()] starts the background task; what a
    repeated start does is the class's own ([start_raises]). *)
Definition monitor_start (r : nat) : M state unit :=
  emit (MonitorStart r) ;;
  do s <- get;
  match monitor_objs s !! r with
  | Some m =>
      match start_raises (monitor_of m) (starts m) with
      | Some e => raise e
      | None => update_monitor r with_start
      end
  | None => ret tt
  end.

(** [def detect_faults(self)] *)
Definition detect_faults : M state unit :=
  do s <- get;
  for_each (monitors s) (fun monitor =>
    do detected <- detected_fault monitor;
    if detected : bool then
      do monitor_data <- get_data monitor;
      do s' <- get;
      for_each (loggers s') (fun logger => add_to_bucket logger monitor_data)
    else ret tt) ;;
  do s <- get;
  for_each (loggers s) (fun logger => add_fault logger).

(** *** [ModuleImporter] *)

(** [s.split(".")] *)
Fixpoint split_dot (s : string) : list string :=
  match s with
  | EmptyString => [""]
  | String c rest =>
      if Ascii.eqb c "."%char then "" :: split_dot rest
      else
        match split_dot rest with
        | x :: xs => String c x :: xs
        | [] => [String c ""]
        end
  end.

Record ModuleImporter : Type := mk_importer {
  class_name : string;   (* module_path.split(".")[-1] *)
  module_path : string   (* ".".join(module_path.split(".")[:-1]) *)
}.

(** [ModuleImporter(module_path)] *)
Definition new_ModuleImporter (path : string) : ModuleImporter :=
  let parts := split_dot path in
  mk_importer (List.last parts "") (PyVal.join "." (removelast parts)).

(** [prefix + name]: [name] is a string, or [None] when the key is absent. *)
Definition concat (prefix : string) (name : option string) : M state string :=
  match name with
  | Some x => ret (prefix +:+ x)
  | None => raise (TypeError "cannot concatenate 'str' and 'NoneType' objects")
  end.

(** Unpacking a star argument, or iterating: [None] cannot be unpacked. *)
Definition unpack {A} (kargs : option (list A)) : M state (list A) :=
  match kargs with
  | Some xs => ret xs
  | None => raise (TypeError "'NoneType' object is not iterable")
  end.

(** The local variable [monitor_instance] of [attach_monitors]: unbound
    until the first assignment. *)
Definition read_local (monitor_instance : option nat) : M state nat :=
  match monitor_instance with
  | Some r => ret r
  | None =>
      raise (UnboundLocalError
               "local variable 'monitor_instance' referenced before assignment")
  end.

Section Importable.

(** The modules the interpreter can import, by dotted path. *)
Variable importable : string -> module_lookup.

(** [def klass(self)] *)
Definition klass (self : ModuleImporter) : M state py_class :=
  logging DEBUG ("Importing '" +:+ class_name self +:+ "' from '" +:+ module_path self +:+ "'") ;;
  if String.eqb (module_path self) "" then raise (ValueError "Empty module name")
  else
    match importable (module_path self) with
    | NoModule => raise (ImportError ("No module named " +:+ module_path self))
    | ModuleRaises e => raise e
    | Loaded attrs =>
        match attrs (class_name self) with
        | Some c => ret c
        | None =>
            raise (AttributeError
                     ("'module' object has no attribute '" +:+ class_name self +:+ "'"))
        end
    end.

(** Calling a class: [cls(...)]. *)
Definition instantiate (cls : py_class) : M state unit :=
  match init_raises cls with
  | Some e => raise e
  | None => ret tt
  end.

(** [monitor_class.MONITOR_NAME] *)
Definition get_MONITOR_NAME (cls : py_class) : M state string :=
  match MONITOR_NAME cls with
  | Some n => ret n
  | None =>
      raise (AttributeError
               ("type object '" +:+ class_name_of cls +:+ "' has no attribute 'MONITOR_NAME'"))
  end.

(** [monitor_class(plugin.process, *monitor_kargs)] *)
Definition new_monitor (cls : py_class) (process : option Popen.t)
    (kargs : list PyVal.t) : M state nat :=
  instantiate cls ;;
  do r <- allocate;
  emit (MonitorInit r) ;;
  modify (fun s =>
    set_monitor_objs
      (<[r := mk_monitor cls process kargs [] false 0 (observes cls)]> (monitor_objs s)) s) ;;
  ret r.

(** [listener_class] called with the unpacked [listener_kargs] *)
Definition new_listener (cls : py_class) (kargs : list PyVal.t) : M state listener_obj :=
  instantiate cls ;;
  emit ListenerInit ;;
  ret (mk_listener cls kargs).

(** [logger_class] called with the unpacked keywords [logger_kargs] *)
Definition new_logger (cls : py_class) (kargs : list (string * PyVal.t)) : M state nat :=
  instantiate cls ;;
  do r <- allocate;
  emit (LoggerInit r) ;;
  modify (fun s => set_logger_objs (<[r := mk_logger cls kargs [] []]> (logger_objs s)) s) ;;
  ret r.

(** The body of [for listener in monitor_listeners]. *)
Definition attach_listener (monitor_instance : option nat) (listener : listener_spec)
    : M state unit :=
  let listener_class := listener_class listener in
  let listener_kargs := listener_kargs listener in
  logging INFO ("Attaching listener '" +:+ PyVal.str_opt listener_class +:+ "'") ;;
  do path <- concat "core.listeners." listener_class;
  do listener_class <- klass (new_ModuleImporter path);
  do kargs <- unpack listener_kargs;
  do listener_instance <- new_listener listener_class kargs;
  do r <- read_local monitor_instance;
  add_listener r listener_instance.

(** What the [if]/[elif]/[else] on [MONITOR_NAME] leaves behind. *)
Inductive dispatch : Type :=
| Proceed (monitor_instance : option nat)   (* falls through to the listeners *)
| Continue.                                 (* the [continue] statement *)

(** The body of [for monitor in monitors], given the binding of
    [monitor_instance] left by the earlier iterations; the value is the
    binding it leaves. *)
Definition attach_monitor (plugin : plugin_obj) (monitor : monitor_spec)
    (monitor_instance : option nat) : M state (option nat) :=
  let monitor_class := monitor_class monitor in
  let monitor_kargs := monitor_kargs monitor in
  let monitor_listeners := monitor_listeners monitor in
  logging INFO ("Attaching monitor '" +:+ PyVal.str_opt monitor_class +:+ "'") ;;
  do path <- concat "core.monitors." monitor_class;
  do monitor_class <- klass (new_ModuleImporter path);
  do name <- get_MONITOR_NAME monitor_class;
  do branch <-
    (if String.eqb name "ConsoleMonitor" then
       do kargs <- unpack monitor_kargs;
       do r <- new_monitor monitor_class (plugin_process plugin) kargs;
       ret (Proceed (Some r))
     else if String.eqb name "WebSocketMonitor" then
       ret (Proceed monitor_instance)
     else
       logging WARNING ("Unsupported monitor: " +:+ class_str monitor_class) ;;
       ret Continue);
  match branch with
  | Continue => ret monitor_instance
  | Proceed monitor_instance =>
      do specs <- unpack monitor_listeners;
      for_each specs (attach_listener monitor_instance) ;;
      do r <- read_local monitor_instance;
      set_daemon r true ;;
      monitor_start r ;;
      modify (fun s => set_monitors (monitors s ++ [r]) s) ;;
      ret monitor_instance
  end.

(** The [for] loop of [attach_monitors], from a given binding of
    [monitor_instance]. *)
Fixpoint attach_monitors_from (plugin : plugin_obj) (specs : list monitor_spec)
    (monitor_instance : option nat) : M state (option nat) :=
  match specs with
  | [] => ret monitor_instance
  | monitor :: rest =>
      do monitor_instance <- attach_monitor plugin monitor monitor_instance;
      attach_monitors_from plugin rest monitor_instance
  end.

(** [def attach_monitors(self, plugin, monitors)] *)
Definition attach_monitors (plugin : plugin_obj) (specs : list monitor_spec)
    : M state unit :=
  attach_monitors_from plugin specs None ;; ret tt.

(** [def attach_loggers(self, loggers)] *)
Definition attach_loggers (specs : list logger_spec) : M state unit :=
  for_each specs (fun logger =>
    let logger_class := logger_class logger in
    let logger_kargs := logger_kargs logger in
    logging INFO ("Attaching logger '" +:+ PyVal.str_opt logger_class +:+ "'") ;;
    do path <- concat "core.loggers." logger_class;
    do logger_class <- klass (new_ModuleImporter path);
    do kargs <- unpack logger_kargs;
    do logger <- new_logger logger_class kargs;
    modify (fun s => set_loggers (loggers s ++ [logger]) s)).

(** [self.plugin], which [run_plugin] has just assigned. *)
Definition the_plugin : M state plugin_obj :=
  fun s =>
    match plugin s with
    | Some p => Returns p s
    | None => Raises (AttributeError "'NoneType' object has no attribute 'start'") s
    end.

(** Modelled from the spec: the plugin classes of [core.plugins] are
    missing.  [self.plugin.start()] may fail, and otherwise leaves the
    spawned process in [plugin.process]. *)
Definition plugin_start : M state unit :=
  do p <- the_plugin;
  emit PluginStart ;;
  match start_raises (plugin_of p) (plugin_starts p) with
  | Some e => raise e
  | None =>
      modify (set_plugin
                (Some (mk_plugin (plugin_of p) (plugin_conf p) (spawns (plugin_of p))
                         (S (plugin_starts p)))))
  end.

(** [self.plugin.process.wait()]: the [Popen] object's own blocking wait. *)
Definition plugin_process_wait : M state Z :=
  do p <- the_plugin;
  match plugin_process p with
  | None => raise (AttributeError "'NoneType' object has no attribute 'wait'")
  | Some proc =>
      emit ProcessWait ;;
      do s <- get;
      match Popen.wait (clock s) proc with
      | Some (c, back, proc') =>
          modify (fun s =>
            set_clock back
              (set_plugin
                 (Some (mk_plugin (plugin_of p) (plugin_conf p) (Some proc')
                          (plugin_starts p))) s)) ;;
          ret c
      | None => fun s => Blocks s
      end
  end.

(** [self.plugin.process.returncode] *)
Definition plugin_returncode : M state (option Z) :=
  do p <- the_plugin;
  match plugin_process p with
  | None => raise (AttributeError "'NoneType' object has no attribute 'returncode'")
  | Some proc => ret (Popen.returncode proc)
  end.

(** [def run_plugin(self)] *)
Definition run_plugin : M state (option Z) :=
  do s <- get;
  do plugin_class <-
    try_except
      (klass (new_ModuleImporter ("core.plugins." +:+ plugin_class (conf s))))
      is_PluginException
      (fun msg => raise (QuokkaException ("Plugin initialization failed: " +:+ exn_str msg)));
  instantiate plugin_class ;;
  emit PluginInit ;;
  modify (set_plugin (Some (mk_plugin plugin_class (quokka (conf s)) None 0))) ;;
  try_except plugin_start is_PluginException
    (fun msg => raise (QuokkaException (exn_str msg))) ;;
  do p <- the_plugin;
  attach_monitors p (conf_monitors (conf s)) ;;
  attach_loggers (conf_loggers (conf s)) ;;
  plugin_process_wait ;;
  detect_faults ;;
  plugin_returncode.

End Importable.

End Quokka.

(** ** Vocabulary of the statements *)

Module Spec.

Import ExternalProcess.

(** The object after a [poll()] of the process [p] it holds. *)
Definition polled (s : state) (p : Popen.t) : state :=
  mk (Some (Popen.poll (clock s) p).2) (clock s) (trace s ++ [Poll]).

(** The process has been reaped with status [c]. *)
Definition exited_with (c : Z) (s : state) : Prop :=
  exists p, process s = Some p /\ Popen.returncode p = Some c.

(** [k] rounds of the polling loop that found the child alive. *)
Fixpoint poll_sleeps (k : nat) (i : Q) : list event :=
  match k with
  | O => []
  | S k' => Poll :: Sleep i :: poll_sleeps k' i
  end.

(** Rounds after which the deadline of [wait(t)] has passed for certain:
    one more than [t] divided by the polling interval, rounded up. *)
Definition poll_budget (t : Q) : nat :=
  S (Z.to_nat (Qceiling (t / interval_of t))).

(** The status a child that is still alive gets from [terminate()] followed
    by [kill()], when one of the two signals kills it. *)
Definition kill_status (p : Popen.t) : option Z :=
  match Popen.on_terminate p with
  | Popen.Dies c => Some c
  | Popen.Ignored =>
      match Popen.on_kill p with
      | Popen.Dies c => Some c
      | _ => None
      end
  | Popen.Fails _ => None
  end.

(** The status with which the child ends if nothing interferes: the one
    already reaped, or the one its own exit will give. *)
Definition eventual_status (p : Popen.t) : option Z :=
  match Popen.returncode p with
  | Some c => Some c
  | None =>
      match Popen.fate p with
      | Some (_, c) => Some c
      | None => None
      end
  end.

(** The calls [stop()] makes, by what the two signals do. *)
Definition stop_calls (process : option Popen.t) : list event :=
  match process with
  | None => []
  | Some p =>
      match Popen.on_terminate p with
      | Popen.Fails e => [Terminate; LogError e]
      | _ =>
          match Popen.on_kill p with
          | Popen.Fails e => [Terminate; Kill; LogError e]
          | _ => [Terminate; Kill]
          end
      end
  end.

(** The error [stop()] meets: the one [terminate()] raises or, when that
    call does not raise, the one [kill()] raises. *)
Definition stop_error (process : option Popen.t) : option exn :=
  match process with
  | None => None
  | Some p =>
      match Popen.on_terminate p with
      | Popen.Fails e => Some e
      | _ =>
          match Popen.on_kill p with
          | Popen.Fails e => Some e
          | _ => None
          end
      end
  end.

(** The signal calls [stop()] makes: [kill()] only when [terminate()] did
    not raise. *)
Definition signal_calls (process : option Popen.t) : list event :=
  match process with
  | None => []
  | Some p =>
      match Popen.on_terminate p with
      | Popen.Fails _ => [Terminate]
      | _ => [Terminate; Kill]
      end
  end.

(** Every error the two signals can raise is an [Exception]. *)
Definition signals_raise_exceptions (process : option Popen.t) : Prop :=
  forall p e, process = Some p ->
    Popen.on_terminate p = Popen.Fails e \/ Popen.on_kill p = Popen.Fails e ->
    is_Exception e = true.

End Spec.

Module EnvSpec.

Import Environ.

(** A name that [os.environ] accepts: not empty, without an equals sign and
    without the character 0. *)
Definition legal_name (k : string) : bool :=
  negb (String.eqb k "") && negb (PyVal.contains "=" k) && negb (PyVal.contains nul k).

(** A text that [os.environ] accepts as a value: without the character 0. *)
Definition legal_text (v : string) : bool := negb (PyVal.contains nul v).

(** The text of a context value that is a string or a mapping: a string as
    it is, a mapping serialized. *)
Definition text_of (v : PyVal.t) : option string :=
  match v with
  | PStr text => Some text
  | PDict items => Some (serialize items)
  | _ => None
  end.

(** The name and the text that one context item puts into [os.environ].
    [None] for an item that [os.environ] refuses: its name is not a legal
    name, or its value is neither a string nor a mapping, or the text of its
    value is not legal. *)
Definition entry (kv : PyVal.t * PyVal.t) : option (string * string) :=
  match kv with
  | (PStr k, v) =>
      match text_of v with
      | Some text => if legal_name k && legal_text text then Some (k, text) else None
      | None => None
      end
  | _ => None
  end.

(** The error with which [os.environ] refuses a name and a text that are
    not both legal: a [ValueError] for the character 0 in either and for an
    equals sign in the name, an [OSError] for the empty name. *)
Definition refusal (k text : string) : exn :=
  if PyVal.contains nul k || PyVal.contains nul text
  then ValueError "embedded null byte"
  else if PyVal.contains "=" k
  then ValueError "illegal environment variable name"
  else OSError "[Errno 22] Invalid argument".

(** The classes of the errors of [os.environ]: [isinstance(e, (TypeError,
    ValueError, OSError))]. *)
Definition is_refusal (e : exn) : bool :=
  match e with
  | TypeError _ | ValueError _ | OSError _ => true
  | _ => false
  end.

(** Assigning the entries one after the other. *)
Definition overlay (entries : list (string * string)) (env : gmap string string)
    : gmap string string :=
  fold_left (fun m kv => <[kv.1 := kv.2]> m) entries env.

(** A value that is neither a string nor a mapping. *)
Definition plain (v : PyVal.t) : Prop :=
  match v with
  | PStr _ | PDict _ => False
  | _ => True
  end.

(** Sample contexts and an inherited environment. *)
Definition nested : list (PyVal.t * PyVal.t) :=
  [(PStr "X", PDict [(PStr "a", PInt 1); (PStr "b", PInt 2)])].
Definition mixed : list (PyVal.t * PyVal.t) := nested ++ [(PStr "Y", PStr "q")].
Definition inherited : state := mk (<["HOME" := "/root"]> ∅).

End EnvSpec.

(** ** Sample processes *)

Module Scenario.

(** A child that never exits on its own and dies of either signal. *)
Definition hung : Popen.t := Popen.mk None (Popen.Dies (-15)) (Popen.Dies (-9)) None.

(** A child that exits with status 0 at time 2. *)
Definition brief : Popen.t := Popen.mk (Some (2%Q, 0%Z)) (Popen.Dies (-15)) (Popen.Dies (-9)) None.

(** A child that cannot be signalled. *)
Definition shielded : Popen.t :=
  Popen.mk None (Popen.Fails (OSError "Operation not permitted")) (Popen.Dies (-9)) None.

Definition started (p : Popen.t) : ExternalProcess.state := ExternalProcess.mk (Some p) 0%Q [].
Definition unstarted : ExternalProcess.state := ExternalProcess.mk None 0%Q [].

End Scenario.

(** ** Vocabulary of the statements about [Quokka] *)

Module QuokkaSpec.
Import Quokka.

(** The fault record a monitor object holds, if any. *)
Definition fault_of (objs : gmap nat monitor_obj) (m : nat) : option PyVal.t :=
  objs !! m ≫= fault.

(** The calls of the collection phase for one monitor. *)
Definition visit (objs : gmap nat monitor_obj) (ls : list nat) (m : nat) : list event :=
  DetectedFault m ::
  match fault_of objs m with
  | Some d => GetData m :: List.map (fun l => AddToBucket l d) ls
  | None => []
  end.

(** The fault records of the monitors [ms], in order. *)
Definition records (objs : gmap nat monitor_obj) (ms : list nat) : list PyVal.t :=
  omap (fault_of objs) ms.

Definition is_AddFault (ev : event) : Prop :=
  match ev with
  | AddFault _ => True
  | _ => False
  end.

(** A logger once the records [ds] have reached its bucket and it has
    committed. *)
Definition settled (ds : list PyVal.t) (l : logger_obj) : logger_obj :=
  mk_logger (logger_of l) (logger_kwargs l) (bucket l ++ ds) (faults l ++ [bucket l ++ ds]).

(** The logger objects after one record, after a list of records, and after
    the commits. *)
Definition deliver (d : PyVal.t) (ls : list nat) (h : gmap nat logger_obj)
    : gmap nat logger_obj :=
  foldl (fun h l => alter (with_record d) l h) h ls.

Definition collect (ls : list nat) (ds : list PyVal.t) (h : gmap nat logger_obj)
    : gmap nat logger_obj :=
  foldl (fun h d => deliver d ls h) h ds.

Definition commit (ls : list nat) (h : gmap nat logger_obj) : gmap nat logger_obj :=
  foldl (fun h l => alter with_commit l h) h ls.
(** A logger once the records [ds] have reached its bucket. *)
Definition with_records (ds : list PyVal.t) (l : logger_obj) : logger_obj :=
  mk_logger (logger_of l) (logger_kwargs l) (bucket l ++ ds) (faults l).

End QuokkaSpec.

Module ResolveSpec.
Import Quokka.
Section Resolution.

Variable importable : string -> module_lookup.

(** The class a dotted path resolves to, when the import succeeds. *)
Definition resolve (path : string) : option py_class :=
  let imp := new_ModuleImporter path in
  if String.eqb (module_path imp) "" then None
  else
    match importable (module_path imp) with
    | Loaded attrs => attrs (class_name imp)
    | _ => None
    end.

(** The debug record [klass()] writes for a dotted path. *)
Definition import_note (path : string) : event :=
  let imp := new_ModuleImporter path in
  Log DEBUG ("Importing '" +:+ class_name imp +:+ "' from '" +:+ module_path imp +:+ "'").

(** A monitor spec whose class resolves and declares a kind that is neither
    of the two recognized ones. *)
Definition unsupported (u : monitor_spec) (id : string) (cls : py_class) : Prop :=
  monitor_class u = Some id /\
  resolve ("core.monitors." +:+ id) = Some cls /\
  exists name, MONITOR_NAME cls = Some name /\
    name <> "ConsoleMonitor" /\ name <> "WebSocketMonitor".

(** What the loop reports for such a spec. *)
Definition skip_report (id : string) (cls : py_class) : list event :=
  [Log INFO ("Attaching monitor '" +:+ id +:+ "'");
   import_note ("core.monitors." +:+ id);
   Log WARNING ("Unsupported monitor: " +:+ class_str cls)].

(** A monitor spec whose class resolves and declares the kind
    [WebSocketMonitor]. *)
Definition websocket (w : monitor_spec) (id : string) (cls : py_class)
    (specs : list listener_spec) : Prop :=
  monitor_class w = Some id /\
  resolve ("core.monitors." +:+ id) = Some cls /\
  MONITOR_NAME cls = Some "WebSocketMonitor" /\
  monitor_listeners w = Some specs.

(** The listener a listener spec yields, when its class resolves and its
    construction succeeds. *)
Definition listener_for (l : listener_spec) : option listener_obj :=
  match listener_class l, listener_kargs l with
  | Some id, Some kargs =>
      match resolve ("core.listeners." +:+ id) with
      | Some cls =>
          match init_raises cls with
          | None => Some (mk_listener cls kargs)
          | Some _ => None
          end
      | None => None
      end
  | _, _ => None
  end.

(** How an import fails for a path that names no module, or a module
    without the class. *)
Inductive unresolved (path : string) : exn -> Prop :=
| unresolved_module :
    importable (module_path (new_ModuleImporter path)) = NoModule ->
    unresolved path
      (ImportError ("No module named " +:+ module_path (new_ModuleImporter path)))
| unresolved_class attrs :
    importable (module_path (new_ModuleImporter path)) = Loaded attrs ->
    attrs (class_name (new_ModuleImporter path)) = None ->
    unresolved path
      (AttributeError
         ("'module' object has no attribute '" +:+ class_name (new_ModuleImporter path) +:+ "'")).

End Resolution.

(** A monitor after [objs] have been added to its listeners, [daemon] has
    been set and [start()] has been called once more. *)
Definition restarted (objs : list listener_obj) (m : monitor_obj) : monitor_obj :=
  mk_monitor (monitor_of m) (watched m) (monitor_args m) (listeners m ++ objs) true
    (S (starts m)) (fault m).

(** A monitor after [objs] have been added to its listeners. *)
Definition with_listeners (objs : list listener_obj) (m : monitor_obj) : monitor_obj :=
  mk_monitor (monitor_of m) (watched m) (monitor_args m) (listeners m ++ objs)
    (daemon m) (starts m) (fault m).

(** The monitor objects after [objs] have been added to monitor [r]. *)
Definition add_all (r : nat) (objs : list listener_obj) (h : gmap nat monitor_obj) :=
  foldl (fun h o => alter (with_listener o) r h) h objs.

Definition unbound_local : exn :=
  UnboundLocalError "local variable 'monitor_instance' referenced before assignment".

End ResolveSpec.

(** ** A sample deployment *)

Module Deployment.
Import Quokka.

Definition restartable (n : nat) : option exn := None.

Definition child : Popen.t :=
  Popen.mk (Some (2%Q, 3%Z)) (Popen.Dies (-15)) (Popen.Dies (-9)) None.

Definition target : py_class :=
  mk_class "core.plugins.demo" "Target" None None restartable (Some child) None.
Definition console : py_class :=
  mk_class "core.monitors.console" "ConsoleMonitor" (Some "ConsoleMonitor") None restartable
    None (Some (PStr "crash")).
Definition websock : py_class :=
  mk_class "core.monitors.ws" "WebSocketMonitor" (Some "WebSocketMonitor") None restartable
    None None.
Definition bogus : py_class :=
  mk_class "core.monitors.bogus" "Bogus" (Some "bogus") None restartable None None.
Definition testcase : py_class :=
  mk_class "core.listeners.testcase" "TestcaseListener" None None restartable None None.
Definition filelogger : py_class :=
  mk_class "core.loggers.fs" "FileLogger" None None restartable None None.

Definition only (name : string) (c : py_class) : module_lookup :=
  Loaded (fun n => if String.eqb n name then Some c else None).

(** The importable modules of the sample deployment. *)
Definition modules (path : string) : module_lookup :=
  if String.eqb path "core.plugins.demo" then only "Target" target
  else if String.eqb path "core.monitors.console" then only "ConsoleMonitor" console
  else if String.eqb path "core.monitors.ws" then only "WebSocketMonitor" websock
  else if String.eqb path "core.monitors.bogus" then only "Bogus" bogus
  else if String.eqb path "core.listeners.testcase" then only "TestcaseListener" testcase
  else if String.eqb path "core.loggers.fs" then only "FileLogger" filelogger
  else NoModule.

Definition listener : listener_spec :=
  mk_listener_spec (Some "testcase.TestcaseListener") (Some []).
Definition monitor (id : string) : monitor_spec :=
  mk_monitor_spec (Some id) (Some []) (Some [listener]).
Definition logger : logger_spec := mk_logger_spec (Some "fs.FileLogger") (Some []).

Definition configuration (plugin_id : string) (ms : list monitor_spec) : config :=
  mk_config plugin_id PNone ms [logger].

(** The started plugin of the sample deployment. *)
Definition started_plugin : plugin_obj := mk_plugin target PNone (Some child) 1.

(** A run in which monitor 0 has seen a crash and logger 1 is attached. *)
Definition crashed : state :=
  mk (configuration "demo.Target" [monitor "console.ConsoleMonitor"]) [0%nat] [1%nat]
    (Some started_plugin)
    (<[0%nat := mk_monitor console (Some child) [] [] true 1 (Some (PStr "crash"))]> ∅)
    (<[1%nat := mk_logger filelogger [] [] []]> ∅)
    2 2%Q [].

End Deployment.

(** ** [Utilities] *)

Module Utilities.

(** [kv.split('=', 1)]: at most one split, at the first [=]. *)
Fixpoint split_once (s : string) : list string :=
  match s with
  | EmptyString => [""]
  | String c rest =>
      if Ascii.eqb c "="%char then [""; rest]
      else
        match split_once rest with
        | x :: xs => String c x :: xs
        | [] => [String c ""]
        end
  end.

(** [dict(...)] over a sequence of lists: each must have two elements, and a
    later element replaces an earlier one with the same key.  [i] is the
    position of the next element. *)
Fixpoint dict_of (i : nat) (elements : list (list string)) (d : gmap string string)
    : exn + gmap string string :=
  match elements with
  | [] => inr d
  | [k; v] :: rest => dict_of (S i) rest (<[k := v]> d)
  | other :: _ =>
      inl (ValueError ("dictionary update sequence element #" +:+ pretty i +:+
                       " has length " +:+ pretty (length other) +:+ "; 2 is required"))
  end.

(** [def pair_to_dict(args)], a static method *)
Definition pair_to_dict (args : list string) : exn + gmap string string :=
  dict_of 0 (List.map split_once args) ∅.

End Utilities.

(** ** [ExternalProcess.open] *)

Module Spawning.

(** The object with [os.environ] and the records of [logging.info]. *)
Record state : Type := mk {
  self : ExternalProcess.state;
  os_environ : gmap string string;
  info : list string
}.

Section Popen.

(** [subprocess.Popen(cmd, env=env, cwd=cwd, ...)]: the child it starts, or
    the error of the launch.  The stream arguments are not modelled. *)
Variable popen : list string -> gmap string string -> option string -> exn + Popen.t.

(** [env or os.environ]: [None] and the empty mapping are false. *)
Definition env_or_environ (env : option (gmap string string)) (s : state)
    : gmap string string :=
  match env with
  | Some e => if bool_decide (e = ∅) then os_environ s else e
  | None => os_environ s
  end.

(** [def open(self, cmd, env=None, cwd=None)] *)
Definition open (cmd : list string) (env : option (gmap string string))
    (cwd : option string) : M state Popen.t :=
  modify (fun s =>
    mk (self s) (os_environ s)
      (info s ++ ["Running command: " +:+ PyVal.repr (PList (List.map PStr cmd))])) ;;
  do s <- get;
  match popen cmd (env_or_environ env s) cwd with
  | inl e => raise e
  | inr p =>
      modify (fun s =>
        mk (ExternalProcess.mk (Some p) (ExternalProcess.clock (self s))
              (ExternalProcess.trace (self s)))
           (os_environ s) (info s)) ;;
      ret p
  end.

End Popen.

End Spawning.

(** ** [Quokka.stop_plugin] *)

Module Shutdown.
Import Quokka.

Section PluginStop.

(** Modelled from the spec: the plugin classes of [core.plugins] are
    missing.  [self.plugin.stop()] may fail; what it does is the plugin's
    own. *)
Variable plugin_stop : M state unit.

(** Modelled from the spec: the plugin classes of [core.plugins] are
    missing.  [self.plugin.is_running()] is the method a plugin inherits
    from [ExternalProcess]: false without a process or when a [poll()] finds
    it exited. *)
Definition plugin_is_running : M state bool :=
  do p <- the_plugin;
  match plugin_process p with
  | None => ret false
  | Some proc =>
      do s <- get;
      modify (set_plugin
                (Some (mk_plugin (plugin_of p) (plugin_conf p)
                         (Some (Popen.poll (clock s) proc).2) (plugin_starts p)))) ;;
      ret (match (Popen.poll (clock s) proc).1 with
           | Some _ => false
           | None => true
           end)
  end.

(** [def stop_plugin(self)] *)
Definition stop_plugin : M state unit :=
  do s <- get;
  match plugin s with
  | None => logging INFO "Plugin did not start."
  | Some _ =>
      do running <- plugin_is_running;
      if running : bool then
        try_except plugin_stop is_PluginException
          (fun msg => raise (QuokkaException (exn_str msg)))
      else
        do code <- plugin_returncode;
        match code with
        | Some c =>
            logging INFO ("Plugin process exited prior with exit code: " +:+ pretty c)
        | None => raise (TypeError "%d format: a number is required, not NoneType")
        end
  end.

End PluginStop.

(** The run once the plugin class [cls] has been resolved, constructed and
    started. *)
Definition plugin_after_start (cls : py_class) (s : state) : plugin_obj :=
  mk_plugin cls (quokka (conf s)) (spawns cls) 1.

Definition state_after_start (cls : py_class) (s : state) : state :=
  set_plugin (Some (plugin_after_start cls s))
    (set_calls
       (calls s ++
        [ResolveSpec.import_note ("core.plugins." +:+ plugin_class (conf s));
         PluginInit; PluginStart]) s).

(** The logger a logger spec yields, when its class resolves and its
    construction succeeds. *)
Definition logger_for (importable : string -> module_lookup) (l : logger_spec)
    : option logger_obj :=
  match logger_class l, logger_kargs l with
  | Some id, Some kargs =>
      match ResolveSpec.resolve importable ("core.loggers." +:+ id) with
      | Some cls =>
          match init_raises cls with
          | None => Some (mk_logger cls kargs [] [])
          | Some _ => None
          end
      | None => None
      end
  | _, _ => None
  end.

End Shutdown.

(** ** What a call guarantees *)

Module Hoare.

(** What [m] guarantees from a state that satisfies [P]: [Q] of the value
    and state when it returns, [E] of the state when it raises or blocks. *)
Definition triple {St A} (P : St -> Prop) (m : M St A) (Q : A -> St -> Prop)
    (E : St -> Prop) : Prop :=
  forall s, P s ->
    match m s with
    | Returns a s' => Q a s'
    | Raises _ s' => E s'
    | Blocks s' => E s'
    | Starved => True
    end.

(** [m] keeps [I], however it ends. *)
Definition keeps {St A} (I : St -> Prop) (m : M St A) : Prop :=
  triple I m (fun _ => I) I.

(** [m] reads the state at most: it returns or raises in the state it
    started from. *)
Definition reads {St A} (m : M St A) : Prop :=
  forall s, (exists a, m s = Returns a s) \/ (exists e, m s = Raises e s).

End Hoare.

(** ** Vocabulary of the statements about the attachment phases *)

Module Phases.
Import Quokka.

(** What attaching monitors may do to the run that was in state [s0]: the
    configuration, the plugin, the clock and the loggers stay, the recorded
    monitors and the calls grow at the end, references are only used up. *)
Definition monitors_phase (s0 s : state) : Prop :=
  conf s = conf s0 /\ plugin s = plugin s0 /\ clock s = clock s0 /\
  loggers s = loggers s0 /\ logger_objs s = logger_objs s0 /\
  monitors s0 `prefix_of` monitors s /\ calls s0 `prefix_of` calls s /\
  (next_id s0 <= next_id s)%nat.

(** The same for attaching loggers. *)
Definition loggers_phase (s0 s : state) : Prop :=
  conf s = conf s0 /\ plugin s = plugin s0 /\ clock s = clock s0 /\
  monitors s = monitors s0 /\ monitor_objs s = monitor_objs s0 /\
  loggers s0 `prefix_of` loggers s /\ calls s0 `prefix_of` calls s /\
  (next_id s0 <= next_id s)%nat.

(** The recorded loggers are distinct references that have been handed
    out. *)
Definition distinct_loggers (s : state) : Prop :=
  NoDup (loggers s) /\ forall l, l ∈ loggers s -> (l < next_id s)%nat.

End Phases.

(** ** More sample runs *)

Module Trials.
Import Quokka Deployment.

Definition refuses_start (n : nat) : option exn :=
  Some (PluginException "target binary not found").

(** A plugin whose start-up fails, one whose construction fails, and one
    whose child never exits. *)
Definition broken : py_class :=
  mk_class "core.plugins.broken" "Broken" None None refuses_start None None.
Definition unbuildable : py_class :=
  mk_class "core.plugins.unbuildable" "Unbuildable" None
    (Some (PluginException "bad configuration")) restartable None None.
Definition server : py_class :=
  mk_class "core.plugins.server" "Server" None None restartable (Some Scenario.hung) None.

(** The sample deployment with these plugins, and a plugin module that
    raises while it is imported. *)
Definition modules (path : string) : module_lookup :=
  if String.eqb path "core.plugins.broken" then only "Broken" broken
  else if String.eqb path "core.plugins.unbuildable" then only "Unbuildable" unbuildable
  else if String.eqb path "core.plugins.server" then only "Server" server
  else if String.eqb path "core.plugins.faulty"
       then ModuleRaises (PluginException "missing dependency")
  else Deployment.modules path.

Definition fresh (plugin_id : string) : state :=
  init (configuration plugin_id [monitor "console.ConsoleMonitor"]).

(** The state in which [m] returns from [s], or [s] itself. *)
Definition after {A} (m : M state A) (s : state) : state :=
  match m s with
  | Returns _ s' => s'
  | _ => s
  end.

(** The sample run of the plugin class [cls] once its monitors, and then
    its loggers, are attached. *)
Definition monitored (cls : py_class) (plugin_id : string) : state :=
  after (attach_monitors modules (Shutdown.plugin_after_start cls (fresh plugin_id))
           [monitor "console.ConsoleMonitor"])
    (Shutdown.state_after_start cls (fresh plugin_id)).

Definition logged (cls : py_class) (plugin_id : string) : state :=
  after (attach_loggers modules [logger]) (monitored cls plugin_id).

(** A child that exits by itself with status 7 at time 250.2. *)
Definition late : Popen.t :=
  Popen.mk (Some ((2502 # 10)%Q, 7%Z)) (Popen.Dies (-15)) (Popen.Dies (-9)) None.

(** A console monitor spec without a listeners entry. *)
Definition bare_console : monitor_spec :=
  mk_monitor_spec (Some "console.ConsoleMonitor") (Some []) None.

End Trials.

(** * Theorems *)

(** ** The monad *)

Lemma bind_returns {St A B} (m : M St A) (k : A -> M St B) s b s2 :
  bind m k s = Returns b s2 -> exists a s1, m s = Returns a s1 /\ k a s1 = Returns b s2.
Proof. unfold bind. destruct (m s); try discriminate. eauto. Qed.

Lemma for_each_app {St A} (xs ys : list A) (body : A -> M St unit) s :
  for_each (xs ++ ys) body s = bind (for_each xs body) (fun _ => for_each ys body) s.
Proof.
  revert s. induction xs as [|x xs IH]; intros s; simpl.
  - reflexivity.
  - unfold bind in *. destruct (body x s); auto.
Qed.

(** ** [ExternalProcess]: [poll], [wait], [stop], [is_running] *)

Section ExternalProcessFacts.

Import ExternalProcess Spec.

Ltac run :=
  unfold bind, ret, raise, get, modify, try_except, emit, set_process, set_clock,
    time_time, the_process in *;
  simpl in *.

Lemma process_poll_eq s p :
  process s = Some p ->
  process_poll s = Returns (Popen.poll (clock s) p).1 (polled s p).
Proof.
  intros H. unfold process_poll, polled. run. rewrite H. simpl.
  destruct (Popen.poll (clock s) p); reflexivity.
Qed.

Lemma poll_returncode now p c :
  (Popen.poll now p).1 = Some c -> Popen.returncode (Popen.poll now p).2 = Some c.
Proof.
  unfold Popen.poll. destruct (Popen.returncode p) eqn:E; simpl.
  - intros [= <-]. exact E.
  - destruct (Popen.exited_by now p); simpl; [intros [= <-]; reflexivity | discriminate].
Qed.

Lemma process_poll_exited s c s' :
  process_poll s = Returns (Some c) s' -> exited_with c s'.
Proof.
  destruct (process s) as [p|] eqn:E.
  - rewrite (process_poll_eq s p E). intros [= H <-].
    exists (Popen.poll (clock s) p).2. split; [reflexivity | by apply poll_returncode].
  - unfold process_poll. run. rewrite E. discriminate.
Qed.

Lemma process_wait_exited s c s' :
  process_wait s = Returns c s' -> exited_with c s' /\ trace s' = trace s ++ [Wait].
Proof.
  unfold process_wait, exited_with. run. destruct (process s) as [p|] eqn:E; [|discriminate].
  simpl. unfold Popen.wait. destruct (Popen.returncode p) eqn:R; simpl.
  - intros [= <- <-]. simpl. eauto.
  - destruct (Popen.fate p) as [[t st]|]; simpl; [|discriminate].
    intros [= <- <-]. simpl. eauto.
Qed.

Lemma wait_loop_exited fuel : forall e i s c s',
  wait_loop fuel e i s = Returns (Some c) s' -> exited_with c s'.
Proof.
  induction fuel as [|fuel IH]; intros e i s c s'; simpl; [discriminate|].
  intros H. apply bind_returns in H as (r & s1 & Hp & H).
  destruct r as [r|].
  - injection H as <- <-. by apply process_poll_exited in Hp.
  - apply bind_returns in H as (now & s2 & _ & H).
    destruct (Qle_bool e now); [discriminate|].
    apply bind_returns in H as (? & s3 & _ & H). by apply IH in H.
Qed.

Lemma wait_returns_exited fuel timeout s r s' :
  wait fuel timeout s = Returns r s' -> exists c, exited_with c s'.
Proof.
  assert (Hblock : forall s s', (process_wait ;; ret None) s = Returns r s' ->
                    exists c, exited_with c s').
  { intros s0 s0' H. apply bind_returns in H as (c & s1 & Hw & H).
    injection H as _ <-. exists c. by apply process_wait_exited in Hw as [? _]. }
  unfold wait. destruct timeout as [t|]; [|apply Hblock].
  destruct (truthy (Some t)); [|apply Hblock].
  intros H. apply bind_returns in H as (now & s1 & _ & H).
  apply bind_returns in H as (polled' & s2 & Hl & H).
  destruct polled' as [c|].
  - injection H as _ <-. exists c. by apply wait_loop_exited in Hl.
  - apply bind_returns in H as (? & s3 & _ & H). by apply Hblock in H.
Qed.

Lemma is_running_exited c s :
  exited_with c s ->
  is_running s = Returns false (mk (process s) (clock s) (trace s ++ [Poll])).
Proof.
  intros (p & E & R). unfold is_running. unfold bind at 1, get. rewrite E.
  unfold bind. rewrite (process_poll_eq s p E). unfold polled.
  unfold Popen.poll. rewrite R. simpl. reflexivity.
Qed.

Import Scenario.
Local Open Scope Q_scope.


Lemma exited_by_mono now later p :
  now <= later -> Popen.exited_by later p = None -> Popen.exited_by now p = None.
Proof.
  unfold Popen.exited_by. destruct (Popen.fate p) as [[t c]|]; [|done].
  destruct (Qle_bool t later) eqn:E; [discriminate|]. intros Hle _.
  destruct (Qle_bool t now) eqn:E2; [|done].
  apply Qle_bool_iff in E2.
  assert (Qle_bool t later = true) by (apply Qle_bool_iff; lra). congruence.
Qed.

Lemma poll_alive now p :
  Popen.returncode p = None -> Popen.exited_by now p = None -> Popen.poll now p = (None, p).
Proof. unfold Popen.poll. intros -> ->. reflexivity. Qed.

Lemma process_poll_alive s p :
  process s = Some p -> Popen.returncode p = None -> Popen.exited_by (clock s) p = None ->
  process_poll s = Returns None (mk (Some p) (clock s) (trace s ++ [Poll])).
Proof.
  intros Hp Hrc Ha. rewrite (process_poll_eq s p Hp). unfold polled.
  rewrite (poll_alive _ _ Hrc Ha). reflexivity.
Qed.

Lemma wait_loop_deadline (p : Popen.t) (e i : Q) :
  Popen.returncode p = None -> 0 < i -> Popen.exited_by (e + i) p = None ->
  forall (n : nat) (s : state) (fuel : nat),
    process s = Some p -> clock s <= e + i ->
    e - clock s <= inject_Z (Z.of_nat n) * i ->
    (n < fuel)%nat ->
    exists s' k,
      wait_loop fuel e i s = Returns None s' /\
      process s' = Some p /\ e <= clock s' /\ clock s' <= e + i /\
      trace s' = trace s ++ poll_sleeps k i ++ [Poll].
Proof.
  intros Hrc Hi Halive. induction n as [|n IH]; intros s fuel Hp Hc Hn Hf;
    (destruct fuel as [|fuel]; [lia|]); simpl.
  - unfold bind at 1.
    rewrite (process_poll_alive s p Hp Hrc (exited_by_mono _ _ _ Hc Halive)).
    unfold bind at 1, time_time. simpl.
    assert (Hle : Qle_bool e (clock s) = true).
    { apply Qle_bool_iff. change (inject_Z (Z.of_nat 0)) with 0 in Hn. lra. }
    rewrite Hle. eexists _, 0%nat. unfold ret. split; [reflexivity|]. simpl.
    apply Qle_bool_iff in Hle. split; [reflexivity|]. split; [exact Hle|]. split; [exact Hc|]. reflexivity. 
  - unfold bind at 1.
    rewrite (process_poll_alive s p Hp Hrc (exited_by_mono _ _ _ Hc Halive)).
    unfold bind at 1, time_time. simpl.
    destruct (Qle_bool e (clock s)) eqn:Hle.
    + eexists _, 0%nat. unfold ret. split; [reflexivity|]. simpl.
      apply Qle_bool_iff in Hle. split; [reflexivity|]. split; [exact Hle|]. split; [exact Hc|]. reflexivity.
    + assert (Hlt : clock s < e).
      { apply Qnot_le_lt. intros H. apply Qle_bool_iff in H. congruence. }
      unfold time_sleep.
      assert (H0 : Qle_bool 0 i = true) by (apply Qle_bool_iff; lra). rewrite H0.
      unfold bind, emit, modify, time_time, set_clock. simpl.
      set (s1 := mk (Some p) (Qred (clock s + i)) ((trace s ++ [Poll]) ++ [Sleep i])).
      assert (Hs1 : clock s1 == clock s + i) by (simpl; apply Qred_correct).
      destruct (IH s1 fuel) as (s' & k & Hr & Hp' & He & Hc' & Ht).
      * reflexivity.
      * rewrite Hs1. lra.
      * rewrite Hs1. rewrite Nat2Z.inj_succ, <- Z.add_1_r, inject_Z_plus in Hn.
        change (inject_Z 1) with 1 in Hn. lra.
      * lia.
      * exists s', (S k). rewrite Hr. split; [reflexivity|]. split; [exact Hp'|].
        split; [exact He|]. split; [exact Hc'|].
        rewrite Ht. simpl. rewrite <- !app_assoc. reflexivity.
Qed.

Lemma interval_pos t : 0 < t -> 0 < interval_of t.
Proof.
  intros H. unfold interval_of. apply Q.min_glb_lt; [|reflexivity].
  apply Qlt_shift_div_l; lra.
Qed.

Lemma poll_budget_enough t :
  0 < t -> t <= inject_Z (Z.of_nat (Z.to_nat (Qceiling (t / interval_of t)))) * interval_of t.
Proof.
  intros H. pose proof (interval_pos t H) as Hi.
  set (i := interval_of t) in *.
  pose proof (Qle_ceiling (t / i)) as Hc.
  assert (Hq : 0 <= t / i).
  { apply Qle_shift_div_l; lra. }
  assert (Hz : (0 <= Qceiling (t / i))%Z).
  { apply Qceiling_resp_le in Hq. exact Hq. }
  rewrite Z2Nat.id by exact Hz.
  assert (Ht : t == (t / i) * i) by (field; lra).
  rewrite Ht at 1. apply Qmult_le_compat_r; lra.
Qed.


Lemma process_signal_eq name ev eff s p :
  process s = Some p ->
  process_signal name ev eff s =
    match Popen.send_signal (eff p) (clock s) p with
    | inl e => Raises e (mk (Some p) (clock s) (trace s ++ [ev]))
    | inr p' => Returns tt (mk (Some p') (clock s) (trace s ++ [ev]))
    end.
Proof.
  intros Hp. unfold process_signal. run. rewrite Hp. simpl.
  destruct (Popen.send_signal (eff p) (clock s) p); simpl; rewrite ?Hp; reflexivity.
Qed.

Lemma send_signal_frame eff now p p' :
  Popen.send_signal eff now p = inr p' ->
  Popen.on_terminate p' = Popen.on_terminate p /\ Popen.on_kill p' = Popen.on_kill p /\
  Popen.returncode p' = Popen.returncode p.
Proof.
  unfold Popen.send_signal. destruct eff; [| |discriminate].
  - destruct (Popen.returncode p) eqn:R, (Popen.exited_by now p); intros [= <-];
      simpl; rewrite ?R; auto.
  - intros [= <-]. auto.
Qed.

Lemma send_signal_delivered eff now p :
  (forall e, eff <> Popen.Fails e) -> exists p', Popen.send_signal eff now p = inr p'.
Proof.
  intros H. unfold Popen.send_signal. destruct eff; [| |by destruct (H e)].
  - destruct (Popen.returncode p), (Popen.exited_by now p); eauto.
  - eauto.
Qed.

Lemma signal_then s p name ev eff (k : M state unit) :
  process s = Some p ->
  (process_signal name ev eff ;; k) s =
    match Popen.send_signal (eff p) (clock s) p with
    | inl e => Raises e (mk (Some p) (clock s) (trace s ++ [ev]))
    | inr p' => k (mk (Some p') (clock s) (trace s ++ [ev]))
    end.
Proof.
  intros Hp. unfold bind at 1. rewrite (process_signal_eq _ _ _ s p Hp).
  destruct (Popen.send_signal (eff p) (clock s) p); reflexivity.
Qed.

Lemma stop_outcome s :
  signals_raise_exceptions (process s) ->
  exists s', stop s = Returns tt s' /\ clock s' = clock s /\
    trace s' = trace s ++ stop_calls (process s).
Proof.
  intros Hex. unfold stop, stop_calls. unfold bind at 1, get.
  destruct (process s) as [p|] eqn:Hp; [|exists s; by rewrite app_nil_r].
  unfold try_except, process_terminate, process_kill.
  rewrite (signal_then s p _ _ _ _ Hp).
  destruct (Popen.send_signal (Popen.on_terminate p) (clock s) p) as [e|p1] eqn:H1.
  - assert (Ht : Popen.on_terminate p = Popen.Fails e).
    { unfold Popen.send_signal in H1. destruct (Popen.on_terminate p); try congruence.
      destruct (Popen.returncode p), (Popen.exited_by (clock s) p); discriminate. }
    rewrite Ht, (Hex p e eq_refl (or_introl Ht)). unfold emit, modify. simpl.
    eexists. split; [reflexivity|]. simpl. by rewrite <- app_assoc.
  - assert (Ht : forall e, Popen.on_terminate p <> Popen.Fails e).
    { intros e He. unfold Popen.send_signal in H1. rewrite He in H1. discriminate. }
    destruct (send_signal_frame _ _ _ _ H1) as (_ & Hk1 & _).
    erewrite process_signal_eq by reflexivity. simpl. rewrite Hk1.
    destruct (Popen.send_signal (Popen.on_kill p) (clock s) p1) as [e|p2] eqn:H2.
    + assert (Hk : Popen.on_kill p = Popen.Fails e).
      { unfold Popen.send_signal in H2. destruct (Popen.on_kill p); try congruence.
        destruct (Popen.returncode p1), (Popen.exited_by (clock s) p1); discriminate. }
      rewrite Hk, (Hex p e eq_refl (or_intror Hk)). unfold emit, modify. simpl.
      eexists. split; [reflexivity|]. simpl.
      destruct (Popen.on_terminate p); [| |by destruct (Ht e0)]; by rewrite <- !app_assoc.
    + assert (Hk : forall e, Popen.on_kill p <> Popen.Fails e).
      { intros e He. unfold Popen.send_signal in H2. rewrite He in H2. discriminate. }
      eexists. split; [reflexivity|]. simpl.
      destruct (Popen.on_terminate p); [| |by destruct (Ht e)];
        (destruct (Popen.on_kill p); [| |by destruct (Hk e)]); by rewrite <- !app_assoc.
Qed.

Lemma exited_by_now now c p :
  Popen.exited_by now (Popen.set_fate (Some (now, c)) p) = Some c.
Proof.
  unfold Popen.exited_by. simpl.
  assert (H : Qle_bool now now = true) by (apply Qle_bool_iff; lra). by rewrite H.
Qed.

Lemma stop_kills s p c :
  process s = Some p -> Popen.returncode p = None ->
  Popen.exited_by (clock s) p = None -> kill_status p = Some c ->
  signals_raise_exceptions (Some p) ->
  exists s' p',
    stop s = Returns tt s' /\ clock s' = clock s /\
    trace s' = trace s ++ stop_calls (Some p) /\
    process s' = Some p' /\ Popen.returncode p' = None /\
    Popen.fate p' = Some (clock s, c).
Proof.
  intros Hp Hrc Ha Hks Hex. unfold stop, stop_calls. unfold bind at 1, get. rewrite Hp.
  unfold try_except, process_terminate, process_kill.
  rewrite (signal_then s p _ _ _ _ Hp). unfold kill_status in Hks.
  unfold Popen.send_signal at 1.
  destruct (Popen.on_terminate p) as [c1| |e1] eqn:Ht; [| |discriminate].
  - injection Hks as ->. rewrite Hrc, Ha.
    erewrite process_signal_eq by reflexivity. simpl.
    unfold Popen.send_signal. simpl.
    destruct (Popen.on_kill p) as [c2| |e2] eqn:Hk.
    + rewrite Hrc, exited_by_now.
      eexists _, _. split; [reflexivity|]. simpl. rewrite <- app_assoc. done.
    + eexists _, _. split; [reflexivity|]. simpl. rewrite <- app_assoc. done.
    + rewrite (Hex p e2 eq_refl (or_intror Hk)). unfold emit, modify. simpl.
      eexists _, _. split; [reflexivity|]. simpl. rewrite <- !app_assoc. done.
  - erewrite process_signal_eq by reflexivity. simpl.
    destruct (Popen.on_kill p) as [c2| |e2] eqn:Hk; [|discriminate..].
    injection Hks as ->. unfold Popen.send_signal. rewrite Hrc, Ha.
    eexists _, _. split; [reflexivity|]. simpl. rewrite <- app_assoc. done.
Qed.

Lemma process_wait_fated s p t c :
  process s = Some p -> Popen.returncode p = None -> Popen.fate p = Some (t, c) ->
  process_wait s =
    Returns c (mk (Some (Popen.set_returncode c p)) (Qmax (clock s) t) (trace s ++ [Wait])).
Proof.
  intros Hp Hrc Hf. unfold process_wait. run. rewrite Hp. simpl.
  unfold Popen.wait. rewrite Hrc, Hf. reflexivity.
Qed.

(** The default timeout takes the polling path. *)
Lemma wait_default_is_timed : truthy default_timeout = true.
Proof. reflexivity. Qed.

Lemma truthy_pos t : 0 < t -> truthy (Some t) = true.
Proof.
  intros H. unfold truthy. destruct (Qeq_bool t 0) eqn:E; [|reflexivity].
  apply Qeq_bool_iff in E. lra.
Qed.

(** C1.  [wait] with a timeout [t > 0], on a process that has not exited
    by the deadline and that one of the two signals kills with status [c]:
    for every budget of at least [poll_budget t] rounds the call returns.  It
    polls, sleeping [interval_of t] between polls, until the deadline has
    passed, then makes the calls of [stop()] and one final blocking
    [wait()], after which the process has exited with status [c].  The value
    the call returns is [None], not [c]: the status of the final wait is
    dropped, where the claim has the call return it.  (A status seen by a
    poll before the deadline is returned:
    [wait_returns_status_of_early_exit].) *)
Theorem wait_deadline_drops_exit_status s p t c fuel :
  process s = Some p -> Popen.returncode p = None -> 0 < t ->
  Popen.exited_by (clock s + t + interval_of t) p = None ->
  kill_status p = Some c -> signals_raise_exceptions (Some p) ->
  (poll_budget t <= fuel)%nat ->
  exists s' k,
    wait fuel (Some t) s = Returns None s' /\
    exited_with c s' /\
    trace s' =
      trace s ++ poll_sleeps k (interval_of t) ++ [Poll] ++ stop_calls (Some p) ++ [Wait].
Proof.
  intros Hp Hrc Ht Halive Hks Hex Hfuel.
  pose proof (interval_pos t Ht) as Hi.
  destruct (wait_loop_deadline p (clock s + t) (interval_of t) Hrc Hi Halive
              (Z.to_nat (Qceiling (t / interval_of t))) s fuel Hp)
    as (s1 & k & Hloop & Hp1 & He1 & Hc1 & Ht1).
  { lra. }
  { pose proof (poll_budget_enough t Ht). lra. }
  { unfold poll_budget in Hfuel. lia. }
  destruct (stop_kills s1 p c Hp1 Hrc (exited_by_mono _ _ _ Hc1 Halive) Hks Hex)
    as (s2 & p2 & Hstop & Hc2 & Ht2 & Hp2 & Hrc2 & Hf2).
  pose proof (process_wait_fated s2 p2 _ c Hp2 Hrc2 Hf2) as Hw.
  eexists _, k. split; [|split].
  - unfold wait. rewrite (truthy_pos t Ht). unfold bind at 1, time_time.
    unfold bind at 1. rewrite Hloop. unfold bind at 1. rewrite Hstop.
    unfold bind at 1. rewrite Hw. reflexivity.
  - eexists. split; reflexivity.
  - simpl. rewrite Ht2, Ht1. rewrite <- !app_assoc. reflexivity.
Qed.

(** C2.  [wait] with a timeout that is [None] or zero, on a process that
    ends with status [c]: the call makes the one blocking [wait()] and comes
    back only once the process has exited with [c] (it had been reaped
    before, or its exit time has been reached by the clock).  The value the
    call returns is [None], not [c]: the status is dropped, where the claim
    has the call return it.  With the argument left out the timeout is 600
    ([wait_default_is_timed]), and the call takes the polling path of C1. *)
Theorem wait_untimed_drops_exit_status fuel timeout s p c :
  truthy timeout = false -> process s = Some p -> eventual_status p = Some c ->
  exists s',
    wait fuel timeout s = Returns None s' /\
    exited_with c s' /\
    trace s' = trace s ++ [Wait] /\
    (Popen.returncode p = Some c \/ Popen.exited_by (clock s') p = Some c).
Proof.
  intros Hf Hp Hev.
  assert (Hw : exists s', (process_wait ;; ret None) s = Returns (@None Z) s' /\
             exited_with c s' /\ trace s' = trace s ++ [Wait] /\
             (Popen.returncode p = Some c \/ Popen.exited_by (clock s') p = Some c)).
  { unfold eventual_status in Hev. destruct (Popen.returncode p) as [c0|] eqn:Hrc.
    - injection Hev as ->. unfold process_wait. run. rewrite Hp. simpl.
      unfold Popen.wait. rewrite Hrc. simpl.
      eexists. split; [reflexivity|]. simpl. split; [by exists p|]. auto.
    - destruct (Popen.fate p) as [[t c0]|] eqn:Hfate; [|discriminate]. injection Hev as ->.
      unfold bind. rewrite (process_wait_fated s p t c Hp Hrc Hfate).
      eexists. split; [reflexivity|]. simpl. split; [by eexists|]. split; [done|].
      right. unfold Popen.exited_by. rewrite Hfate.
      assert (H : Qle_bool t (Qmax (clock s) t) = true).
      { apply Qle_bool_iff. apply Q.le_max_r. }
      by rewrite H. }
  unfold wait. destruct timeout as [t|]; [|exact Hw]. rewrite Hf. exact Hw.
Qed.

(** C8, amended.  [stop()] leaves the clock alone.  With a process started
    it calls [terminate()] and, unless that call raised, [kill()] right after
    it.  An error raised by either call that is an [Exception] is caught and
    logged, nothing is called after it, and [stop()] returns; an error that
    is not an [Exception] is not caught: it leaves [stop()], and nothing is
    logged.  With no process started [stop()] calls nothing and returns. *)
Theorem stop_swallows_errors s :
  exists s',
    clock s' = clock s /\
    match stop_error (process s) with
    | Some e =>
        if is_Exception e
        then stop s = Returns tt s' /\ trace s' = trace s ++ stop_calls (process s)
        else stop s = Raises e s' /\ trace s' = trace s ++ signal_calls (process s)
    | None => stop s = Returns tt s' /\ trace s' = trace s ++ stop_calls (process s)
    end.
Proof.
  assert (Hstop : stop s =
            match process s with
            | Some _ =>
                try_except (process_terminate ;; process_kill) is_Exception
                  (fun e => emit (LogError e))
            | None => ret tt
            end s) by reflexivity.
  rewrite Hstop. clear Hstop. unfold stop_error, stop_calls, signal_calls.
  destruct (process s) as [p|] eqn:Hp.
  2: { exists s. split; [reflexivity|]. split; [reflexivity|]. by rewrite app_nil_r. }
  unfold try_except, process_terminate, process_kill.
  rewrite (signal_then s p _ _ _ _ Hp).
  destruct (Popen.send_signal (Popen.on_terminate p) (clock s) p) as [e|p1] eqn:H1.
  - assert (Ht : Popen.on_terminate p = Popen.Fails e).
    { unfold Popen.send_signal in H1. destruct (Popen.on_terminate p); try congruence.
      destruct (Popen.returncode p), (Popen.exited_by (clock s) p); discriminate. }
    rewrite Ht. destruct (is_Exception e); eexists; (split; [|split; [reflexivity|]]);
      try reflexivity; simpl; by rewrite <- ?app_assoc.
  - assert (Ht : forall e, Popen.on_terminate p <> Popen.Fails e).
    { intros e He. unfold Popen.send_signal in H1. rewrite He in H1. discriminate. }
    destruct (send_signal_frame _ _ _ _ H1) as (_ & Hk1 & _).
    erewrite process_signal_eq by reflexivity. simpl. rewrite Hk1.
    destruct (Popen.send_signal (Popen.on_kill p) (clock s) p1) as [e|p2] eqn:H2.
    + assert (Hk : Popen.on_kill p = Popen.Fails e).
      { unfold Popen.send_signal in H2. destruct (Popen.on_kill p); try congruence.
        destruct (Popen.returncode p1), (Popen.exited_by (clock s) p1); discriminate. }
      rewrite Hk.
      destruct (Popen.on_terminate p) as [c0| |e0]; [| |by destruct (Ht e0)];
        (destruct (is_Exception e); eexists; (split; [|split; [reflexivity|]]);
         try reflexivity; simpl; by rewrite <- ?app_assoc).
    + assert (Hk : forall e, Popen.on_kill p <> Popen.Fails e).
      { intros e He. unfold Popen.send_signal in H2. rewrite He in H2. discriminate. }
      destruct (Popen.on_terminate p) as [c0| |e0]; [| |by destruct (Ht e0)];
        (destruct (Popen.on_kill p) as [c1| |e1]; [| |by destruct (Hk e1)]);
        eexists; (split; [|split; [reflexivity|]]); try reflexivity; simpl;
        by rewrite <- ?app_assoc.
Qed.

(** C9.  [is_running()] is false on an object that was never started and
    on one whose process a non-blocking [poll()] finds exited, true
    otherwise; and in the state in which any call of [wait] returns, whatever
    the timeout and the path taken, [is_running()] is false. *)
Theorem is_running_false_after_wait (s0 : state) fuel timeout s r s' :
  wait fuel timeout s = Returns r s' ->
  is_running s0 =
    match process s0 with
    | None => Returns false s0
    | Some p =>
        Returns (match (Popen.poll (clock s0) p).1 with Some _ => false | None => true end)
          (polled s0 p)
    end /\
  is_running s' = Returns false (mk (process s') (clock s') (trace s' ++ [Poll])).
Proof.
  intros Hw. split.
  - unfold is_running. unfold bind at 1, get. destruct (process s0) as [p|] eqn:Hp; [|done].
    unfold bind. rewrite (process_poll_eq s0 p Hp). by destruct (Popen.poll (clock s0) p).1.
  - apply wait_returns_exited in Hw as [c Hc]. by eapply is_running_exited.
Qed.


(** C1 at a child that never exits by itself, with a timeout of one second. *)
Lemma wait_deadline_drops_exit_status_witness :
  exists s' k,
    wait 1001 (Some 1) (started hung) = Returns None s' /\
    exited_with (-15) s' /\
    trace s' = trace (started hung) ++ poll_sleeps k (interval_of 1) ++ [Poll] ++
               stop_calls (Some hung) ++ [Wait].
Proof.
  apply (wait_deadline_drops_exit_status (started hung) hung 1 (-15) 1001).
  - reflexivity.
  - reflexivity.
  - reflexivity.
  - reflexivity.
  - reflexivity.
  - intros p e [= <-] [H|H]; discriminate H.
  - vm_compute. apply le_n.
Defined.

(** The same call evaluated: it returns [None] and the child's status is -15. *)
Example wait_deadline_returns_None :
  match wait 1001 (Some 1) (started hung) with
  | Returns r s' => r = None /\ option_map Popen.returncode (process s') = Some (Some (-15)%Z)
  | _ => False
  end.
Proof. vm_compute. split; reflexivity. Qed.

(** C2 at a child that exits with status 0 at time 2, with a timeout of zero. *)
Lemma wait_untimed_drops_exit_status_witness :
  exists s',
    wait 0 (Some 0) (started brief) = Returns None s' /\
    exited_with 0 s' /\
    trace s' = trace (started brief) ++ [Wait] /\
    (Popen.returncode brief = Some 0%Z \/ Popen.exited_by (clock s') brief = Some 0%Z).
Proof.
  apply (wait_untimed_drops_exit_status 0 (Some 0) (started brief) brief 0);
    reflexivity.
Defined.

(** C8 at a child whose [terminate()] raises an [Exception]. *)
Lemma stop_swallows_errors_witness :
  exists s',
    clock s' = 0 /\
    stop (started shielded) = Returns tt s' /\
    trace s' = [Terminate; LogError (OSError "Operation not permitted")].
Proof. exact (stop_swallows_errors (started shielded)). Defined.

(** C8 as stated fails on an object that was never started: [stop()]
    attempts neither a termination nor a kill. *)
Lemma stop_unstarted_attempts_nothing :
  ~ (exists s' before after,
       stop unstarted = Returns tt s' /\ trace s' = before ++ Terminate :: Kill :: after).
Proof.
  intros (s' & before & after & H & Ht). injection H as <-.
  destruct before; discriminate Ht.
Qed.

(** [stop()] can fail: an interrupt that reaches [terminate()] is not an
    [Exception] and leaves [stop()]. *)
Example stop_lets_interrupt_through :
  stop (started (Popen.mk None (Popen.Fails KeyboardInterrupt) (Popen.Dies (-9)) None)) =
    Raises KeyboardInterrupt
      (mk (Some (Popen.mk None (Popen.Fails KeyboardInterrupt) (Popen.Dies (-9)) None)) 0
          [Terminate]).
Proof. reflexivity. Qed.

(** When [terminate()] raises, [kill()] is not attempted. *)
Lemma stop_failed_terminate_skips_kill :
  stop (started shielded) =
    Returns tt (mk (Some shielded) 0 [Terminate; LogError (OSError "Operation not permitted")]).
Proof. reflexivity. Qed.

(** C9 at an unstarted object and at the state a blocking [wait] leaves. *)
Lemma is_running_false_after_wait_witness :
  is_running unstarted = Returns false unstarted /\
  is_running (mk (Some (Popen.set_returncode 0 brief)) 2 [Wait]) =
    Returns false (mk (Some (Popen.set_returncode 0 brief)) 2 [Wait; Poll]).
Proof.
  exact (is_running_false_after_wait unstarted 0 None (started brief) None
           (mk (Some (Popen.set_returncode 0 brief)) 2 [Wait]) eq_refl).
Defined.

End ExternalProcessFacts.

(** ** [set_environ] *)

Section EnvironFacts.

Import Environ EnvSpec.

Lemma overlay_lookup_other entries : forall env k,
  k ∉ entries.*1 -> overlay entries env !! k = env !! k.
Proof.
  induction entries as [|[k0 v0] entries IH]; intros env k Hk; simpl; [done|].
  apply not_elem_of_cons in Hk as [Hne Hk]. simpl in Hne.
  unfold overlay in *. rewrite IH by done. by rewrite lookup_insert_ne.
Qed.

Lemma overlay_lookup_entry entries : forall env k v,
  NoDup entries.*1 -> (k, v) ∈ entries -> overlay entries env !! k = Some v.
Proof.
  induction entries as [|[k0 v0] entries IH]; intros env k v Hnd Hin; simpl.
  - by apply elem_of_nil in Hin.
  - simpl in Hnd. apply NoDup_cons in Hnd as [Hfresh Hnd].
    apply elem_of_cons in Hin as [[= -> ->]|Hin].
    + change (overlay entries (<[k0:=v0]> env) !! k0 = Some v0).
      rewrite overlay_lookup_other by done. by rewrite lookup_insert_eq.
    + by apply IH.
Qed.

Lemma overlay_agree entries : forall env1 env2 k,
  k ∈ entries.*1 -> overlay entries env1 !! k = overlay entries env2 !! k.
Proof.
  induction entries as [|[k0 v0] entries IH]; intros env1 env2 k Hin; simpl.
  - by apply elem_of_nil in Hin.
  - destruct (decide (k ∈ entries.*1)) as [Hl|Hl].
    + by apply IH.
    + apply elem_of_cons in Hin as [->|Hin]; [|done]. simpl.
      change (overlay entries (<[k0:=v0]> env1) !! k0 = overlay entries (<[k0:=v0]> env2) !! k0).
      rewrite !overlay_lookup_other by done. by rewrite !lookup_insert_eq.
Qed.

Lemma text_of_assigned val text : text_of val = Some text -> assigned val = PStr text.
Proof. destruct val; try discriminate; by intros [= <-]. Qed.

Lemma environ_setitem_legal k v s :
  legal_name k && legal_text v = true ->
  environ_setitem (PStr k) (PStr v) s = Returns tt (mk (<[k := v]> (os_environ s))).
Proof.
  unfold legal_name, legal_text, environ_setitem.
  destruct (String.eqb k ""), (PyVal.contains "=" k), (PyVal.contains nul k),
    (PyVal.contains nul v); try discriminate; reflexivity.
Qed.

Lemma environ_setitem_illegal k v s :
  legal_name k && legal_text v = false ->
  environ_setitem (PStr k) (PStr v) s = Raises (refusal k v) s.
Proof.
  unfold legal_name, legal_text, environ_setitem, refusal.
  destruct (String.eqb k ""), (PyVal.contains "=" k), (PyVal.contains nul k),
    (PyVal.contains nul v); try discriminate; reflexivity.
Qed.

Lemma refusal_class k v : is_refusal (refusal k v) = true.
Proof.
  unfold refusal.
  by destruct (PyVal.contains nul k || PyVal.contains nul v), (PyVal.contains "=" k).
Qed.

Lemma environ_setitem_entry kv k v s :
  entry kv = Some (k, v) ->
  environ_setitem kv.1 (assigned kv.2) s = Returns tt (mk (<[k := v]> (os_environ s))).
Proof.
  destruct kv as [key val]. unfold entry. cbn [fst snd].
  destruct key as [| | |k0| |]; try discriminate.
  destruct (text_of val) as [text|] eqn:Htext; [|discriminate].
  destruct (legal_name k0 && legal_text text) eqn:Hlegal; [|discriminate].
  intros [= <- <-]. rewrite (text_of_assigned val text Htext).
  by apply environ_setitem_legal.
Qed.

Lemma environ_setitem_refused kv :
  entry kv = None ->
  exists e,
    (forall s, environ_setitem kv.1 (assigned kv.2) s = Raises e s) /\
    is_refusal e = true.
Proof.
  destruct kv as [key val]. unfold entry. cbn [fst snd].
  destruct key as [| | |k0| |]; try (intros _; eexists; split; reflexivity).
  destruct (text_of val) as [text|] eqn:Htext.
  - rewrite (text_of_assigned val text Htext).
    destruct (legal_name k0 && legal_text text) eqn:Hlegal; [discriminate|]. intros _.
    exists (refusal k0 text). split; [|apply refusal_class].
    intros s. by apply environ_setitem_illegal.
  - intros _. destruct val; try discriminate Htext; eexists; split; reflexivity.
Qed.

Lemma assign_all items : forall entries s,
  mapM entry items = Some entries ->
  for_each items (fun kv => environ_setitem kv.1 (assigned kv.2)) s =
    Returns tt (mk (overlay entries (os_environ s))).
Proof.
  induction items as [|kv items IH]; intros entries s H.
  - injection H as <-. by destruct s.
  - apply mapM_Some in H. inversion H as [|? [k v] ? entries' He Hrest]; subst.
    simpl. unfold bind. rewrite (environ_setitem_entry kv k v s He).
    apply mapM_Some in Hrest. by rewrite (IH entries' _ Hrest).
Qed.

Lemma set_environ_items items entries s :
  mapM entry items = Some entries ->
  set_environ (Some items) s = Returns OsEnviron (mk (overlay entries (os_environ s))).
Proof.
  intros H. unfold set_environ, bind. by rewrite (assign_all items entries s H).
Qed.


(** C5, amended.  With no context [set_environ] returns [os.environ]
    itself and changes nothing.  With a context whose items [os.environ]
    accepts (each name a string that is not empty and holds no equals sign,
    each value a string or a mapping, names and texts without the character
    0), it returns [os.environ] itself, not a copy, after assigning the
    entries to it in order: a name outside the context keeps its inherited
    value, and a name of the context (names being distinct, as in a mapping)
    has the context's value. *)
Theorem set_environ_overlays_in_place items entries s :
  mapM entry items = Some entries ->
  set_environ None s = Returns OsEnviron s /\
  exists s',
    set_environ (Some items) s = Returns OsEnviron s' /\
    os_environ s' = overlay entries (os_environ s) /\
    (forall k, k ∉ entries.*1 -> os_environ s' !! k = os_environ s !! k) /\
    (NoDup entries.*1 -> forall k v, (k, v) ∈ entries -> os_environ s' !! k = Some v).
Proof.
  intros H. split; [reflexivity|]. eexists. split; [by apply set_environ_items|].
  simpl. split; [reflexivity|]. split.
  - intros k Hk. by apply overlay_lookup_other.
  - intros Hnd k v Hin. by apply overlay_lookup_entry.
Qed.

(** C5 at a context of a mapping value and a string value. *)
Lemma set_environ_overlays_in_place_witness :
  set_environ None inherited = Returns OsEnviron inherited /\
  exists s',
    set_environ (Some mixed) inherited = Returns OsEnviron s' /\
    os_environ s' = overlay [("X", "a=1,b=2"); ("Y", "q")] (os_environ inherited) /\
    (forall k, k ∉ [("X", "a=1,b=2"); ("Y", "q")].*1 ->
               os_environ s' !! k = os_environ inherited !! k) /\
    (NoDup [("X", "a=1,b=2"); ("Y", "q")].*1 ->
     forall k v, (k, v) ∈ [("X", "a=1,b=2"); ("Y", "q")] -> os_environ s' !! k = Some v).
Proof.
  apply (set_environ_overlays_in_place mixed [("X", "a=1,b=2"); ("Y", "q")] inherited).
  reflexivity.
Defined.

(** C5 as stated fails: after a call with the context X: 1 the process-wide
    environment is no longer the empty one it was. *)
Lemma set_environ_changes_os_environ :
  ~ (exists r s',
       set_environ (Some [(PStr "X", PStr "1")]) (mk ∅) = Returns r s' /\
       os_environ s' = ∅).
Proof.
  intros (r & s' & H & Hsame). injection H as _ <-. simpl in Hsame.
  apply (f_equal (fun m => m !! "X")) in Hsame.
  by rewrite lookup_insert_eq, lookup_empty in Hsame.
Qed.

(** C6, amended.  A context value that is a mapping is serialized as the
    [str] of each key, [=], the [repr] of its value, joined by commas in
    iteration order, so the mapping a: 1, b: 2 under X gives the text
    a=1,b=2.  No value is coerced: a string, and the serialization of a
    mapping, is stored as it is under a name that [os.environ] accepts (a
    name that is not empty and holds no equals sign, name and text without
    the character 0) and is refused otherwise, with a [ValueError] or, for
    the empty name, an [OSError]; a value that is neither a string nor a
    mapping is refused with a [TypeError].
    The values stored for the names of a context that [os.environ] accepts
    are the same whatever the environment the call starts from. *)
Theorem set_environ_serializes_mappings items entries s1 s2 :
  mapM entry items = Some entries ->
  (serialize [] = "" /\
   (forall k v, serialize [(k, v)] = PyVal.str k +:+ "=" +:+ PyVal.repr v) /\
   (forall k v kv rest,
      serialize ((k, v) :: kv :: rest) =
        (PyVal.str k +:+ "=" +:+ PyVal.repr v) +:+ "," +:+ serialize (kv :: rest))) /\
  (forall s, set_environ (Some nested) s =
               Returns OsEnviron (mk (<["X" := "a=1,b=2"]> (os_environ s)))) /\
  (forall k v text s,
     text_of v = Some text -> legal_name k && legal_text text = true ->
     set_environ (Some [(PStr k, v)]) s =
       Returns OsEnviron (mk (<[k := text]> (os_environ s)))) /\
  (forall k v text s,
     text_of v = Some text -> legal_name k && legal_text text = false ->
     set_environ (Some [(PStr k, v)]) s = Raises (refusal k text) s) /\
  (forall k v s, plain v ->
     set_environ (Some [(k, v)]) s =
       Raises (TypeError ("str expected, not " +:+
                          PyVal.type_name (match k with PStr _ => v | _ => k end))) s) /\
  exists s1' s2',
    set_environ (Some items) s1 = Returns OsEnviron s1' /\
    set_environ (Some items) s2 = Returns OsEnviron s2' /\
    forall k, k ∈ entries.*1 -> os_environ s1' !! k = os_environ s2' !! k.
Proof.
  intros H. repeat split; try reflexivity.
  - intros k v text s Htext Hlegal. unfold set_environ, for_each, bind. cbn [fst snd].
    rewrite (text_of_assigned v text Htext).
    by rewrite (environ_setitem_legal k text s Hlegal).
  - intros k v text s Htext Hlegal. unfold set_environ, for_each, bind. cbn [fst snd].
    rewrite (text_of_assigned v text Htext).
    by rewrite (environ_setitem_illegal k text s Hlegal).
  - intros k v s Hv. unfold set_environ, for_each, bind. cbn [fst snd].
    destruct k, v; try reflexivity; destruct Hv.
  - eexists _, _. rewrite !(set_environ_items items entries _ H).
    repeat split. intros k Hk. simpl. by apply overlay_agree.
Qed.

(** C6 at the same context, from two different environments. *)
Lemma set_environ_serializes_mappings_witness :
  exists s1' s2',
    set_environ (Some mixed) inherited = Returns OsEnviron s1' /\
    set_environ (Some mixed) (mk ∅) = Returns OsEnviron s2' /\
    forall k, k ∈ [("X", "a=1,b=2"); ("Y", "q")].*1 ->
              os_environ s1' !! k = os_environ s2' !! k.
Proof.
  apply (set_environ_serializes_mappings mixed [("X", "a=1,b=2"); ("Y", "q")]
           inherited (mk ∅)).
  reflexivity.
Defined.

(** C6 as stated fails: the integer 1 under X is not stored as the text 1;
    the call raises. *)
Lemma set_environ_does_not_coerce :
  ~ (exists r s',
       set_environ (Some [(PStr "X", PInt 1)]) (mk ∅) = Returns r s' /\
       os_environ s' !! "X" = Some "1").
Proof. intros (r & s' & H & _). discriminate H. Qed.

(** [str] and [repr] in a serialization: a text is quoted, a printable
    character above 127 (here the e with an acute accent, code point 233)
    stands for itself and the no-break space (160) is escaped. *)
Example serialize_quotes_text :
  serialize [(PStr "k", PStr (String (ascii_of_nat 233) "")); (PInt 1, PBool true);
             (PNone, PStr "a b")] =
    "k='" +:+ String (ascii_of_nat 233) "',1=True,None='a b'" /\
  PyVal.repr (PStr (String (ascii_of_nat 160) "")) =
    String PyVal.squote (String PyVal.backslash "xa0" +:+ String PyVal.squote "") /\
  PyVal.repr (PStr "it's") = String PyVal.dquote ("it's" +:+ String PyVal.dquote "").
Proof. repeat split. Qed.

(** What [os.environ] refuses: a name with an equals sign, the empty name,
    the character 0, and a value that is not a string. *)
Example set_environ_refusals :
  set_environ (Some [(PStr "B=C", PStr "2")]) inherited =
    Raises (ValueError "illegal environment variable name") inherited /\
  set_environ (Some [(PStr "", PStr "2")]) inherited =
    Raises (OSError "[Errno 22] Invalid argument") inherited /\
  set_environ (Some [(PStr "A", PStr (String nul "b"))]) inherited =
    Raises (ValueError "embedded null byte") inherited /\
  set_environ (Some [(PStr "A", PInt 1)]) inherited =
    Raises (TypeError "str expected, not int") inherited /\
  set_environ (Some [(PInt 1, PStr "b")]) inherited =
    Raises (TypeError "str expected, not int") inherited.
Proof. repeat split. Qed.

End EnvironFacts.

(** ** [detect_faults] *)

Section DetectFaults.

Import Quokka QuokkaSpec.

Lemma state_eta s : set_calls (calls s) (set_logger_objs (logger_objs s) s) = s.
Proof. by destruct s. Qed.

Lemma deliver_all d ls : forall s,
  for_each ls (fun logger => add_to_bucket logger d) s =
    Returns tt (set_calls (calls s ++ List.map (fun l => AddToBucket l d) ls)
                  (set_logger_objs (deliver d ls (logger_objs s)) s)).
Proof.
  induction ls as [|l ls IH]; intros s; simpl.
  - unfold ret. rewrite app_nil_r. by rewrite state_eta.
  - unfold bind at 1. unfold add_to_bucket, bind, emit, update_logger, modify. simpl.
    rewrite IH. simpl. unfold set_calls, set_logger_objs. simpl.
    by rewrite <- app_assoc.
Qed.

Lemma visit_one m s :
  (do detected <- detected_fault m;
   if detected : bool then
     do monitor_data <- get_data m;
     do s' <- get;
     for_each (loggers s') (fun logger => add_to_bucket logger monitor_data)
   else ret tt) s =
  Returns tt (set_calls (calls s ++ visit (monitor_objs s) (loggers s) m)
                (set_logger_objs
                   (collect (loggers s) (records (monitor_objs s) [m]) (logger_objs s)) s)).
Proof.
  unfold detected_fault, get_data, bind, emit, modify, get, ret, visit, collect, records,
    fault_of.
  simpl. destruct (monitor_objs s !! m) as [o|] eqn:Ho; simpl.
  - destruct (fault o) as [d|] eqn:Hf; simpl.
    + rewrite Ho, Hf. simpl. rewrite deliver_all. simpl.
      unfold set_calls, set_logger_objs. simpl. by rewrite <- !app_assoc.
    + unfold set_calls, set_logger_objs. simpl. by destruct s.
  - unfold set_calls, set_logger_objs. simpl. by destruct s.
Qed.

Lemma collect_cons objs ls m ms h :
  collect ls (records objs (m :: ms)) h =
    collect ls (records objs ms) (collect ls (records objs [m]) h).
Proof.
  unfold collect, records. simpl. by destruct (fault_of objs m).
Qed.

Lemma collect_all ms : forall s,
  for_each ms (fun monitor =>
    do detected <- detected_fault monitor;
    if detected : bool then
      do monitor_data <- get_data monitor;
      do s' <- get;
      for_each (loggers s') (fun logger => add_to_bucket logger monitor_data)
    else ret tt) s =
  Returns tt (set_calls (calls s ++ flat_map (visit (monitor_objs s) (loggers s)) ms)
                (set_logger_objs
                   (collect (loggers s) (records (monitor_objs s) ms) (logger_objs s)) s)).
Proof.
  induction ms as [|m ms IH]; intros s.
  - simpl. unfold ret, collect. simpl. rewrite app_nil_r. by rewrite state_eta.
  - cbn [for_each]. unfold bind at 1. rewrite visit_one. rewrite IH.
    rewrite (collect_cons _ _ m ms).
    unfold set_calls, set_logger_objs.
    cbn [conf monitors loggers plugin monitor_objs logger_objs next_id clock calls flat_map].
    by rewrite <- app_assoc.
Qed.

Lemma commit_all ls : forall s,
  for_each ls (fun logger => add_fault logger) s =
    Returns tt (set_calls (calls s ++ List.map AddFault ls)
                  (set_logger_objs (commit ls (logger_objs s)) s)).
Proof.
  induction ls as [|l ls IH]; intros s; simpl.
  - unfold ret. rewrite app_nil_r. by rewrite state_eta.
  - unfold bind at 1. unfold add_fault, bind, emit, update_logger, modify. simpl.
    rewrite IH. simpl. unfold set_calls, set_logger_objs. simpl.
    by rewrite <- app_assoc.
Qed.

Lemma detect_faults_eq s :
  detect_faults s =
    Returns tt
      (set_calls
         (calls s ++ flat_map (visit (monitor_objs s) (loggers s)) (monitors s) ++
          List.map AddFault (loggers s))
         (set_logger_objs
            (commit (loggers s)
               (collect (loggers s) (records (monitor_objs s) (monitors s)) (logger_objs s)))
            s)).
Proof.
  unfold detect_faults. unfold bind at 1, get. unfold bind at 1. rewrite collect_all.
  unfold bind at 1, get. rewrite commit_all.
  unfold set_calls, set_logger_objs.
  cbn [conf monitors loggers plugin monitor_objs logger_objs next_id clock calls].
  by rewrite <- app_assoc.
Qed.

Lemma alter_each_other {A} (f : A -> A) ls : forall (h : gmap nat A) l,
  l ∉ ls -> foldl (fun h l => alter f l h) h ls !! l = h !! l.
Proof.
  induction ls as [|l0 ls IH]; intros h l Hl; simpl; [done|].
  apply not_elem_of_cons in Hl as [Hne Hl]. rewrite IH by done.
  by rewrite lookup_alter_ne.
Qed.

Lemma alter_each_member {A} (f : A -> A) ls : forall (h : gmap nat A) l,
  NoDup ls -> l ∈ ls -> foldl (fun h l => alter f l h) h ls !! l = f <$> h !! l.
Proof.
  induction ls as [|l0 ls IH]; intros h l Hnd Hl; simpl.
  - by apply elem_of_nil in Hl.
  - apply NoDup_cons in Hnd as [Hfresh Hnd].
    apply elem_of_cons in Hl as [->|Hl].
    + rewrite alter_each_other by done. by rewrite lookup_alter_eq.
    + rewrite IH by done. rewrite lookup_alter_ne; [done|]. by intros ->.
Qed.


Lemma collect_lookup ls ds : forall h l,
  NoDup ls -> l ∈ ls -> collect ls ds h !! l = with_records ds <$> h !! l.
Proof.
  induction ds as [|d ds IH]; intros h l Hnd Hl; simpl.
  - destruct (h !! l) as [[? ? ? ?]|]; simpl; [|done].
    unfold with_records. simpl. by rewrite app_nil_r.
  - unfold collect in *. simpl. rewrite IH by done. unfold deliver.
    rewrite alter_each_member by done.
    destruct (h !! l) as [[? ? ? ?]|]; simpl; [|done].
    unfold with_records, with_record. simpl. by rewrite <- app_assoc.
Qed.

Lemma visit_no_commit objs ls m : Forall (fun ev => ~ is_AddFault ev) (visit objs ls m).
Proof.
  unfold visit. constructor; [by intros []|].
  destruct (fault_of objs m); [|constructor].
  constructor; [by intros []|]. induction ls; simpl; constructor; [by intros []|done].
Qed.

(** C3.  [detect_faults] returns, and the calls it makes are, for each
    recorded monitor in attachment order, [detected_fault()] and, when that
    is true, one [get_data()] followed by [add_to_bucket] of that record on
    every recorded logger in logger-attachment order; only then, one
    [add_fault()] per recorded logger in attachment order.  No [add_fault()]
    occurs among the calls of the collection phase.  The recorded monitors
    and loggers are unchanged, and every recorded logger (each being listed
    once) ends with all fault records in its bucket and one commit of that
    bucket. *)
Theorem detect_faults_collects_then_finalizes s :
  exists s',
    detect_faults s = Returns tt s' /\
    calls s' =
      calls s ++ flat_map (visit (monitor_objs s) (loggers s)) (monitors s) ++
      List.map AddFault (loggers s) /\
    Forall (fun ev => ~ is_AddFault ev)
      (flat_map (visit (monitor_objs s) (loggers s)) (monitors s)) /\
    monitors s' = monitors s /\ loggers s' = loggers s /\
    monitor_objs s' = monitor_objs s /\
    (NoDup (loggers s) ->
     forall l, l ∈ loggers s ->
       logger_objs s' !! l =
         settled (records (monitor_objs s) (monitors s)) <$> logger_objs s !! l).
Proof.
  eexists. split; [apply detect_faults_eq|]. simpl. split; [done|]. split.
  { induction (monitors s) as [|m ms IH]; [constructor|].
    cbn [flat_map]. apply Forall_app. split; [apply visit_no_commit | exact IH]. }
  repeat split. intros Hnd l Hl. unfold commit.
  rewrite alter_each_member by done. rewrite collect_lookup by done.
  by destruct (logger_objs s !! l).
Qed.

End DetectFaults.

(** ** [ModuleImporter], [attach_monitors] and [run_plugin] *)

Section Attach.

Import Quokka ResolveSpec.

Variable importable : string -> module_lookup.

Lemma klass_resolved path cls s :
  resolve importable path = Some cls ->
  klass importable (new_ModuleImporter path) s =
    Returns cls (set_calls (calls s ++ [import_note path]) s).
Proof.
  unfold resolve, klass, import_note, logging, emit, bind, modify. cbv zeta.
  destruct (String.eqb (module_path (new_ModuleImporter path)) ""); [discriminate|].
  destruct (importable (module_path (new_ModuleImporter path))); try discriminate.
  intros ->. reflexivity.
Qed.

Lemma klass_unresolved path e s :
  String.eqb (module_path (new_ModuleImporter path)) "" = false ->
  unresolved importable path e ->
  klass importable (new_ModuleImporter path) s =
    Raises e (set_calls (calls s ++ [import_note path]) s).
Proof.
  intros Hne H. unfold klass, import_note, logging, emit, bind, modify. cbv zeta.
  rewrite Hne. destruct H as [H|attrs H Ha]; rewrite H; [reflexivity|].
  rewrite Ha. reflexivity.
Qed.

Lemma attach_unsupported plugin u id cls inst s :
  unsupported importable u id cls ->
  attach_monitor importable plugin u inst s =
    Returns inst (set_calls (calls s ++ skip_report id cls) s).
Proof.
  intros (Hid & Hres & name & Hname & Hc & Hw).
  unfold attach_monitor. rewrite Hid. cbv zeta.
  unfold bind at 1. unfold logging, emit, modify. unfold bind at 1. unfold concat at 1, ret.
  unfold bind at 1. rewrite (klass_resolved _ _ _ Hres).
  unfold bind at 1. unfold get_MONITOR_NAME. rewrite Hname. unfold ret.
  apply String.eqb_neq in Hc, Hw. rewrite Hc, Hw.
  unfold bind, logging, emit, modify, skip_report, set_calls. simpl.
  by rewrite <- !app_assoc.
Qed.

Lemma attach_from_app plugin xs ys : forall inst s,
  attach_monitors_from importable plugin (xs ++ ys) inst s =
    bind (attach_monitors_from importable plugin xs inst)
      (fun inst' => attach_monitors_from importable plugin ys inst') s.
Proof.
  induction xs as [|x xs IH]; intros inst s; simpl; [reflexivity|].
  unfold bind in *. destruct (attach_monitor importable plugin x inst s); auto.
Qed.

(** C4, amended.  For a monitor spec whose class resolves and declares an
    unrecognized kind, the loop body returns: it writes three log records,
    the last one the warning, and changes nothing else, the binding of
    [monitor_instance] included.  [attach_monitors] on a list holding such a
    spec therefore does what it does on the specs before it, writes those
    records, and goes on with the specs after it. *)
Theorem unsupported_kind_is_skipped plugin before u after id cls s :
  unsupported importable u id cls ->
  (forall inst s0,
     attach_monitor importable plugin u inst s0 =
       Returns inst (set_calls (calls s0 ++ skip_report id cls) s0)) /\
  attach_monitors importable plugin (before ++ u :: after) s =
    (do inst <- attach_monitors_from importable plugin before None;
     modify (fun s1 => set_calls (calls s1 ++ skip_report id cls) s1) ;;
     attach_monitors_from importable plugin after inst ;;
     ret tt) s.
Proof.
  intros Hu. split; [intros; by apply attach_unsupported|].
  unfold attach_monitors. unfold bind at 1. rewrite attach_from_app.
  unfold bind, modify.
  destruct (attach_monitors_from importable plugin before None s); try reflexivity.
  simpl. unfold bind. by rewrite (attach_unsupported _ _ _ _ _ _ Hu).
Qed.

(** C7.  When the configured plugin identifier names no importable module,
    or a module without that class, [run_plugin] aborts with the import's
    own [ImportError] or [AttributeError], having written only the debug
    record: the error is not a [PluginException], so the handler that would
    wrap it into a [QuokkaException] with a descriptive message does not
    apply, where the claim has the error wrapped. *)
Theorem run_plugin_lets_import_errors_through s e :
  String.eqb (module_path (new_ModuleImporter ("core.plugins." +:+ plugin_class (conf s)))) ""
    = false ->
  unresolved importable ("core.plugins." +:+ plugin_class (conf s)) e ->
  run_plugin importable s =
    Raises e
      (set_calls (calls s ++ [import_note ("core.plugins." +:+ plugin_class (conf s))]) s) /\
  is_PluginException e = false /\
  (forall msg, e <> QuokkaException msg).
Proof.
  intros Hne Hun. split; [|by destruct Hun].
  unfold run_plugin. unfold bind at 1, get. unfold bind at 1, try_except.
  rewrite (klass_unresolved _ e s Hne Hun). by destruct Hun.
Qed.

(** X24.  A [PluginException] raised while the plugin module is imported leaves
    [run_plugin] as a [QuokkaException] whose message is the prefix Plugin
    initialization failed and the original message. *)
Lemma run_plugin_wraps_plugin_exception s msg :
  String.eqb (module_path (new_ModuleImporter ("core.plugins." +:+ plugin_class (conf s)))) ""
    = false ->
  importable (module_path (new_ModuleImporter ("core.plugins." +:+ plugin_class (conf s))))
    = ModuleRaises (PluginException msg) ->
  run_plugin importable s =
    Raises (QuokkaException ("Plugin initialization failed: " +:+ msg))
      (set_calls (calls s ++ [import_note ("core.plugins." +:+ plugin_class (conf s))]) s).
Proof.
  intros Hne Hm. unfold run_plugin. unfold bind at 1, get. unfold bind at 1, try_except.
  unfold klass, logging, emit, bind, modify. rewrite Hne, Hm. reflexivity.
Qed.

Lemma attach_listener_resolved inst l o s :
  listener_for importable l = Some o ->
  exists c,
    attach_listener importable inst l s =
      match inst with
      | Some r =>
          Returns tt (set_calls c
                        (set_monitor_objs (alter (with_listener o) r (monitor_objs s)) s))
      | None => Raises unbound_local (set_calls c s)
      end.
Proof.
  unfold listener_for. intros H.
  destruct (listener_class l) as [id|] eqn:Hid; [|discriminate].
  destruct (listener_kargs l) as [kargs|] eqn:Hk; [|discriminate].
  destruct (resolve importable ("core.listeners." +:+ id)) as [cls|] eqn:Hres; [|discriminate].
  destruct (init_raises cls) eqn:Hinit; [discriminate|]. injection H as <-.
  unfold attach_listener. rewrite Hid, Hk. cbv zeta.
  unfold bind at 1. unfold logging, emit, modify. unfold bind at 1. unfold concat at 1, ret.
  unfold bind at 1. rewrite (klass_resolved _ _ _ Hres).
  unfold bind at 1. unfold unpack at 1, ret.
  unfold bind at 1. unfold new_listener, instantiate. rewrite Hinit.
  unfold bind, ret, emit, modify, add_listener, update_monitor, read_local, raise.
  destruct inst as [r|]; eexists; reflexivity.
Qed.


Lemma attach_listeners_bound r specs objs :
  Forall2 (fun l o => listener_for importable l = Some o) specs objs ->
  forall s, exists c,
    for_each specs (attach_listener importable (Some r)) s =
      Returns tt (set_calls c (set_monitor_objs (add_all r objs (monitor_objs s)) s)).
Proof.
  induction 1 as [|l o specs objs Hl _ IH]; intros s.
  - exists (calls s). by destruct s.
  - destruct (attach_listener_resolved (Some r) l o s Hl) as [c Hc].
    simpl. unfold bind. rewrite Hc.
    destruct (IH (set_calls c (set_monitor_objs (alter (with_listener o) r (monitor_objs s)) s)))
      as [c' Hc'].
    rewrite Hc'. exists c'. reflexivity.
Qed.

Lemma attach_listeners_unbound specs objs (k : nat -> M state (option nat)) :
  Forall2 (fun l o => listener_for importable l = Some o) specs objs ->
  forall s, exists c,
    (for_each specs (attach_listener importable None) ;;
     do r <- read_local None; k r) s = Raises unbound_local (set_calls c s).
Proof.
  destruct 1 as [|l o specs objs Hl _]; intros s.
  - exists (calls s). by destruct s.
  - destruct (attach_listener_resolved None l o s Hl) as [c Hc].
    exists c. simpl. unfold bind. by rewrite Hc.
Qed.

Lemma add_all_lookup r objs : forall h m,
  h !! r = Some m -> add_all r objs h !! r = Some (with_listeners objs m).
Proof.
  induction objs as [|o objs IH]; intros h m Hm; simpl.
  - rewrite Hm. destruct m. unfold with_listeners. simpl. by rewrite app_nil_r.
  - unfold add_all in *. simpl. erewrite IH; [|by rewrite lookup_alter_eq, Hm].
    unfold with_listeners, with_listener. simpl. by rewrite <- app_assoc.
Qed.

Lemma add_all_other r objs : forall h r',
  r' <> r -> add_all r objs h !! r' = h !! r'.
Proof.
  induction objs as [|o objs IH]; intros h r' Hne; simpl; [done|].
  unfold add_all in *. simpl. rewrite IH by done. by rewrite lookup_alter_ne.
Qed.

Lemma attach_websocket plugin w id cls specs inst s :
  websocket importable w id cls specs ->
  exists c,
    attach_monitor importable plugin w inst s =
      (for_each specs (attach_listener importable inst) ;;
       do r <- read_local inst;
       set_daemon r true ;;
       monitor_start r ;;
       modify (fun s0 => set_monitors (monitors s0 ++ [r]) s0) ;;
       ret inst) (set_calls c s).
Proof.
  intros (Hid & Hres & Hname & Hls).
  unfold attach_monitor. rewrite Hid, Hls. cbv zeta.
  unfold bind at 1. unfold logging, emit, modify. unfold bind at 1. unfold concat at 1, ret.
  unfold bind at 1. rewrite (klass_resolved _ _ _ Hres).
  unfold bind at 1. unfold get_MONITOR_NAME. rewrite Hname.
  change ("WebSocketMonitor" =? "ConsoleMonitor")%string with false.
  change ("WebSocketMonitor" =? "WebSocketMonitor")%string with true.
  eexists. reflexivity.
Qed.

Lemma attach_console plugin c id cls kargs specs inst s :
  monitor_class c = Some id ->
  resolve importable ("core.monitors." +:+ id) = Some cls ->
  MONITOR_NAME cls = Some "ConsoleMonitor" ->
  monitor_kargs c = Some kargs -> monitor_listeners c = Some specs ->
  init_raises cls = None ->
  exists calls',
    attach_monitor importable plugin c inst s =
      (for_each specs (attach_listener importable (Some (next_id s))) ;;
       do r <- read_local (Some (next_id s));
       set_daemon r true ;;
       monitor_start r ;;
       modify (fun s0 => set_monitors (monitors s0 ++ [r]) s0) ;;
       ret (Some (next_id s)))
        (set_calls calls'
           (set_monitor_objs
              (<[next_id s := mk_monitor cls (plugin_process plugin) kargs [] false 0
                                (observes cls)]> (monitor_objs s))
              (set_next_id (S (next_id s)) s))).
Proof.
  intros Hid Hres Hname Hk Hls Hinit.
  unfold attach_monitor. rewrite Hid, Hk, Hls. cbv zeta.
  unfold bind at 1. unfold logging, emit, modify. unfold bind at 1. unfold concat at 1, ret.
  unfold bind at 1. rewrite (klass_resolved _ _ _ Hres).
  unfold bind at 1. unfold get_MONITOR_NAME. rewrite Hname.
  change ("ConsoleMonitor" =? "ConsoleMonitor")%string with true. cbv iota.
  unfold new_monitor, instantiate. rewrite Hinit.
  eexists. reflexivity.
Qed.

(** X18.  A console monitor spec whose listeners resolve and construct yields
    one new monitor: built with the plugin's process handle and the spec's
    arguments, holding the listeners in order, a daemon, started once,
    recorded once, and bound to [monitor_instance]. *)
Lemma attach_console_binds_new plugin c id cls kargs specs objs inst s :
  monitor_class c = Some id ->
  resolve importable ("core.monitors." +:+ id) = Some cls ->
  MONITOR_NAME cls = Some "ConsoleMonitor" ->
  monitor_kargs c = Some kargs -> monitor_listeners c = Some specs ->
  init_raises cls = None -> start_raises cls 0 = None ->
  mapM (listener_for importable) specs = Some objs ->
  exists s',
    attach_monitor importable plugin c inst s = Returns (Some (next_id s)) s' /\
    monitors s' = monitors s ++ [next_id s] /\
    next_id s' = S (next_id s) /\
    monitor_objs s' !! next_id s =
      Some (mk_monitor cls (plugin_process plugin) kargs objs true 1 (observes cls)).
Proof.
  intros Hid Hres Hname Hk Hls Hinit Hstart Hobjs. apply mapM_Some in Hobjs.
  destruct (attach_console plugin c id cls kargs specs inst s Hid Hres Hname Hk Hls Hinit)
    as [c0 ->].
  match goal with |- context [_ ?s0 = Returns _ _] =>
    destruct (attach_listeners_bound (next_id s) specs objs Hobjs s0) as [c1 Hc1]
  end.
  unfold bind at 1. rewrite Hc1.
  unfold bind at 1. unfold read_local, ret at 1.
  unfold bind at 1. unfold set_daemon, update_monitor, modify at 1.
  unfold bind at 1. unfold monitor_start. unfold bind at 1. unfold emit, modify at 1.
  unfold bind at 1. unfold get.
  cbn [conf monitors loggers Quokka.plugin monitor_objs logger_objs next_id clock calls
       set_calls set_monitor_objs set_next_id].
  rewrite lookup_alter_eq.
  erewrite add_all_lookup by apply lookup_insert_eq.
  cbn [fmap option_fmap option_map with_daemon with_listeners monitor_of starts].
  rewrite Hstart. unfold update_monitor, bind, modify, ret.
  eexists. split; [reflexivity|].
  cbn [conf monitors loggers Quokka.plugin monitor_objs logger_objs next_id clock calls
       set_calls set_monitor_objs set_monitors set_next_id].
  split; [done|]. split; [done|].
  rewrite !lookup_alter_eq. erewrite add_all_lookup by apply lookup_insert_eq.
  reflexivity.
Qed.
(** C10, amended.  For a monitor spec whose class resolves and declares the
    kind [WebSocketMonitor], and whose listeners resolve and construct, no
    monitor instance is constructed.  While [monitor_instance] is unbound,
    as it is for the first spec of a list, the loop body raises the
    unbound-variable error and records no monitor.  Once it is bound to an
    instance [r] whose [start()] does not raise, the body returns with the
    binding unchanged: [r] has the new listeners after its own, is a daemon,
    has been started once more and is appended to the recorded monitors
    again; no other monitor object changes and no object is created. *)
Theorem websocket_reuses_bound_instance plugin w id cls specs objs s :
  websocket importable w id cls specs ->
  mapM (listener_for importable) specs = Some objs ->
  (exists s',
     attach_monitor importable plugin w None s = Raises unbound_local s' /\
     monitors s' = monitors s /\ monitor_objs s' = monitor_objs s /\
     next_id s' = next_id s) /\
  (forall rest, exists s',
     attach_monitors importable plugin (w :: rest) s = Raises unbound_local s') /\
  (forall r m,
     monitor_objs s !! r = Some m -> start_raises (monitor_of m) (starts m) = None ->
     exists s',
       attach_monitor importable plugin w (Some r) s = Returns (Some r) s' /\
       monitors s' = monitors s ++ [r] /\
       monitor_objs s' !! r = Some (restarted objs m) /\
       (forall r', r' <> r -> monitor_objs s' !! r' = monitor_objs s !! r') /\
       next_id s' = next_id s).
Proof.
  intros Hw Hobjs. apply mapM_Some in Hobjs.
  assert (Hunbound : exists c, attach_monitor importable plugin w None s =
                                 Raises unbound_local (set_calls c s)).
  { destruct (attach_websocket plugin w id cls specs None s Hw) as [c0 ->].
    destruct (attach_listeners_unbound specs objs
                (fun r => set_daemon r true ;; monitor_start r ;;
                          modify (fun s0 => set_monitors (monitors s0 ++ [r]) s0) ;;
                          ret None) Hobjs (set_calls c0 s)) as [c Hc].
    exists c. exact Hc. }
  destruct Hunbound as [c Hc]. split; [|split].
  - exists (set_calls c s). by rewrite Hc.
  - intros rest. exists (set_calls c s). unfold attach_monitors. simpl.
    unfold bind. by rewrite Hc.
  - intros r m Hm Hstart.
    destruct (attach_websocket plugin w id cls specs (Some r) s Hw) as [c0 ->].
    destruct (attach_listeners_bound r specs objs Hobjs (set_calls c0 s))
      as [c1 Hc1].
    unfold bind at 1. rewrite Hc1.
    unfold bind at 1. unfold read_local, ret at 1.
    unfold bind at 1. unfold set_daemon, update_monitor, modify at 1.
    unfold bind at 1. unfold monitor_start. unfold bind at 1. unfold emit, modify at 1.
    unfold bind at 1. unfold get.
    cbn [conf monitors loggers Quokka.plugin monitor_objs logger_objs next_id clock calls
         set_calls set_monitor_objs].
    rewrite lookup_alter_eq, (add_all_lookup r objs _ m Hm). cbn [fmap option_fmap option_map].
    cbn [with_daemon with_listeners monitor_of starts]. rewrite Hstart.
    unfold update_monitor, bind, modify, ret.
    eexists. split; [reflexivity|].
    cbn [conf monitors loggers Quokka.plugin monitor_objs logger_objs next_id clock calls
         set_calls set_monitor_objs set_monitors].
    split; [done|]. split; [|split; [|done]].
    + rewrite !lookup_alter_eq, (add_all_lookup r objs _ m Hm). reflexivity.
    + intros r' Hne. rewrite !lookup_alter_ne by done. by apply add_all_other.
Qed.

End Attach.

(** ** The sample deployment *)

Section QuokkaWitnesses.

Import Quokka QuokkaSpec ResolveSpec Deployment.

(** C3 at a run with one monitor that saw a crash and one logger. *)
Lemma detect_faults_collects_then_finalizes_witness :
  exists s',
    detect_faults crashed = Returns tt s' /\
    calls s' =
      calls crashed ++
      flat_map (visit (monitor_objs crashed) (loggers crashed)) (monitors crashed) ++
      List.map AddFault (loggers crashed) /\
    Forall (fun ev => ~ is_AddFault ev)
      (flat_map (visit (monitor_objs crashed) (loggers crashed)) (monitors crashed)) /\
    monitors s' = monitors crashed /\ loggers s' = loggers crashed /\
    monitor_objs s' = monitor_objs crashed /\
    (NoDup (loggers crashed) ->
     forall l, l ∈ loggers crashed ->
       logger_objs s' !! l =
         settled (records (monitor_objs crashed) (monitors crashed)) <$>
           logger_objs crashed !! l).
Proof. exact (detect_faults_collects_then_finalizes crashed). Defined.

(** The same pass evaluated: one [add_to_bucket], then one [add_fault]. *)
Example detect_faults_one_fault_one_logger :
  exists s',
    detect_faults crashed = Returns tt s' /\
    calls s' = [DetectedFault 0; GetData 0; AddToBucket 1 (PStr "crash"); AddFault 1] /\
    logger_objs s' !! 1%nat =
      Some (mk_logger filelogger [] [PStr "crash"] [[PStr "crash"]]).
Proof. eexists. split; [reflexivity|]. split; reflexivity. Qed.

Lemma bogus_unsupported :
  unsupported modules (monitor "bogus.Bogus") "bogus.Bogus" bogus.
Proof.
  split; [reflexivity|]. split; [reflexivity|].
  exists "bogus". split; [reflexivity|]. split; discriminate.
Defined.

(** C4 at a spec of kind bogus between two console monitors. *)
Lemma unsupported_kind_is_skipped_witness :
  (forall inst s0,
     attach_monitor modules started_plugin (monitor "bogus.Bogus") inst s0 =
       Returns inst (set_calls (calls s0 ++ skip_report "bogus.Bogus" bogus) s0)) /\
  attach_monitors modules started_plugin
    ([monitor "console.ConsoleMonitor"] ++ monitor "bogus.Bogus" :: [monitor "console.ConsoleMonitor"])
    (init (configuration "demo.Target" [])) =
    (do inst <- attach_monitors_from modules started_plugin [monitor "console.ConsoleMonitor"] None;
     modify (fun s1 => set_calls (calls s1 ++ skip_report "bogus.Bogus" bogus) s1) ;;
     attach_monitors_from modules started_plugin [monitor "console.ConsoleMonitor"] inst ;;
     ret tt) (init (configuration "demo.Target" [])).
Proof.
  apply (unsupported_kind_is_skipped modules started_plugin [monitor "console.ConsoleMonitor"]
           (monitor "bogus.Bogus") [monitor "console.ConsoleMonitor"] "bogus.Bogus" bogus
           (init (configuration "demo.Target" []))).
  exact bogus_unsupported.
Defined.

(** C4 as stated fails for an identifier that does not resolve:
    [attach_monitors] does not return, and the spec after it is not reached. *)
Lemma unknown_monitor_identifier_aborts :
  ~ (exists s',
       attach_monitors modules started_plugin
         [monitor "nosuch.Monitor"; monitor "console.ConsoleMonitor"]
         (init (configuration "demo.Target" [])) = Returns tt s').
Proof. intros [s' H]. vm_compute in H. discriminate H. Qed.

(** What it does instead: the [ImportError] leaves [attach_monitors]. *)
Example unknown_monitor_identifier_raises :
  exists s',
    attach_monitors modules started_plugin
      [monitor "nosuch.Monitor"; monitor "console.ConsoleMonitor"]
      (init (configuration "demo.Target" [])) =
      Raises (ImportError "No module named core.monitors.nosuch") s' /\
    monitors s' = [].
Proof. eexists. split; reflexivity. Qed.

(** C7 at a plugin identifier that names no module. *)
Lemma run_plugin_lets_import_errors_through_witness :
  run_plugin modules (init (configuration "nosuch.Target" [])) =
    Raises (ImportError "No module named core.plugins.nosuch")
      (set_calls [Log DEBUG "Importing 'Target' from 'core.plugins.nosuch'"]
         (init (configuration "nosuch.Target" []))) /\
  is_PluginException (ImportError "No module named core.plugins.nosuch") = false /\
  (forall msg, ImportError "No module named core.plugins.nosuch" <> QuokkaException msg).
Proof.
  apply (run_plugin_lets_import_errors_through modules
           (init (configuration "nosuch.Target" []))
           (ImportError "No module named core.plugins.nosuch")).
  - reflexivity.
  - exact (unresolved_module modules "core.plugins.nosuch.Target" eq_refl).
Defined.

Lemma websocket_spec :
  websocket modules (monitor "ws.WebSocketMonitor") "ws.WebSocketMonitor" websock [listener].
Proof. repeat split. Defined.

(** C10 at a run that already holds monitor 0. *)
Lemma websocket_reuses_bound_instance_witness :
  (exists s',
     attach_monitor modules started_plugin (monitor "ws.WebSocketMonitor") None crashed =
       Raises unbound_local s' /\
     monitors s' = monitors crashed /\ monitor_objs s' = monitor_objs crashed /\
     next_id s' = next_id crashed) /\
  (forall rest, exists s',
     attach_monitors modules started_plugin (monitor "ws.WebSocketMonitor" :: rest) crashed =
       Raises unbound_local s') /\
  (forall r m,
     monitor_objs crashed !! r = Some m -> start_raises (monitor_of m) (starts m) = None ->
     exists s',
       attach_monitor modules started_plugin (monitor "ws.WebSocketMonitor") (Some r) crashed =
         Returns (Some r) s' /\
       monitors s' = monitors crashed ++ [r] /\
       monitor_objs s' !! r = Some (restarted [mk_listener testcase []] m) /\
       (forall r', r' <> r -> monitor_objs s' !! r' = monitor_objs crashed !! r') /\
       next_id s' = next_id crashed).
Proof.
  apply (websocket_reuses_bound_instance modules started_plugin
           (monitor "ws.WebSocketMonitor") "ws.WebSocketMonitor" websock [listener]
           [mk_listener testcase []] crashed).
  - exact websocket_spec.
  - reflexivity.
Defined.

(** C10 as stated fails for a spec that is not first but follows only a
    skipped spec: there is no earlier instance to reuse, and
    [attach_monitors] does not return. *)
Lemma websocket_after_unsupported_is_unbound :
  ~ (exists s',
       attach_monitors modules started_plugin
         [monitor "bogus.Bogus"; monitor "ws.WebSocketMonitor"]
         (init (configuration "demo.Target" [])) = Returns tt s').
Proof. intros [s' H]. vm_compute in H. discriminate H. Qed.

(** After a console monitor the same instance is recorded twice, with the
    listeners of both specs. *)
Example websocket_after_console_is_listed_twice :
  match
    attach_monitors modules started_plugin
      [monitor "console.ConsoleMonitor"; monitor "ws.WebSocketMonitor"]
      (init (configuration "demo.Target" []))
  with
  | Returns _ s' =>
      monitors s' = [0%nat; 0%nat] /\ next_id s' = 1%nat /\
      (listeners <$> monitor_objs s' !! 0%nat) =
        Some [mk_listener testcase []; mk_listener testcase []]
  | _ => False
  end.
Proof. vm_compute. repeat split. Qed.

End QuokkaWitnesses.

(** ** More on [wait] *)

Section WaitRounds.
Import ExternalProcess Spec Scenario.
Local Open Scope Q_scope.

Lemma exited_by_proper a b p : a == b -> Popen.exited_by a p = Popen.exited_by b p.
Proof.
  intros H. unfold Popen.exited_by. destruct (Popen.fate p) as [[t c]|]; [|done].
  destruct (Qle_bool t a) eqn:Ea, (Qle_bool t b) eqn:Eb; try done.
  - apply Qle_bool_iff in Ea.
    assert (Qle_bool t b = true) by (apply Qle_bool_iff; lra). congruence.
  - apply Qle_bool_iff in Eb.
    assert (Qle_bool t a = true) by (apply Qle_bool_iff; lra). congruence.
Qed.

Lemma round_succ a i j :
  a + inject_Z (Z.of_nat (S j)) * i == (a + i) + inject_Z (Z.of_nat j) * i.
Proof.
  rewrite Nat2Z.inj_succ, <- Z.add_1_r, inject_Z_plus. change (inject_Z 1) with 1. ring.
Qed.

(** One round of the polling loop. *)
Lemma wait_loop_round fuel e i s p :
  process s = Some p -> Popen.returncode p = None -> 0 < i ->
  wait_loop (S fuel) e i s =
    match Popen.exited_by (clock s) p with
    | Some c =>
        Returns (Some c) (mk (Some (Popen.set_returncode c p)) (clock s) (trace s ++ [Poll]))
    | None =>
        if Qle_bool e (clock s)
        then Returns None (mk (Some p) (clock s) (trace s ++ [Poll]))
        else wait_loop fuel e i
               (mk (Some p) (Qred (clock s + i)) ((trace s ++ [Poll]) ++ [Sleep i]))
    end.
Proof.
  intros Hp Hrc Hi. cbn [wait_loop]. unfold bind at 1.
  rewrite (process_poll_eq s p Hp). unfold polled, Popen.poll. rewrite Hrc.
  destruct (Popen.exited_by (clock s) p) as [c|]; cbn [fst snd]; [reflexivity|].
  unfold bind at 1, time_time. cbn [clock].
  destruct (Qle_bool e (clock s)); [reflexivity|].
  unfold time_sleep.
  assert (H0 : Qle_bool 0 i = true) by (apply Qle_bool_iff; lra). rewrite H0.
  reflexivity.
Qed.

(** The polling loop, whatever the child does: it ends after [k] rounds
    that found the child alive, in a poll that finds it exited or in one that
    finds it alive with the deadline passed. *)
Lemma wait_loop_rounds (p : Popen.t) (e i : Q) :
  Popen.returncode p = None -> 0 < i ->
  forall (n : nat) (s : state) (fuel : nat),
    process s = Some p ->
    e - clock s <= inject_Z (Z.of_nat n) * i ->
    (n < fuel)%nat ->
    exists s' k,
      trace s' = trace s ++ poll_sleeps k i ++ [Poll] /\
      clock s' == clock s + inject_Z (Z.of_nat k) * i /\
      (forall j, (j < k)%nat ->
         Popen.exited_by (clock s + inject_Z (Z.of_nat j) * i) p = None) /\
      match Popen.exited_by (clock s') p with
      | Some c => wait_loop fuel e i s = Returns (Some c) s' /\ exited_with c s'
      | None => wait_loop fuel e i s = Returns None s' /\ process s' = Some p /\ e <= clock s'
      end.
Proof.
  intros Hrc Hi. induction n as [|n IH]; intros s fuel Hp Hn Hf;
    (destruct fuel as [|fuel]; [lia|]); rewrite (wait_loop_round fuel e i s p Hp Hrc Hi);
    destruct (Popen.exited_by (clock s) p) as [c|] eqn:Hex.
  1, 3: exists (mk (Some (Popen.set_returncode c p)) (clock s) (trace s ++ [Poll])), 0%nat;
    cbn [clock trace poll_sleeps app]; rewrite Hex;
    (split; [reflexivity|]); (split; [change (inject_Z (Z.of_nat 0)) with 0; ring|]);
    (split; [intros j Hj; lia|]); (split; [reflexivity|by eexists]).
  - assert (Hle : Qle_bool e (clock s) = true).
    { apply Qle_bool_iff. change (inject_Z (Z.of_nat 0)) with 0 in Hn. lra. }
    rewrite Hle. exists (mk (Some p) (clock s) (trace s ++ [Poll])), 0%nat.
    cbn [clock trace poll_sleeps app process]. rewrite Hex.
    split; [reflexivity|]. split; [change (inject_Z (Z.of_nat 0)) with 0; ring|].
    split; [intros j Hj; lia|]. split; [reflexivity|]. split; [reflexivity|].
    by apply Qle_bool_iff.
  - destruct (Qle_bool e (clock s)) eqn:Hle.
    + exists (mk (Some p) (clock s) (trace s ++ [Poll])), 0%nat.
      cbn [clock trace poll_sleeps app process]. rewrite Hex.
      split; [reflexivity|]. split; [change (inject_Z (Z.of_nat 0)) with 0; ring|].
      split; [intros j Hj; lia|]. split; [reflexivity|]. split; [reflexivity|].
      by apply Qle_bool_iff.
    + assert (Hlt : clock s < e).
      { apply Qnot_le_lt. intros H. apply Qle_bool_iff in H. congruence. }
      set (s1 := mk (Some p) (Qred (clock s + i)) ((trace s ++ [Poll]) ++ [Sleep i])).
      assert (Hs1 : clock s1 == clock s + i) by (apply Qred_correct).
      destruct (IH s1 fuel) as (s' & k & Ht & Hc & Hearlier & Hend).
      * reflexivity.
      * rewrite Hs1. rewrite Nat2Z.inj_succ, <- Z.add_1_r, inject_Z_plus in Hn.
        change (inject_Z 1) with 1 in Hn. lra.
      * lia.
      * exists s', (S k). split; [|split; [|split]].
        -- rewrite Ht. cbn [trace s1 poll_sleeps app]. by rewrite <- !app_assoc.
        -- rewrite Hc, Hs1. symmetry. apply round_succ.
        -- intros [|j] Hj.
           ++ rewrite <- Hex. apply exited_by_proper.
              change (inject_Z (Z.of_nat 0)) with 0. ring.
           ++ rewrite <- (Hearlier j) by lia. apply exited_by_proper.
              rewrite Hs1. apply round_succ.
        -- exact Hend.
Qed.



(** X2.  [wait] with a timeout [t > 0] on a child that exits by itself at a
    time [T] not after the deadline: the polls are [interval_of t] apart, the
    polls before [T] find the child alive, and the first poll at or after [T]
    returns the child's status; [stop()] is not called. *)
Lemma wait_returns_status_of_early_exit s p t T c fuel :
  process s = Some p -> Popen.returncode p = None -> Popen.fate p = Some (T, c) ->
  0 < t -> T <= clock s + t -> (poll_budget t <= fuel)%nat ->
  exists s' k,
    wait fuel (Some t) s = Returns (Some c) s' /\
    exited_with c s' /\
    trace s' = trace s ++ poll_sleeps k (interval_of t) ++ [Poll] /\
    clock s' == clock s + inject_Z (Z.of_nat k) * interval_of t /\
    T <= clock s' /\
    (forall j, (j < k)%nat -> clock s + inject_Z (Z.of_nat j) * interval_of t < T).
Proof.
  intros Hp Hrc Hfate Ht HT Hfuel.
  pose proof (interval_pos t Ht) as Hi.
  assert (Hby : forall x, Popen.exited_by x p = if Qle_bool T x then Some c else None).
  { intros x. unfold Popen.exited_by. by rewrite Hfate. }
  destruct (wait_loop_rounds p (clock s + t) (interval_of t) Hrc Hi
              (Z.to_nat (Qceiling (t / interval_of t))) s fuel Hp)
    as (s1 & k & Ht1 & Hc1 & Hearlier & Hend).
  { pose proof (poll_budget_enough t Ht). lra. }
  { unfold poll_budget in Hfuel. lia. }
  rewrite Hby in Hend. destruct (Qle_bool T (clock s1)) eqn:E.
  - destruct Hend as [Hloop Hexited]. apply Qle_bool_iff in E.
    exists s1, k. split; [|split; [exact Hexited|split; [exact Ht1|split; [exact Hc1|split]]]].
    + unfold wait. rewrite (truthy_pos t Ht). unfold bind at 1, time_time.
      unfold bind at 1. by rewrite Hloop.
    + exact E.
    + intros j Hj. specialize (Hearlier j Hj). rewrite Hby in Hearlier.
      destruct (Qle_bool T (clock s + inject_Z (Z.of_nat j) * interval_of t)) eqn:Ej;
        [discriminate|].
      apply Qnot_le_lt. intros H. apply Qle_bool_iff in H. congruence.
  - destruct Hend as (_ & _ & He).
    assert (Qle_bool T (clock s1) = true) by (apply Qle_bool_iff; lra). congruence.
Qed.

End WaitRounds.

Section WaitEdges.
Import ExternalProcess Spec Scenario.
Local Open Scope Q_scope.

Lemma truthy_neg t : t < 0 -> truthy (Some t) = true.
Proof.
  intros H. unfold truthy. destruct (Qeq_bool t 0) eqn:E; [|reflexivity].
  apply Qeq_bool_iff in E. lra.
Qed.

(** X3.  [wait] with a negative timeout on a process that is still alive: one
    poll, no sleep, then the calls of [stop()] and the final [wait()], all at
    the clock of the call. *)
Lemma wait_negative_timeout_kills_at_once s p t c fuel :
  process s = Some p -> Popen.returncode p = None ->
  Popen.exited_by (clock s) p = None -> t < 0 ->
  kill_status p = Some c -> signals_raise_exceptions (Some p) ->
  exists s',
    wait (S fuel) (Some t) s = Returns None s' /\
    exited_with c s' /\
    trace s' = trace s ++ [Poll] ++ stop_calls (Some p) ++ [Wait] /\
    clock s' == clock s.
Proof.
  intros Hp Hrc Ha Ht Hks Hex.
  set (s1 := mk (Some p) (clock s) (trace s ++ [Poll])).
  destruct (stop_kills s1 p c eq_refl Hrc Ha Hks Hex)
    as (s2 & p2 & Hstop & Hc2 & Ht2 & Hp2 & Hrc2 & Hf2).
  pose proof (process_wait_fated s2 p2 _ c Hp2 Hrc2 Hf2) as Hw.
  eexists. split; [|split; [|split]].
  - unfold wait. rewrite (truthy_neg t Ht). unfold bind at 1, time_time.
    unfold bind at 1. simpl. unfold bind at 1.
    rewrite (process_poll_alive s p Hp Hrc Ha).
    unfold bind at 1, time_time. simpl.
    assert (Hle : Qle_bool (clock s + t) (clock s) = true) by (apply Qle_bool_iff; lra).
    rewrite Hle. unfold ret at 1. unfold bind at 1. fold s1. rewrite Hstop.
    unfold bind at 1. rewrite Hw. reflexivity.
  - eexists. split; reflexivity.
  - simpl. rewrite Ht2. simpl. by rewrite <- !app_assoc.
  - simpl. rewrite Hc2. simpl. apply Q.max_id.
Qed.

(** X4.  On an object that has never been started, [wait] raises an
    [AttributeError] for every timeout and changes nothing, while [stop()]
    returns and [is_running()] is false. *)
Lemma wait_unstarted_raises fuel timeout s :
  process s = None ->
  exists name,
    wait (S fuel) timeout s =
      Raises (AttributeError ("'NoneType' object has no attribute '" +:+ name +:+ "'")) s /\
    stop s = Returns tt s /\ is_running s = Returns false s.
Proof.
  intros Hp.
  assert (Hw : (process_wait ;; ret (@None Z)) s =
               Raises (AttributeError ("'NoneType' object has no attribute '" +:+ "wait" +:+ "'")) s).
  { unfold bind, process_wait, the_process. unfold bind. by rewrite Hp. }
  assert (Hrest : stop s = Returns tt s /\ is_running s = Returns false s).
  { unfold stop, is_running, bind, get. by rewrite Hp. }
  unfold wait. destruct timeout as [t|]; [|by exists "wait"].
  destruct (truthy (Some t)); [|by exists "wait"].
  exists "poll". split; [|exact Hrest].
  unfold bind at 1, time_time. unfold bind at 1. simpl. unfold bind at 1.
  unfold process_poll, the_process. unfold bind at 1. by rewrite Hp.
Qed.

(** X5.  [wait] with a timeout that is [None] or zero, on a process that never
    exits: the call blocks for ever in the one [wait()] and sends no signal. *)
Lemma wait_untimed_blocks_forever fuel timeout s p :
  truthy timeout = false -> process s = Some p -> eventual_status p = None ->
  wait fuel timeout s = Blocks (mk (Some p) (clock s) (trace s ++ [Wait])).
Proof.
  intros Hf Hp Hev.
  assert (Hw : (process_wait ;; ret (@None Z)) s =
               Blocks (mk (Some p) (clock s) (trace s ++ [Wait]))).
  { unfold eventual_status in Hev. revert Hev.
    destruct (Popen.returncode p) eqn:Hrc; [discriminate|].
    destruct (Popen.fate p) as [[? ?]|] eqn:Hfate; [discriminate|]. intros _.
    unfold bind, process_wait, the_process, emit, modify, time_time. unfold bind.
    rewrite Hp. simpl. unfold Popen.wait. rewrite Hrc, Hfate. simpl.
    by rewrite ?Hp. }
  unfold wait. destruct timeout as [t|]; [|exact Hw]. by rewrite Hf.
Qed.

Lemma stop_failed_terminate s p e :
  process s = Some p -> Popen.on_terminate p = Popen.Fails e -> is_Exception e = true ->
  stop s = Returns tt (mk (Some p) (clock s) (trace s ++ [Terminate; LogError e])).
Proof.
  intros Hp Ht He. unfold stop. unfold bind at 1, get. rewrite Hp.
  unfold try_except, process_terminate, process_kill.
  rewrite (signal_then s p _ _ _ _ Hp). unfold Popen.send_signal. rewrite Ht, He.
  unfold emit, modify. simpl. by rewrite <- app_assoc.
Qed.

(** X6.  [wait] with a timeout [t > 0] on a process that never exits and whose
    [terminate()] raises: the error is logged, [kill()] is never called, and
    the final [wait()] blocks for ever. *)
Lemma wait_blocks_when_terminate_fails s p t e fuel :
  process s = Some p -> Popen.returncode p = None -> Popen.fate p = None ->
  Popen.on_terminate p = Popen.Fails e -> is_Exception e = true ->
  0 < t -> (poll_budget t <= fuel)%nat ->
  exists s' k,
    wait fuel (Some t) s = Blocks s' /\
    trace s' =
      trace s ++ poll_sleeps k (interval_of t) ++ [Poll; Terminate; LogError e; Wait].
Proof.
  intros Hp Hrc Hfate Hterm He Ht Hfuel.
  pose proof (interval_pos t Ht) as Hi.
  assert (Halive : forall now, Popen.exited_by now p = None).
  { intros now. unfold Popen.exited_by. by rewrite Hfate. }
  destruct (wait_loop_deadline p (clock s + t) (interval_of t) Hrc Hi (Halive _)
              (Z.to_nat (Qceiling (t / interval_of t))) s fuel Hp)
    as (s1 & k & Hloop & Hp1 & He1 & Hc1 & Ht1).
  { lra. }
  { pose proof (poll_budget_enough t Ht). lra. }
  { unfold poll_budget in Hfuel. lia. }
  eexists _, k. split.
  - unfold wait. rewrite (truthy_pos t Ht). unfold bind at 1, time_time.
    unfold bind at 1. rewrite Hloop. unfold bind at 1.
    rewrite (stop_failed_terminate s1 p e Hp1 Hterm He).
    unfold bind at 1. unfold process_wait, the_process, emit, modify, time_time.
    unfold bind. simpl. unfold Popen.wait. rewrite Hrc, Hfate. reflexivity.
  - simpl. rewrite Ht1. by rewrite <- !app_assoc.
Qed.
End WaitEdges.

(** ** More on [set_environ] *)

Section EnvironEdges.
Import Environ EnvSpec.

(** X8.  When [os.environ] accepts the items of a context up to one that it
    refuses, [set_environ] raises the error of that item, a [TypeError], a
    [ValueError] or an [OSError], the one a context of that item alone
    raises, with the items before it assigned and no item after it
    assigned. *)
Lemma set_environ_keeps_earlier_items before bad after entries s :
  mapM entry before = Some entries -> entry bad = None ->
  exists e,
    set_environ (Some (before ++ bad :: after)) s =
      Raises e (mk (overlay entries (os_environ s))) /\
    set_environ (Some [bad]) s = Raises e s /\
    is_refusal e = true.
Proof.
  intros Hb Hbad. destruct (environ_setitem_refused bad Hbad) as (e & He & Hclass).
  exists e. split; [|split; [|exact Hclass]].
  - unfold set_environ. unfold bind at 1. rewrite for_each_app.
    unfold bind at 1. rewrite (assign_all before entries s Hb).
    cbn [for_each]. unfold bind. by rewrite He.
  - unfold set_environ. cbn [for_each]. unfold bind. by rewrite He.
Qed.

Lemma overlay_idempotent entries env :
  overlay entries (overlay entries env) = overlay entries env.
Proof.
  apply map_eq. intros k. destruct (decide (k ∈ entries.*1)) as [Hk|Hk].
  - by apply overlay_agree.
  - by rewrite !overlay_lookup_other.
Qed.

(** X9.  After a [set_environ] with a context that [os.environ] accepts, a
    second one with the same context returns as well and changes nothing. *)
Lemma set_environ_twice items entries s :
  mapM entry items = Some entries ->
  exists s1,
    set_environ (Some items) s = Returns OsEnviron s1 /\
    set_environ (Some items) s1 = Returns OsEnviron s1.
Proof.
  intros H. eexists. split; [by apply set_environ_items|].
  rewrite (set_environ_items items entries _ H). simpl. by rewrite overlay_idempotent.
Qed.
End EnvironEdges.

(** ** [pair_to_dict] *)

Section StringFacts.
Import PyVal.

Lemma append_cons (x : ascii) (a b : string) : String x a +:+ b = String x (a +:+ b).
Proof. reflexivity. Qed.

Lemma append_nil_l (b : string) : "" +:+ b = b.
Proof. reflexivity. Qed.

Lemma append_assoc (a b c : string) : (a +:+ b) +:+ c = a +:+ (b +:+ c).
Proof.
  induction a as [|x a IH]; [reflexivity|]. rewrite !append_cons. f_equal. exact IH.
Qed.

Lemma append_nil_r (a : string) : a +:+ "" = a.
Proof. induction a as [|x a IH]; [reflexivity|]. rewrite append_cons. f_equal. exact IH. Qed.

Lemma contains_cons c d rest :
  contains c (String d rest) = if Ascii.eqb c d then true else contains c rest.
Proof. reflexivity. Qed.

Lemma contains_append c a b : contains c (a +:+ b) = contains c a || contains c b.
Proof.
  induction a as [|x a IH]; [reflexivity|]. rewrite append_cons, !contains_cons.
  by destruct (Ascii.eqb c x).
Qed.
End StringFacts.

Section PairToDict.
Import PyVal Utilities EnvSpec.

Lemma split_once_cons c rest :
  split_once (String c rest) =
    if Ascii.eqb c "="%char then [""; rest]
    else match split_once rest with
         | x :: xs => String c x :: xs
         | [] => [String c ""]
         end.
Proof. reflexivity. Qed.

Lemma split_once_plain s : contains "=" s = false -> split_once s = [s].
Proof.
  induction s as [|c s IH]; [reflexivity|]. rewrite contains_cons, split_once_cons.
  rewrite Ascii.eqb_sym. destruct (Ascii.eqb c "="); [discriminate|].
  intros H. by rewrite (IH H).
Qed.

Lemma split_once_pair k v :
  contains "=" k = false -> split_once (k +:+ String "=" v) = [k; v].
Proof.
  induction k as [|c k IH]; [reflexivity|].
  rewrite append_cons, contains_cons, split_once_cons.
  rewrite Ascii.eqb_sym. destruct (Ascii.eqb c "="); [discriminate|].
  intros H. by rewrite (IH H).
Qed.

Lemma split_once_found s :
  contains "=" s = true ->
  exists k v, s = k +:+ String "=" v /\ contains "=" k = false.
Proof.
  induction s as [|c s IH]; [discriminate|]. rewrite contains_cons.
  destruct (Ascii.eqb "=" c) eqn:E.
  - apply Ascii.eqb_eq in E as <-. intros _. by exists "", s.
  - intros H. destruct (IH H) as (k & v & -> & Hk).
    exists (String c k), v. split; [reflexivity|]. rewrite contains_cons. by rewrite E.
Qed.

Lemma dict_of_pairs pairs : forall i d,
  Forall (fun kv => contains "=" kv.1 = false) pairs ->
  dict_of i (List.map split_once (List.map (fun kv => kv.1 +:+ String "=" kv.2) pairs)) d =
    inr (overlay pairs d).
Proof.
  induction pairs as [|[k v] pairs IH]; intros i d Hk; simpl; [reflexivity|].
  apply Forall_cons in Hk as [Hk Hrest]. rewrite (split_once_pair k v Hk).
  by rewrite IH.
Qed.

(** X10.  [pair_to_dict] of the texts [k=v], for keys without [=], is the
    mapping of the pairs, a later pair replacing an earlier one with the
    same key; a value may hold further [=] signs. *)
Lemma pair_to_dict_of_pairs pairs :
  Forall (fun kv => contains "=" kv.1 = false) pairs ->
  pair_to_dict (List.map (fun kv => kv.1 +:+ String "=" kv.2) pairs) = inr (overlay pairs ∅) /\
  (forall k, k ∉ pairs.*1 -> overlay pairs ∅ !! k = None) /\
  (NoDup pairs.*1 -> forall k v, (k, v) ∈ pairs -> overlay pairs ∅ !! k = Some v).
Proof.
  intros H. split; [by apply dict_of_pairs|]. split.
  - intros k Hk. by rewrite overlay_lookup_other.
  - intros Hnd k v Hin. by apply overlay_lookup_entry.
Qed.

Lemma dict_of_bad before : forall i d bad after,
  Forall (fun s => contains "=" s = true) before ->
  contains "=" bad = false ->
  dict_of i (List.map split_once (before ++ bad :: after)) d =
    inl (ValueError ("dictionary update sequence element #" +:+ pretty (i + length before)%nat +:+
                     " has length 1; 2 is required")).
Proof.
  induction before as [|a before IH]; intros i d bad after Hb Hbad; simpl.
  - rewrite (split_once_plain bad Hbad). simpl. by rewrite Nat.add_0_r.
  - apply Forall_cons in Hb as [Ha Hb].
    destruct (split_once_found a Ha) as (k & v & -> & Hk).
    rewrite (split_once_pair k v Hk). rewrite (IH (S i) _ bad after Hb Hbad).
    by rewrite Nat.add_succ_r.
Qed.

(** X11.  [pair_to_dict] raises a [ValueError] that names the position of the
    first argument without an [=]. *)
Lemma pair_to_dict_without_equals before bad after :
  Forall (fun s => contains "=" s = true) before ->
  contains "=" bad = false ->
  pair_to_dict (before ++ bad :: after) =
    inl (ValueError ("dictionary update sequence element #" +:+ pretty (length before) +:+
                     " has length 1; 2 is required")).
Proof. intros Hb Hbad. unfold pair_to_dict. by rewrite (dict_of_bad before 0 ∅ bad after). Qed.

Lemma dict_of_keys args : forall i d d',
  dict_of i (List.map split_once args) d = inr d' ->
  (forall k, is_Some (d !! k) -> contains "=" k = false) ->
  Forall (fun s => contains "=" s = true) args /\
  (forall k, is_Some (d' !! k) -> contains "=" k = false).
Proof.
  induction args as [|a args IH]; intros i d d' H Hd; simpl in H.
  - injection H as <-. by split.
  - destruct (contains "=" a) eqn:Ha.
    + destruct (split_once_found a Ha) as (k & v & -> & Hk).
      rewrite (split_once_pair k v Hk) in H.
      destruct (IH _ _ _ H) as [Hall Hkeys].
      { intros k' [x Hx]. destruct (decide (k = k')) as [<-|Hne]; [done|].
        rewrite lookup_insert_ne in Hx by done. eauto. }
      split; [|done]. by constructor.
    + rewrite (split_once_plain a Ha) in H. discriminate H.
Qed.

(** X12.  When [pair_to_dict] returns, every argument held an [=] and no key of
    the result holds one. *)
Lemma pair_to_dict_keys args d :
  pair_to_dict args = inr d ->
  Forall (fun s => contains "=" s = true) args /\
  (forall k, is_Some (d !! k) -> contains "=" k = false).
Proof.
  intros H. apply (dict_of_keys args 0 ∅ d H). intros k [x Hx].
  by rewrite lookup_empty in Hx.
Qed.
End PairToDict.

(** ** The paths of [ModuleImporter] *)

Section ImporterFacts.
Import PyVal Quokka.

Lemma split_dot_cons c rest :
  split_dot (String c rest) =
    if Ascii.eqb c "."%char then "" :: split_dot rest
    else match split_dot rest with
         | x :: xs => String c x :: xs
         | [] => [String c ""]
         end.
Proof. reflexivity. Qed.

Lemma split_dot_nonempty s : split_dot s <> [].
Proof.
  destruct s as [|c s]; [discriminate|]. rewrite split_dot_cons.
  destruct (Ascii.eqb c "."); [discriminate|]. by destruct (split_dot s).
Qed.

Lemma join_cons sep x y rest :
  join sep (x :: y :: rest) = x +:+ sep +:+ join sep (y :: rest).
Proof. reflexivity. Qed.

Lemma join_head sep c x xs : join sep (String c x :: xs) = String c (join sep (x :: xs)).
Proof. destruct xs; reflexivity. Qed.

Lemma join_split_dot s : join "." (split_dot s) = s.
Proof.
  induction s as [|c s IH]; [reflexivity|]. rewrite split_dot_cons.
  pose proof (split_dot_nonempty s) as Hne.
  destruct (Ascii.eqb c ".") eqn:E.
  - apply Ascii.eqb_eq in E as ->. destruct (split_dot s) as [|x xs]; [done|].
    rewrite join_cons, IH. reflexivity.
  - destruct (split_dot s) as [|x xs]; [done|]. rewrite join_head, IH. reflexivity.
Qed.

Lemma split_dot_parts s : Forall (fun part => contains "." part = false) (split_dot s).
Proof.
  induction s as [|c s IH]; [by repeat constructor|]. rewrite split_dot_cons.
  destruct (Ascii.eqb c ".") eqn:E; [by constructor|].
  destruct (split_dot s) as [|x xs]; [repeat constructor|].
  - rewrite contains_cons, Ascii.eqb_sym, E. reflexivity.
  - apply Forall_cons in IH as [Hx Hxs]. constructor; [|done].
    rewrite contains_cons, Ascii.eqb_sym, E. exact Hx.
Qed.

Lemma join_last x y rest :
  join "." (x :: y :: rest) =
    join "." (removelast (x :: y :: rest)) +:+ "." +:+ List.last (x :: y :: rest) "".
Proof.
  revert x y. induction rest as [|z rest IH]; intros x y; [reflexivity|].
  rewrite join_cons, (IH y z).
  change (removelast (x :: y :: z :: rest)) with (x :: removelast (y :: z :: rest)).
  change (List.last (x :: y :: z :: rest) "") with (List.last (y :: z :: rest) "").
  destruct (removelast (y :: z :: rest)) as [|a l] eqn:E.
  - destruct rest; discriminate E.
  - rewrite join_cons. by rewrite !append_assoc.
Qed.

(** X13.  [ModuleImporter] splits a dotted path at its last dot: the class name
    holds no dot, and module path, dot and class name give the path back; a
    path without a dot is the class name, with an empty module path. *)
Lemma module_importer_round_trip path :
  contains "." (class_name (new_ModuleImporter path)) = false /\
  if contains "." path
  then module_path (new_ModuleImporter path) +:+ "." +:+
         class_name (new_ModuleImporter path) = path
  else module_path (new_ModuleImporter path) = "" /\
       class_name (new_ModuleImporter path) = path.
Proof.
  unfold new_ModuleImporter. cbv zeta. cbn [class_name module_path].
  pose proof (join_split_dot path) as Hjoin.
  pose proof (split_dot_parts path) as Hparts.
  pose proof (split_dot_nonempty path) as Hne.
  destruct (split_dot path) as [|x [|y rest]]; [done| |].
  - apply Forall_cons in Hparts as [Hx _]. cbn [join] in Hjoin. subst x.
    cbn [List.last removelast join]. by rewrite Hx.
  - assert (Hc : contains "." path = true).
    { rewrite <- Hjoin, join_cons, 2!contains_append.
      change (contains "." ".") with true. by destruct (contains "." x). }
    rewrite Hc. split; [|by rewrite <- join_last].
    assert (Hin : List.last (x :: y :: rest) "" ∈ x :: y :: rest).
    { apply list_elem_of_In. apply (@exists_last _ (x :: y :: rest)) in Hne as (l & a & ->).
      rewrite last_last. apply in_or_app. right. by left. }
    rewrite Forall_forall in Hparts. by apply Hparts.
Qed.
End ImporterFacts.

(** ** Guarantees of composed calls *)

Section HoareFacts.
Import Hoare.
Context {St : Type}.

Lemma triple_bind {A B} (P : St -> Prop) (m : M St A) (k : A -> M St B) Q R E :
  triple P m Q E -> (forall a, triple (Q a) (k a) R E) -> triple P (bind m k) R E.
Proof.
  intros Hm Hk s Hs. specialize (Hm s Hs). unfold bind.
  destruct (m s) as [a s'| | |]; try done. by apply Hk.
Qed.

Lemma triple_weaken {A} (P P' : St -> Prop) (m : M St A) (Q Q' : A -> St -> Prop) E :
  triple P m Q E -> (forall s, P' s -> P s) -> (forall a s, Q a s -> Q' a s) ->
  triple P' m Q' E.
Proof.
  intros Hm HP HQ s Hs. specialize (Hm s (HP s Hs)). destruct (m s); auto.
Qed.

Lemma keeps_bind {A B} (I : St -> Prop) (m : M St A) (k : A -> M St B) :
  keeps I m -> (forall a, keeps I (k a)) -> keeps I (bind m k).
Proof. intros Hm Hk. by apply (triple_bind I m k (fun _ => I)). Qed.

Lemma keeps_reads {A} (I : St -> Prop) (m : M St A) : reads m -> keeps I m.
Proof. intros Hm s Hs. by destruct (Hm s) as [[a ->]|[e ->]]. Qed.

Lemma keeps_modify (I : St -> Prop) (f : St -> St) :
  (forall s, I s -> I (f s)) -> keeps I (modify f).
Proof. intros Hf s Hs. by apply Hf. Qed.

Lemma keeps_get (I : St -> Prop) {B} (k : St -> M St B) :
  (forall s0, keeps I (k s0)) -> keeps I (bind get k).
Proof. intros Hk s Hs. unfold bind, get. by apply Hk. Qed.

Lemma keeps_for_each {A} (I : St -> Prop) (xs : list A) (body : A -> M St unit) :
  (forall x, keeps I (body x)) -> keeps I (for_each xs body).
Proof.
  intros Hb. induction xs as [|x xs IH]; simpl.
  - by intros s Hs.
  - apply keeps_bind; [apply Hb | by intros _].
Qed.

Lemma keeps_try {A} (I : St -> Prop) (body : M St A) catches handler :
  keeps I body -> (forall e, keeps I (handler e)) -> keeps I (try_except body catches handler).
Proof.
  intros Hb Hh s Hs. specialize (Hb s Hs). unfold try_except.
  destruct (body s) as [| e s' | |]; try done.
  destruct (catches e); [by apply Hh | done].
Qed.

Lemma reads_ret {A} (a : A) : reads (ret (St:=St) a).
Proof. intros s. left. by exists a. Qed.

Lemma reads_raise {A} e : reads (raise (St:=St) (A:=A) e).
Proof. intros s. right. by exists e. Qed.
End HoareFacts.

(** ** The attachment phases *)

Section PhaseFacts.
Import Hoare Quokka Phases.
Variable importable : string -> module_lookup.

Section Closed.
Variable I : state -> Prop.
Hypothesis I_calls : forall s evs, I s -> I (set_calls (calls s ++ evs) s).
Hypothesis I_next_id : forall s, I s -> I (set_next_id (S (next_id s)) s).

Lemma keeps_emit ev : keeps I (emit ev).
Proof. apply keeps_modify. intros s. apply I_calls. Qed.

Lemma keeps_logging lvl msg : keeps I (logging lvl msg).
Proof. apply keeps_emit. Qed.

Lemma keeps_klass imp : keeps I (klass importable imp).
Proof.
  unfold klass. apply keeps_bind; [apply keeps_logging|]. intros _.
  apply keeps_reads. intros s.
  destruct (String.eqb (module_path imp) ""); [right; by eexists|].
  destruct (importable (module_path imp)) as [|e|attrs]; try (right; by eexists).
  destruct (attrs (class_name imp)); [left|right]; by eexists.
Qed.

Lemma reads_concat prefix name : reads (concat prefix name).
Proof. destruct name; [apply reads_ret | apply reads_raise]. Qed.

Lemma reads_unpack {A} (kargs : option (list A)) : reads (unpack kargs).
Proof. destruct kargs; [apply reads_ret | apply reads_raise]. Qed.

Lemma reads_read_local inst : reads (read_local inst).
Proof. destruct inst; [apply reads_ret | apply reads_raise]. Qed.

Lemma reads_instantiate cls : reads (instantiate cls).
Proof. unfold instantiate. destruct (init_raises cls); [apply reads_raise | apply reads_ret]. Qed.

Lemma reads_get_MONITOR_NAME cls : reads (get_MONITOR_NAME cls).
Proof.
  unfold get_MONITOR_NAME. destruct (MONITOR_NAME cls); [apply reads_ret | apply reads_raise].
Qed.

Lemma keeps_allocate : keeps I allocate.
Proof. intros s Hs. by apply I_next_id. Qed.

Section Loggers.
Hypothesis I_logger_objs : forall s h, I s -> I (set_logger_objs h s).
Hypothesis I_loggers : forall s l, I s -> I (set_loggers (loggers s ++ [l]) s).

Lemma keeps_new_logger cls kargs : keeps I (new_logger cls kargs).
Proof.
  unfold new_logger. apply keeps_bind; [apply keeps_reads, reads_instantiate|]. intros _.
  apply keeps_bind; [apply keeps_allocate|]. intros r.
  apply keeps_bind; [apply keeps_emit|]. intros _.
  apply keeps_bind; [apply keeps_modify; intros s; apply I_logger_objs|]. intros _.
  apply keeps_reads, reads_ret.
Qed.

Lemma keeps_attach_loggers specs : keeps I (attach_loggers importable specs).
Proof.
  unfold attach_loggers. apply keeps_for_each. intros logger. cbv zeta.
  apply keeps_bind; [apply keeps_logging|]. intros _.
  apply keeps_bind; [apply keeps_reads, reads_concat|]. intros path.
  apply keeps_bind; [apply keeps_klass|]. intros cls.
  apply keeps_bind; [apply keeps_reads, reads_unpack|]. intros kargs.
  apply keeps_bind; [apply keeps_new_logger|]. intros r.
  apply keeps_modify. intros s. apply I_loggers.
Qed.
End Loggers.

Section Monitors.
Hypothesis I_monitor_objs : forall s h, I s -> I (set_monitor_objs h s).
Hypothesis I_monitors : forall s r, I s -> I (set_monitors (monitors s ++ [r]) s).

Lemma keeps_update_monitor r f : keeps I (update_monitor r f).
Proof. apply keeps_modify. intros s. apply I_monitor_objs. Qed.

Lemma keeps_attach_listener inst l : keeps I (attach_listener importable inst l).
Proof.
  unfold attach_listener. cbv zeta.
  apply keeps_bind; [apply keeps_logging|]. intros _.
  apply keeps_bind; [apply keeps_reads, reads_concat|]. intros path.
  apply keeps_bind; [apply keeps_klass|]. intros cls.
  apply keeps_bind; [apply keeps_reads, reads_unpack|]. intros kargs.
  apply keeps_bind.
  { unfold new_listener. apply keeps_bind; [apply keeps_reads, reads_instantiate|]. intros _.
    apply keeps_bind; [apply keeps_emit|]. intros _. apply keeps_reads, reads_ret. }
  intros obj. apply keeps_bind; [apply keeps_reads, reads_read_local|]. intros r.
  unfold add_listener. apply keeps_bind; [apply keeps_emit | intros _; apply keeps_update_monitor].
Qed.

Lemma keeps_monitor_start r : keeps I (monitor_start r).
Proof.
  unfold monitor_start. apply keeps_bind; [apply keeps_emit|]. intros _.
  apply keeps_get. intros s0. destruct (monitor_objs s0 !! r) as [m|].
  - destruct (start_raises (monitor_of m) (starts m));
      [apply keeps_reads, reads_raise | apply keeps_update_monitor].
  - apply keeps_reads, reads_ret.
Qed.

Lemma keeps_attach_monitor plugin monitor inst :
  keeps I (attach_monitor importable plugin monitor inst).
Proof.
  unfold attach_monitor. cbv zeta.
  apply keeps_bind; [apply keeps_logging|]. intros _.
  apply keeps_bind; [apply keeps_reads, reads_concat|]. intros path.
  apply keeps_bind; [apply keeps_klass|]. intros cls.
  apply keeps_bind; [apply keeps_reads, reads_get_MONITOR_NAME|]. intros name.
  apply keeps_bind.
  { destruct (String.eqb name "ConsoleMonitor").
    - apply keeps_bind; [apply keeps_reads, reads_unpack|]. intros kargs.
      apply keeps_bind; [|intros r; apply keeps_reads, reads_ret].
      unfold new_monitor. apply keeps_bind; [apply keeps_reads, reads_instantiate|]. intros _.
      apply keeps_bind; [apply keeps_allocate|]. intros r.
      apply keeps_bind; [apply keeps_emit|]. intros _.
      apply keeps_bind; [apply keeps_modify; intros s; apply I_monitor_objs|]. intros _.
      apply keeps_reads, reads_ret.
    - destruct (String.eqb name "WebSocketMonitor"); [apply keeps_reads, reads_ret|].
      apply keeps_bind; [apply keeps_logging | intros _; apply keeps_reads, reads_ret]. }
  intros [inst'|]; [|apply keeps_reads, reads_ret].
  apply keeps_bind; [apply keeps_reads, reads_unpack|]. intros specs.
  apply keeps_bind; [apply keeps_for_each; intros l; apply keeps_attach_listener|]. intros _.
  apply keeps_bind; [apply keeps_reads, reads_read_local|]. intros r.
  apply keeps_bind; [apply keeps_update_monitor|]. intros _.
  apply keeps_bind; [apply keeps_monitor_start|]. intros _.
  apply keeps_bind; [apply keeps_modify; intros s; apply I_monitors|]. intros _.
  apply keeps_reads, reads_ret.
Qed.

Lemma keeps_attach_monitors_from plugin specs : forall inst,
  keeps I (attach_monitors_from importable plugin specs inst).
Proof.
  induction specs as [|monitor specs IH]; intros inst; simpl.
  - apply keeps_reads, reads_ret.
  - apply keeps_bind; [apply keeps_attach_monitor | apply IH].
Qed.

Lemma keeps_attach_monitors plugin specs : keeps I (attach_monitors importable plugin specs).
Proof.
  unfold attach_monitors. apply keeps_bind; [apply keeps_attach_monitors_from|].
  intros _. apply keeps_reads, reads_ret.
Qed.
End Monitors.
End Closed.

Lemma monitors_phase_refl s : monitors_phase s s.
Proof. by repeat split. Qed.

Lemma loggers_phase_refl s : loggers_phase s s.
Proof. by repeat split. Qed.

Lemma attach_monitors_phase plugin specs s :
  match attach_monitors importable plugin specs s with
  | Returns _ s' | Raises _ s' | Blocks s' => monitors_phase s s'
  | Starved => True
  end.
Proof.
  assert (H : keeps (monitors_phase s) (attach_monitors importable plugin specs)).
  { apply keeps_attach_monitors; unfold monitors_phase; simpl; intros;
      intuition; try (by apply prefix_app_r); lia. }
  exact (H s (monitors_phase_refl s)).
Qed.

Lemma attach_loggers_phase specs s :
  match attach_loggers importable specs s with
  | Returns _ s' | Raises _ s' | Blocks s' => loggers_phase s s'
  | Starved => True
  end.
Proof.
  assert (H : keeps (loggers_phase s) (attach_loggers importable specs)).
  { apply keeps_attach_loggers; unfold loggers_phase; simpl; intros;
      intuition; try (by apply prefix_app_r); lia. }
  exact (H s (loggers_phase_refl s)).
Qed.

Lemma triple_new_logger cls kargs :
  triple distinct_loggers (new_logger cls kargs)
    (fun r s' => NoDup (loggers s') /\ (forall l, l ∈ loggers s' -> (l < r)%nat) /\
                 next_id s' = S r)
    distinct_loggers.
Proof.
  intros s [Hnd Hlt]. unfold new_logger, instantiate, bind, allocate, emit, modify, ret, raise.
  destruct (init_raises cls); simpl; by repeat split.
Qed.

Lemma keeps_distinct_loggers specs :
  keeps distinct_loggers (attach_loggers importable specs).
Proof.
  assert (Hcalls : forall s evs, distinct_loggers s ->
                     distinct_loggers (set_calls (calls s ++ evs) s)) by done.
  assert (Hnext : forall s, distinct_loggers s ->
                    distinct_loggers (set_next_id (S (next_id s)) s)).
  { intros s [Hnd Hlt]. split; [done|]. intros l Hl. simpl. specialize (Hlt l Hl). lia. }
  unfold attach_loggers. apply keeps_for_each. intros logger. cbv zeta.
  apply keeps_bind; [by apply keeps_logging|]. intros _.
  apply keeps_bind; [apply keeps_reads, reads_concat|]. intros path.
  apply keeps_bind; [by apply keeps_klass|]. intros cls.
  apply keeps_bind; [apply keeps_reads, reads_unpack|]. intros kargs.
  eapply triple_bind; [apply triple_new_logger|]. intros r s (Hnd & Hlt & Hnext').
  unfold modify, distinct_loggers. simpl. split.
  - apply NoDup_app. split; [done|]. split; [|apply NoDup_singleton].
    intros l Hl Hr. apply list_elem_of_singleton in Hr as ->. specialize (Hlt r Hl). lia.
  - intros l Hl. apply elem_of_app in Hl as [Hl|Hl].
    + specialize (Hlt l Hl). lia.
    + apply list_elem_of_singleton in Hl as ->. lia.
Qed.

(** X14.  However [attach_monitors] ends, it leaves the configuration, the
    plugin, the clock, the recorded loggers and the logger objects as they
    were, and the recorded monitors and the calls have only grown at the end. *)
Lemma attach_monitors_is_append_only plugin specs s :
  match attach_monitors importable plugin specs s with
  | Returns _ s' | Raises _ s' | Blocks s' => monitors_phase s s'
  | Starved => True
  end.
Proof. apply attach_monitors_phase. Qed.

(** X15.  However [attach_loggers] ends, it leaves the configuration, the
    plugin, the clock, the recorded monitors and the monitor objects as they
    were, and the recorded loggers and the calls have only grown at the end. *)
Lemma attach_loggers_is_append_only specs s :
  match attach_loggers importable specs s with
  | Returns _ s' | Raises _ s' | Blocks s' => loggers_phase s s'
  | Starved => True
  end.
Proof. apply attach_loggers_phase. Qed.

(** X16.  [attach_loggers] keeps the recorded loggers distinct: it records only
    objects it has just constructed, however it ends. *)
Lemma attach_loggers_keeps_loggers_distinct specs s :
  distinct_loggers s ->
  match attach_loggers importable specs s with
  | Returns _ s' | Raises _ s' | Blocks s' => distinct_loggers s'
  | Starved => True
  end.
Proof. apply keeps_distinct_loggers. Qed.

End PhaseFacts.

(** ** [run_plugin] and [stop_plugin] *)

Section RunFacts.
Import Hoare Quokka QuokkaSpec ResolveSpec Phases Shutdown.
Variable importable : string -> module_lookup.

Lemma run_plugin_started s cls :
  resolve importable ("core.plugins." +:+ plugin_class (conf s)) = Some cls ->
  init_raises cls = None -> start_raises cls 0 = None ->
  run_plugin importable s =
    (attach_monitors importable (plugin_after_start cls s) (conf_monitors (conf s)) ;;
     attach_loggers importable (conf_loggers (conf s)) ;;
     plugin_process_wait ;;
     detect_faults ;;
     plugin_returncode) (state_after_start cls s).
Proof.
  intros Hres Hinit Hstart. unfold run_plugin. unfold bind at 1, get.
  unfold bind at 1, try_except. rewrite (klass_resolved importable _ _ _ Hres).
  unfold bind at 1. unfold instantiate. rewrite Hinit. unfold ret at 1.
  unfold bind at 1. unfold emit, modify at 1. unfold bind at 1. unfold modify at 1.
  unfold bind at 1. unfold plugin_start, the_plugin. unfold bind at 1. 
  cbn [Quokka.plugin set_plugin set_calls plugin_of plugin_starts]. unfold bind at 1. 
  unfold emit, modify at 1. rewrite Hstart. unfold modify at 1.
  unfold bind at 1.
  cbn [Quokka.plugin set_plugin set_calls plugin_of plugin_starts plugin_conf conf].
  unfold state_after_start, plugin_after_start, set_plugin, set_calls.
  cbn [conf monitors loggers Quokka.plugin monitor_objs logger_objs next_id clock calls].
  by rewrite <- !app_assoc.
Qed.

Lemma popen_wait_eventual now p c :
  Spec.eventual_status p = Some c ->
  exists back p', Popen.wait now p = Some (c, back, p') /\ Popen.returncode p' = Some c.
Proof.
  unfold Spec.eventual_status, Popen.wait.
  destruct (Popen.returncode p) eqn:Hrc.
  - intros [= ->]. by eexists _, _.
  - destruct (Popen.fate p) as [[t c0]|]; [|discriminate]. intros [= ->]. by eexists _, _.
Qed.

Lemma popen_wait_never now p :
  Spec.eventual_status p = None -> Popen.wait now p = None.
Proof.
  unfold Spec.eventual_status, Popen.wait.
  destruct (Popen.returncode p); [discriminate|].
  by destruct (Popen.fate p) as [[t c0]|].
Qed.

Lemma run_plugin_waits s cls proc s2 s3 :
  resolve importable ("core.plugins." +:+ plugin_class (conf s)) = Some cls ->
  init_raises cls = None -> start_raises cls 0 = None ->
  spawns cls = Some proc ->
  attach_monitors importable (plugin_after_start cls s) (conf_monitors (conf s))
    (state_after_start cls s) = Returns tt s2 ->
  attach_loggers importable (conf_loggers (conf s)) s2 = Returns tt s3 ->
  run_plugin importable s =
    match Popen.wait (clock s3) proc with
    | Some (c, back, proc') =>
        (detect_faults ;; plugin_returncode)
          (set_clock back
             (set_plugin (Some (mk_plugin cls (quokka (conf s)) (Some proc') 1))
                (set_calls (calls s3 ++ [ProcessWait]) s3)))
    | None => Blocks (set_calls (calls s3 ++ [ProcessWait]) s3)
    end.
Proof.
  intros Hres Hinit Hstart Hproc Hm Hl.
  rewrite (run_plugin_started s cls Hres Hinit Hstart).
  pose proof (attach_monitors_phase importable (plugin_after_start cls s)
                (conf_monitors (conf s)) (state_after_start cls s)) as Fm.
  rewrite Hm in Fm. destruct Fm as (_ & Fp2 & Fc2 & _).
  pose proof (attach_loggers_phase importable (conf_loggers (conf s)) s2) as Fl.
  rewrite Hl in Fl. destruct Fl as (_ & Fp3 & Fc3 & _).
  unfold bind at 1. rewrite Hm. unfold bind at 1. rewrite Hl.
  unfold bind at 1. unfold plugin_process_wait, the_plugin. unfold bind at 1.
  rewrite Fp3, Fp2. cbn [Quokka.plugin state_after_start set_plugin plugin_after_start plugin_process].
  rewrite Hproc. unfold bind at 1. unfold emit, modify at 1. unfold bind at 1, get.
  cbn [clock set_calls]. destruct (Popen.wait (clock s3) proc) as [[[c back] proc']|]; [|done].
  unfold bind at 1. unfold modify at 1. unfold ret at 1. reflexivity.
Qed.

Lemma run_plugin_completes s cls proc c s2 s3 :
  resolve importable ("core.plugins." +:+ plugin_class (conf s)) = Some cls ->
  init_raises cls = None -> start_raises cls 0 = None ->
  spawns cls = Some proc -> Spec.eventual_status proc = Some c ->
  attach_monitors importable (plugin_after_start cls s) (conf_monitors (conf s))
    (state_after_start cls s) = Returns tt s2 ->
  attach_loggers importable (conf_loggers (conf s)) s2 = Returns tt s3 ->
  exists s',
    run_plugin importable s = Returns (Some c) s' /\
    calls s' =
      calls s3 ++ [ProcessWait] ++
      flat_map (visit (monitor_objs s3) (loggers s3)) (monitors s3) ++
      List.map AddFault (loggers s3) /\
    logger_objs s' =
      commit (loggers s3)
        (collect (loggers s3) (records (monitor_objs s3) (monitors s3)) (logger_objs s3)).
Proof.
  intros Hres Hinit Hstart Hproc Hev Hm Hl.
  rewrite (run_plugin_waits s cls proc s2 s3 Hres Hinit Hstart Hproc Hm Hl).
  destruct (popen_wait_eventual (clock s3) proc c Hev) as (back & proc' & -> & Hrc).
  unfold bind at 1. rewrite detect_faults_eq.
  unfold plugin_returncode, the_plugin, bind.
  cbn [Quokka.plugin set_plugin set_calls set_clock set_logger_objs plugin_process].
  unfold ret. rewrite Hrc. eexists. split; [reflexivity|].
  cbn [calls set_calls set_plugin set_clock set_logger_objs monitor_objs loggers monitors
       logger_objs].
  split; [|reflexivity]. by rewrite <- !app_assoc.
Qed.

(** X20.  When the plugin resolves, constructs and starts, both attachment
    phases return and the plugin's process eventually exits with status [c],
    [run_plugin] returns [c], after the wait on the process and then the
    whole fault-detection pass over what was attached. *)
Lemma run_plugin_returns_exit_status s cls proc c s2 s3 :
  resolve importable ("core.plugins." +:+ plugin_class (conf s)) = Some cls ->
  init_raises cls = None -> start_raises cls 0 = None ->
  spawns cls = Some proc -> Spec.eventual_status proc = Some c ->
  attach_monitors importable (plugin_after_start cls s) (conf_monitors (conf s))
    (state_after_start cls s) = Returns tt s2 ->
  attach_loggers importable (conf_loggers (conf s)) s2 = Returns tt s3 ->
  exists s',
    run_plugin importable s = Returns (Some c) s' /\
    calls s' =
      calls s3 ++ [ProcessWait] ++
      flat_map (visit (monitor_objs s3) (loggers s3)) (monitors s3) ++
      List.map AddFault (loggers s3).
Proof.
  intros Hres Hinit Hstart Hproc Hev Hm Hl.
  destruct (run_plugin_completes s cls proc c s2 s3 Hres Hinit Hstart Hproc Hev Hm Hl)
    as (s' & Hr & Hc & _).
  by exists s'.
Qed.

(** X25.  In such a run that began with distinct recorded loggers, as a fresh
    [Quokka] has, every recorded logger ends with all fault records of the
    recorded monitors added to its bucket and with one commit of that
    bucket. *)
Lemma run_plugin_settles_every_logger s cls proc c s2 s3 :
  distinct_loggers s ->
  resolve importable ("core.plugins." +:+ plugin_class (conf s)) = Some cls ->
  init_raises cls = None -> start_raises cls 0 = None ->
  spawns cls = Some proc -> Spec.eventual_status proc = Some c ->
  attach_monitors importable (plugin_after_start cls s) (conf_monitors (conf s))
    (state_after_start cls s) = Returns tt s2 ->
  attach_loggers importable (conf_loggers (conf s)) s2 = Returns tt s3 ->
  exists s',
    run_plugin importable s = Returns (Some c) s' /\
    forall l, l ∈ loggers s3 ->
      logger_objs s' !! l =
        settled (records (monitor_objs s3) (monitors s3)) <$> logger_objs s3 !! l.
Proof.
  intros Hd Hres Hinit Hstart Hproc Hev Hm Hl.
  destruct (run_plugin_completes s cls proc c s2 s3 Hres Hinit Hstart Hproc Hev Hm Hl)
    as (s' & Hr & _ & Hobjs).
  exists s'. split; [exact Hr|].
  pose proof (attach_monitors_phase importable (plugin_after_start cls s)
                (conf_monitors (conf s)) (state_after_start cls s)) as Fm.
  rewrite Hm in Fm. destruct Fm as (_ & _ & _ & Fl2 & _ & _ & _ & Fn2).
  assert (Hd2 : distinct_loggers s2).
  { destruct Hd as [Hnd Hlt]. unfold distinct_loggers. rewrite Fl2. split; [done|].
    intros l Hin. specialize (Hlt l Hin). simpl in Fn2. lia. }
  pose proof (keeps_distinct_loggers importable (conf_loggers (conf s)) s2 Hd2) as Hd3.
  rewrite Hl in Hd3. destruct Hd3 as [Hnd3 _].
  intros l Hin. rewrite Hobjs. unfold commit.
  rewrite alter_each_member by done. rewrite collect_lookup by done.
  by destruct (logger_objs s3 !! l).
Qed.

(** X21.  When the plugin's process never exits, [run_plugin] blocks for ever in
    the wait on the process: the fault-detection pass is not reached. *)
Lemma run_plugin_blocks_while_child_lives s cls proc s2 s3 :
  resolve importable ("core.plugins." +:+ plugin_class (conf s)) = Some cls ->
  init_raises cls = None -> start_raises cls 0 = None ->
  spawns cls = Some proc -> Spec.eventual_status proc = None ->
  attach_monitors importable (plugin_after_start cls s) (conf_monitors (conf s))
    (state_after_start cls s) = Returns tt s2 ->
  attach_loggers importable (conf_loggers (conf s)) s2 = Returns tt s3 ->
  run_plugin importable s = Blocks (set_calls (calls s3 ++ [ProcessWait]) s3).
Proof.
  intros Hres Hinit Hstart Hproc Hev Hm Hl.
  rewrite (run_plugin_waits s cls proc s2 s3 Hres Hinit Hstart Hproc Hm Hl).
  by rewrite (popen_wait_never _ proc Hev).
Qed.

Lemma run_plugin_start_raises s cls e :
  resolve importable ("core.plugins." +:+ plugin_class (conf s)) = Some cls ->
  init_raises cls = None -> start_raises cls 0 = Some e ->
  run_plugin importable s =
    Raises (if is_PluginException e then QuokkaException (exn_str e) else e)
      (set_plugin (Some (mk_plugin cls (quokka (conf s)) None 0))
         (set_calls
            (calls s ++
             [import_note ("core.plugins." +:+ plugin_class (conf s)); PluginInit; PluginStart])
            s)).
Proof.
  intros Hres Hinit Hstart. unfold run_plugin. unfold bind at 1, get.
  unfold bind at 1, try_except. rewrite (klass_resolved importable _ _ _ Hres).
  unfold bind at 1. unfold instantiate. rewrite Hinit. unfold ret at 1.
  unfold bind at 1. unfold emit, modify at 1. unfold bind at 1. unfold modify at 1.
  unfold bind at 1. unfold plugin_start, the_plugin. unfold bind at 1.
  cbn [Quokka.plugin set_plugin set_calls plugin_of plugin_starts]. unfold bind at 1.
  unfold emit, modify at 1. rewrite Hstart. unfold raise.
  unfold set_plugin, set_calls.
  cbn [conf monitors loggers Quokka.plugin monitor_objs logger_objs next_id clock calls].
  rewrite <- !app_assoc. by destruct (is_PluginException e).
Qed.

(** X22.  When the plugin's [start()] raises, [run_plugin] raises with the plugin
    assigned but nothing attached and no wait: a [PluginException] becomes a
    [QuokkaException] with the same message, any other error passes as it
    is. *)
Lemma run_plugin_start_failure s cls e :
  resolve importable ("core.plugins." +:+ plugin_class (conf s)) = Some cls ->
  init_raises cls = None -> start_raises cls 0 = Some e ->
  run_plugin importable s =
    Raises (if is_PluginException e then QuokkaException (exn_str e) else e)
      (set_plugin (Some (mk_plugin cls (quokka (conf s)) None 0))
         (set_calls
            (calls s ++
             [import_note ("core.plugins." +:+ plugin_class (conf s)); PluginInit; PluginStart])
            s)).
Proof. apply run_plugin_start_raises. Qed.

(** X23.  When the plugin class raises while it is called, [run_plugin] lets
    that error through as it is, a [PluginException] too: the call is outside
    both handlers, and [self.plugin] is not assigned. *)
Lemma run_plugin_constructor_failure s cls e :
  resolve importable ("core.plugins." +:+ plugin_class (conf s)) = Some cls ->
  init_raises cls = Some e ->
  run_plugin importable s =
    Raises e
      (set_calls (calls s ++ [import_note ("core.plugins." +:+ plugin_class (conf s))]) s).
Proof.
  intros Hres Hinit. unfold run_plugin. unfold bind at 1, get.
  unfold bind at 1, try_except. rewrite (klass_resolved importable _ _ _ Hres).
  unfold bind at 1. unfold instantiate. by rewrite Hinit.
Qed.

Section Stop.
Variable plugin_stop : M state unit.

(** X26.  [stop_plugin] with no plugin, or with a plugin whose process a poll
    finds exited, only writes an information record (naming the exit code in
    the second case) and does not call the plugin's [stop()]. *)
Lemma stop_plugin_without_running_plugin s :
  (plugin s = None ->
   stop_plugin plugin_stop s =
     Returns tt (set_calls (calls s ++ [Log INFO "Plugin did not start."]) s)) /\
  (forall p proc c,
     plugin s = Some p -> plugin_process p = Some proc ->
     (Popen.poll (clock s) proc).1 = Some c ->
     stop_plugin plugin_stop s =
       Returns tt
         (set_calls
            (calls s ++ [Log INFO ("Plugin process exited prior with exit code: " +:+ pretty c)])
            (set_plugin
               (Some (mk_plugin (plugin_of p) (plugin_conf p)
                        (Some (Popen.poll (clock s) proc).2) (plugin_starts p))) s))).
Proof.
  split.
  - intros Hp. unfold stop_plugin, bind, get. by rewrite Hp.
  - intros p proc c Hp Hproc Hpoll. unfold stop_plugin. unfold bind at 1, get. rewrite Hp.
    unfold bind at 1. unfold plugin_is_running, the_plugin. unfold bind at 1. rewrite Hp, Hproc.
    unfold bind at 1, get. unfold bind at 1. unfold modify at 1. unfold ret at 1.
    rewrite Hpoll. unfold plugin_returncode, the_plugin, bind.
    cbn [Quokka.plugin set_plugin plugin_process]. unfold ret.
    by rewrite (poll_returncode _ _ _ Hpoll).
Qed.

Lemma stop_plugin_without_process s p :
  plugin s = Some p -> plugin_process p = None ->
  stop_plugin plugin_stop s =
    Raises (AttributeError "'NoneType' object has no attribute 'returncode'") s.
Proof.
  intros Hp Hproc. unfold stop_plugin. unfold bind at 1, get. rewrite Hp.
  unfold bind at 1. unfold plugin_is_running, the_plugin. unfold bind at 1. rewrite Hp, Hproc.
  unfold ret at 1. unfold plugin_returncode, the_plugin, bind. by rewrite Hp, Hproc.
Qed.

(** X27.  After a [run_plugin] that failed in the plugin's [start()], the plugin
    is assigned without a process, and [stop_plugin] raises an
    [AttributeError] instead of returning. *)
Lemma stop_plugin_after_failed_start s cls e :
  resolve importable ("core.plugins." +:+ plugin_class (conf s)) = Some cls ->
  init_raises cls = None -> start_raises cls 0 = Some e ->
  exists e' s',
    run_plugin importable s = Raises e' s' /\
    stop_plugin plugin_stop s' =
      Raises (AttributeError "'NoneType' object has no attribute 'returncode'") s'.
Proof.
  intros Hres Hinit Hstart. eexists _, _.
  split; [by apply run_plugin_start_raises|]. by eapply stop_plugin_without_process.
Qed.

(** X28.  [stop_plugin] with a plugin whose process is still running does what
    the plugin's [stop()] does, except that a [PluginException] leaves it as
    a [QuokkaException] with the same message. *)
Lemma stop_plugin_running s p proc :
  plugin s = Some p -> plugin_process p = Some proc ->
  Popen.poll (clock s) proc = (None, proc) ->
  stop_plugin plugin_stop s =
    match plugin_stop s with
    | Raises e s' =>
        Raises (if is_PluginException e then QuokkaException (exn_str e) else e) s'
    | o => o
    end.
Proof.
  intros Hp Hproc Hpoll. unfold stop_plugin. unfold bind at 1, get. rewrite Hp.
  unfold bind at 1. unfold plugin_is_running, the_plugin. unfold bind at 1. rewrite Hp, Hproc.
  unfold bind at 1, get. unfold bind at 1. unfold modify at 1. unfold ret at 1.
  rewrite Hpoll. cbn [fst snd].
  assert (Hs : set_plugin (Some (mk_plugin (plugin_of p) (plugin_conf p) (Some proc)
                                   (plugin_starts p))) s = s).
  { destruct s, p. simpl in *. by subst. }
  rewrite Hs. unfold try_except, raise.
  destruct (plugin_stop s) as [| e s' | |]; try done. by destruct (is_PluginException e).
Qed.
End Stop.
End RunFacts.

(** ** [open] *)

Section OpenFacts.
Import Spawning.
Variable popen : list string -> gmap string string -> option string -> exn + Popen.t.

(** X7.  [open] with an empty [env] does what it does with no [env]: the child
    gets [os.environ].  When the launch fails the error leaves [open] and the
    object is as before; when it succeeds the new handle is returned and
    stored without any call on the handle held before. *)
Lemma open_treats_empty_env_as_absent cmd env cwd s :
  open popen cmd (Some ∅) cwd s = open popen cmd None cwd s /\
  match popen cmd (env_or_environ env s) cwd with
  | inl e =>
      exists s',
        open popen cmd env cwd s = Raises e s' /\
        self s' = self s /\ os_environ s' = os_environ s
  | inr p =>
      exists s',
        open popen cmd env cwd s = Returns p s' /\
        ExternalProcess.process (self s') = Some p /\
        ExternalProcess.clock (self s') = ExternalProcess.clock (self s) /\
        ExternalProcess.trace (self s') = ExternalProcess.trace (self s) /\
        os_environ s' = os_environ s
  end.
Proof.
  split; [reflexivity|].
  unfold open, bind, modify, get, raise, ret.
  assert (He : forall i, env_or_environ env (mk (self s) (os_environ s) i) =
                         env_or_environ env s) by (by destruct env).
  rewrite He. destruct (popen cmd (env_or_environ env s) cwd); by eexists.
Qed.
End OpenFacts.

Section AttachMore.
Import Hoare Quokka QuokkaSpec ResolveSpec Phases Shutdown.
Variable importable : string -> module_lookup.

Lemma attach_logger_resolved l o s :
  logger_for importable l = Some o ->
  exists c,
    attach_loggers importable [l] s =
      Returns tt
        (set_calls c
           (set_loggers (loggers s ++ [next_id s])
              (set_logger_objs (<[next_id s := o]> (logger_objs s))
                 (set_next_id (S (next_id s)) s)))).
Proof.
  unfold logger_for. intros H.
  destruct (logger_class l) as [id|] eqn:Hid; [|discriminate].
  destruct (logger_kargs l) as [kargs|] eqn:Hk; [|discriminate].
  destruct (resolve importable ("core.loggers." +:+ id)) as [cls|] eqn:Hres; [|discriminate].
  destruct (init_raises cls) eqn:Hinit; [discriminate|]. injection H as <-.
  unfold attach_loggers. cbn [for_each]. rewrite Hid, Hk. cbv zeta.
  unfold bind at 1. unfold bind at 1. unfold logging, emit, modify at 1.
  unfold bind at 1. unfold concat at 1, ret at 1.
  unfold bind at 1. rewrite (klass_resolved importable _ _ _ Hres).
  unfold new_logger, instantiate. rewrite Hinit.
  eexists. reflexivity.
Qed.

Lemma attach_loggers_cons l specs s :
  attach_loggers importable (l :: specs) s =
    (attach_loggers importable [l] ;; attach_loggers importable specs) s.
Proof.
  unfold attach_loggers. cbn [for_each]. unfold bind.
  match goal with |- context [match ?x with _ => _ end] => destruct x end; reflexivity.
Qed.

(** X17.  When every logger spec resolves and constructs, [attach_loggers]
    returns having recorded one new logger per spec, in the order of the
    specs, each with its keywords and an empty bucket, and having left the
    objects that existed alone. *)
Lemma attach_loggers_resolved specs : forall objs s,
  mapM (logger_for importable) specs = Some objs ->
  exists s',
    attach_loggers importable specs s = Returns tt s' /\
    loggers s' = loggers s ++ seq (next_id s) (length specs) /\
    next_id s' = (next_id s + length specs)%nat /\
    (forall i o, objs !! i = Some o -> logger_objs s' !! (next_id s + i)%nat = Some o) /\
    (forall r, (r < next_id s)%nat -> logger_objs s' !! r = logger_objs s !! r).
Proof.
  induction specs as [|l specs IH]; intros objs s H.
  - injection H as <-. exists s. unfold attach_loggers. simpl.
    rewrite app_nil_r, Nat.add_0_r. repeat split; done.
  - apply mapM_Some in H. inversion H as [|? o ? objs' Ho Hrest]; subst.
    apply mapM_Some in Hrest.
    destruct (attach_logger_resolved l o s Ho) as [c Hc].
    rewrite attach_loggers_cons. unfold bind at 1. rewrite Hc.
    match goal with |- context [attach_loggers importable specs ?s1] =>
      destruct (IH objs' s1 Hrest) as (s' & Hr & Hl & Hn & Hobjs & Hold)
    end.
    cbn [loggers next_id logger_objs set_calls set_loggers set_logger_objs set_next_id]
      in Hl, Hn, Hobjs, Hold.
    exists s'. split; [exact Hr|]. split; [|split; [|split]].
    + rewrite Hl. cbn [length seq]. by rewrite <- app_assoc.
    + rewrite Hn. cbn [length]. lia.
    + intros [|i] o' Hi.
      * injection Hi as <-. rewrite Nat.add_0_r, Hold by lia. by rewrite lookup_insert_eq.
      * replace (next_id s + S i)%nat with (S (next_id s) + i)%nat by lia. by apply Hobjs.
    + intros r Hlt. rewrite Hold by lia. rewrite lookup_insert_ne; [done|lia].
Qed.

(** X19.  A console monitor spec without a listeners entry: the monitor is
    constructed, then iterating [None] raises a [TypeError]; the monitor is
    neither started nor recorded. *)
Lemma attach_console_without_listeners plugin c id cls kargs inst s :
  monitor_class c = Some id ->
  resolve importable ("core.monitors." +:+ id) = Some cls ->
  MONITOR_NAME cls = Some "ConsoleMonitor" ->
  monitor_kargs c = Some kargs -> monitor_listeners c = None ->
  init_raises cls = None ->
  exists s',
    attach_monitor importable plugin c inst s =
      Raises (TypeError "'NoneType' object is not iterable") s' /\
    monitors s' = monitors s /\
    next_id s' = S (next_id s) /\
    monitor_objs s' !! next_id s =
      Some (mk_monitor cls (plugin_process plugin) kargs [] false 0 (observes cls)).
Proof.
  intros Hid Hres Hname Hk Hls Hinit.
  unfold attach_monitor. rewrite Hid, Hk, Hls. cbv zeta.
  unfold bind at 1. unfold logging, emit, modify. unfold bind at 1. unfold concat at 1, ret.
  unfold bind at 1. rewrite (klass_resolved importable _ _ _ Hres).
  unfold bind at 1. unfold get_MONITOR_NAME. rewrite Hname.
  change ("ConsoleMonitor" =? "ConsoleMonitor")%string with true. cbv iota.
  unfold new_monitor, instantiate. rewrite Hinit.
  eexists. split; [reflexivity|]. cbn. split; [done|]. split; [done|].
  by rewrite lookup_insert_eq.
Qed.
End AttachMore.

(** ** The sample runs *)

Section ProcessRuns.
Import ExternalProcess Spec Scenario.
Local Open Scope Q_scope.


(** The same call evaluated: the last poll, at 250.25, returns the child's
    own status 7 after 1001 sleeps, and no signal is sent. *)
Example wait_returns_status_seen_after_deadline :
  match wait 1002 (Some (2501 # 10)) (started Trials.late) with
  | Returns r s' =>
      r = Some 7%Z /\ clock s' = 1001 # 4 /\
      trace s' = poll_sleeps 1001 (1 # 4) ++ [Poll]
  | _ => False
  end.
Proof. vm_compute. repeat split. Qed.

(** X2 at a child that exits with status 0 at time 2, under a timeout of 3. *)
Lemma wait_returns_status_of_early_exit_witness :
  exists s' k,
    wait 1001 (Some 3) (started brief) = Returns (Some 0%Z) s' /\
    exited_with 0 s' /\
    trace s' = trace (started brief) ++ poll_sleeps k (interval_of 3) ++ [Poll] /\
    clock s' == clock (started brief) + inject_Z (Z.of_nat k) * interval_of 3 /\
    2 <= clock s' /\
    (forall j, (j < k)%nat ->
       clock (started brief) + inject_Z (Z.of_nat j) * interval_of 3 < 2).
Proof.
  apply (wait_returns_status_of_early_exit (started brief) brief 3 2 0 1001);
    first [reflexivity | discriminate | (vm_compute; apply le_n)].
Defined.

Lemma wait_negative_timeout_kills_at_once_witness :
  exists s',
    wait 1 (Some (-1)) (started hung) = Returns None s' /\
    exited_with (-15) s' /\
    trace s' = trace (started hung) ++ [Poll] ++ stop_calls (Some hung) ++ [Wait] /\
    clock s' == clock (started hung).
Proof.
  apply (wait_negative_timeout_kills_at_once (started hung) hung (-1) (-15) 0);
    try reflexivity.
  intros p e [= <-] [H|H]; discriminate H.
Defined.

Lemma wait_unstarted_raises_witness :
  exists name,
    wait 1 (Some 5) unstarted =
      Raises (AttributeError ("'NoneType' object has no attribute '" +:+ name +:+ "'"))
        unstarted /\
    stop unstarted = Returns tt unstarted /\ is_running unstarted = Returns false unstarted.
Proof. apply (wait_unstarted_raises 0 (Some 5) unstarted). reflexivity. Defined.

Lemma wait_untimed_blocks_forever_witness :
  wait 0 None (started hung) = Blocks (mk (Some hung) 0 [Wait]).
Proof. apply (wait_untimed_blocks_forever 0 None (started hung) hung); reflexivity. Defined.

Lemma wait_blocks_when_terminate_fails_witness :
  exists s' k,
    wait 1001 (Some 1) (started shielded) = Blocks s' /\
    trace s' =
      trace (started shielded) ++ poll_sleeps k (interval_of 1) ++
      [Poll; Terminate; LogError (OSError "Operation not permitted"); Wait].
Proof.
  apply (wait_blocks_when_terminate_fails (started shielded) shielded 1
           (OSError "Operation not permitted") 1001);
    first [reflexivity | (vm_compute; apply le_n)].
Defined.
End ProcessRuns.

Section EnvironRuns.
Import Environ EnvSpec Utilities PyVal.

Lemma set_environ_keeps_earlier_items_witness :
  exists e,
    set_environ (Some (nested ++ (PStr "B=C", PStr "2") :: [(PStr "Y", PStr "q")])) inherited =
      Raises e (mk (overlay [("X", "a=1,b=2")] (os_environ inherited))) /\
    set_environ (Some [(PStr "B=C", PStr "2")]) inherited = Raises e inherited /\
    is_refusal e = true.
Proof.
  apply (set_environ_keeps_earlier_items nested (PStr "B=C", PStr "2") [(PStr "Y", PStr "q")]
           [("X", "a=1,b=2")] inherited); reflexivity.
Defined.

Lemma set_environ_twice_witness :
  exists s1,
    set_environ (Some mixed) inherited = Returns OsEnviron s1 /\
    set_environ (Some mixed) s1 = Returns OsEnviron s1.
Proof.
  apply (set_environ_twice mixed [("X", "a=1,b=2"); ("Y", "q")] inherited). reflexivity.
Defined.

Lemma pair_to_dict_of_pairs_witness :
  pair_to_dict ["a=1"; "b=x=y"] = inr (overlay [("a", "1"); ("b", "x=y")] ∅) /\
  (forall k, k ∉ [("a", "1"); ("b", "x=y")].*1 ->
             overlay [("a", "1"); ("b", "x=y")] ∅ !! k = None) /\
  (NoDup [("a", "1"); ("b", "x=y")].*1 ->
   forall k v, (k, v) ∈ [("a", "1"); ("b", "x=y")] ->
               overlay [("a", "1"); ("b", "x=y")] ∅ !! k = Some v).
Proof.
  apply (pair_to_dict_of_pairs [("a", "1"); ("b", "x=y")]).
  repeat constructor.
Defined.

Lemma pair_to_dict_without_equals_witness :
  pair_to_dict (["a=1"] ++ "novalue" :: ["b=2"]) =
    inl (ValueError "dictionary update sequence element #1 has length 1; 2 is required").
Proof.
  apply (pair_to_dict_without_equals ["a=1"] "novalue" ["b=2"]).
  - repeat constructor.
  - reflexivity.
Defined.

Lemma pair_to_dict_keys_witness :
  Forall (fun s => contains "=" s = true) ["a=1"; "b=x=y"] /\
  (forall k, is_Some ((<["b" := "x=y"]> (<["a" := "1"]> ∅) : gmap string string) !! k) ->
             contains "=" k = false).
Proof.
  apply (pair_to_dict_keys ["a=1"; "b=x=y"] (<["b" := "x=y"]> (<["a" := "1"]> ∅))).
  reflexivity.
Defined.
End EnvironRuns.

Section QuokkaRuns.
Import Quokka QuokkaSpec ResolveSpec Phases Shutdown Deployment Trials.

Lemma attach_loggers_keeps_loggers_distinct_witness :
  match attach_loggers Trials.modules [logger; logger] (fresh "demo.Target") with
  | Returns _ s' | Raises _ s' | Blocks s' => distinct_loggers s'
  | Starved => True
  end.
Proof.
  apply (attach_loggers_keeps_loggers_distinct Trials.modules [logger; logger]
           (fresh "demo.Target")).
  split; [constructor|]. intros l Hl. by apply elem_of_nil in Hl.
Defined.

Lemma attach_loggers_resolved_witness :
  exists s',
    attach_loggers Trials.modules [logger; logger] (fresh "demo.Target") = Returns tt s' /\
    loggers s' = loggers (fresh "demo.Target") ++ seq (next_id (fresh "demo.Target")) 2 /\
    next_id s' = (next_id (fresh "demo.Target") + 2)%nat /\
    (forall i o,
       [mk_logger filelogger [] [] []; mk_logger filelogger [] [] []] !! i = Some o ->
       logger_objs s' !! (next_id (fresh "demo.Target") + i)%nat = Some o) /\
    (forall r, (r < next_id (fresh "demo.Target"))%nat ->
               logger_objs s' !! r = logger_objs (fresh "demo.Target") !! r).
Proof.
  apply (attach_loggers_resolved Trials.modules [logger; logger]
           [mk_logger filelogger [] [] []; mk_logger filelogger [] [] []]
           (fresh "demo.Target")).
  reflexivity.
Defined.

Lemma attach_console_binds_new_witness :
  exists s',
    attach_monitor Trials.modules started_plugin (monitor "console.ConsoleMonitor") None
      (fresh "demo.Target") = Returns (Some 0%nat) s' /\
    monitors s' = [0%nat] /\ next_id s' = 1%nat /\
    monitor_objs s' !! 0%nat =
      Some (mk_monitor console (Some child) [] [mk_listener testcase []] true 1
              (Some (PStr "crash"))).
Proof.
  apply (attach_console_binds_new Trials.modules started_plugin
           (monitor "console.ConsoleMonitor") "console.ConsoleMonitor" console []
           [listener] [mk_listener testcase []] None (fresh "demo.Target"));
    reflexivity.
Defined.

Lemma attach_console_without_listeners_witness :
  exists s',
    attach_monitor Trials.modules started_plugin bare_console None (fresh "demo.Target") =
      Raises (TypeError "'NoneType' object is not iterable") s' /\
    monitors s' = [] /\ next_id s' = 1%nat /\
    monitor_objs s' !! 0%nat =
      Some (mk_monitor console (Some child) [] [] false 0 (Some (PStr "crash"))).
Proof.
  apply (attach_console_without_listeners Trials.modules started_plugin bare_console
           "console.ConsoleMonitor" console [] None (fresh "demo.Target"));
    reflexivity.
Defined.

Lemma target_monitored :
  attach_monitors Trials.modules (plugin_after_start target (fresh "demo.Target"))
    (conf_monitors (conf (fresh "demo.Target"))) (state_after_start target (fresh "demo.Target")) =
    Returns tt (monitored target "demo.Target").
Proof. vm_compute. reflexivity. Defined.

Lemma target_logged :
  attach_loggers Trials.modules (conf_loggers (conf (fresh "demo.Target")))
    (monitored target "demo.Target") = Returns tt (logged target "demo.Target").
Proof. vm_compute. reflexivity. Defined.

Lemma server_monitored :
  attach_monitors Trials.modules (plugin_after_start server (fresh "server.Server"))
    (conf_monitors (conf (fresh "server.Server")))
    (state_after_start server (fresh "server.Server")) =
    Returns tt (monitored server "server.Server").
Proof. vm_compute. reflexivity. Defined.

Lemma server_logged :
  attach_loggers Trials.modules (conf_loggers (conf (fresh "server.Server")))
    (monitored server "server.Server") = Returns tt (logged server "server.Server").
Proof. vm_compute. reflexivity. Defined.

Lemma run_plugin_returns_exit_status_witness :
  exists s',
    run_plugin Trials.modules (fresh "demo.Target") = Returns (Some 3%Z) s' /\
    calls s' =
      calls (logged target "demo.Target") ++ [ProcessWait] ++
      flat_map (visit (monitor_objs (logged target "demo.Target"))
                  (loggers (logged target "demo.Target")))
        (monitors (logged target "demo.Target")) ++
      List.map AddFault (loggers (logged target "demo.Target")).
Proof.
  apply (run_plugin_returns_exit_status Trials.modules (fresh "demo.Target") target child 3
           (monitored target "demo.Target") (logged target "demo.Target"));
    first [exact target_monitored | exact target_logged | reflexivity].
Defined.

Lemma run_plugin_settles_every_logger_witness :
  exists s',
    run_plugin Trials.modules (fresh "demo.Target") = Returns (Some 3%Z) s' /\
    forall l, l ∈ loggers (logged target "demo.Target") ->
      logger_objs s' !! l =
        settled (records (monitor_objs (logged target "demo.Target"))
                   (monitors (logged target "demo.Target"))) <$>
          logger_objs (logged target "demo.Target") !! l.
Proof.
  apply (run_plugin_settles_every_logger Trials.modules (fresh "demo.Target") target child 3
           (monitored target "demo.Target") (logged target "demo.Target"));
    first [exact target_monitored | exact target_logged | reflexivity | idtac].
  split; [constructor|]. intros l Hl. by apply elem_of_nil in Hl.
Defined.

Lemma run_plugin_blocks_while_child_lives_witness :
  run_plugin Trials.modules (fresh "server.Server") =
    Blocks (set_calls (calls (logged server "server.Server") ++ [ProcessWait])
              (logged server "server.Server")).
Proof.
  apply (run_plugin_blocks_while_child_lives Trials.modules (fresh "server.Server") server
           Scenario.hung (monitored server "server.Server") (logged server "server.Server"));
    first [exact server_monitored | exact server_logged | reflexivity].
Defined.

Lemma run_plugin_start_failure_witness :
  run_plugin Trials.modules (fresh "broken.Broken") =
    Raises (QuokkaException "target binary not found")
      (set_plugin (Some (mk_plugin broken PNone None 0))
         (set_calls [Log DEBUG "Importing 'Broken' from 'core.plugins.broken'";
                     PluginInit; PluginStart] (fresh "broken.Broken"))).
Proof.
  apply (run_plugin_start_failure Trials.modules (fresh "broken.Broken") broken
           (PluginException "target binary not found")); reflexivity.
Defined.

Lemma run_plugin_constructor_failure_witness :
  run_plugin Trials.modules (fresh "unbuildable.Unbuildable") =
    Raises (PluginException "bad configuration")
      (set_calls [Log DEBUG "Importing 'Unbuildable' from 'core.plugins.unbuildable'"]
         (fresh "unbuildable.Unbuildable")).
Proof.
  apply (run_plugin_constructor_failure Trials.modules (fresh "unbuildable.Unbuildable")
           unbuildable (PluginException "bad configuration")); reflexivity.
Defined.

Lemma run_plugin_wraps_plugin_exception_witness :
  run_plugin Trials.modules (fresh "faulty.Plugin") =
    Raises (QuokkaException "Plugin initialization failed: missing dependency")
      (set_calls [Log DEBUG "Importing 'Plugin' from 'core.plugins.faulty'"]
         (fresh "faulty.Plugin")).
Proof.
  apply (run_plugin_wraps_plugin_exception Trials.modules (fresh "faulty.Plugin")
           "missing dependency"); reflexivity.
Defined.

Lemma stop_plugin_after_failed_start_witness :
  exists e' s',
    run_plugin Trials.modules (fresh "broken.Broken") = Raises e' s' /\
    stop_plugin (ret tt) s' =
      Raises (AttributeError "'NoneType' object has no attribute 'returncode'") s'.
Proof.
  apply (stop_plugin_after_failed_start Trials.modules (ret tt) (fresh "broken.Broken") broken
           (PluginException "target binary not found")); reflexivity.
Defined.

Lemma stop_plugin_running_witness :
  stop_plugin (raise (PluginException "cannot stop"))
    (state_after_start target (fresh "demo.Target")) =
    Raises (QuokkaException "cannot stop") (state_after_start target (fresh "demo.Target")).
Proof.
  apply (stop_plugin_running (raise (PluginException "cannot stop"))
           (state_after_start target (fresh "demo.Target"))
           (plugin_after_start target (fresh "demo.Target")) child); reflexivity.
Defined.
End QuokkaRuns.

